(** * codemirror-template-mode: the layer scanner and the token dispatcher

    A shallow embedding of [src/index.ts] and its properties.

    - Positions are JavaScript numbers and are kept as [Z], because the code
      uses [-1] for "no match"; strings are [string] with the JavaScript
      primitives ([indexOf], [endsWith], [slice], [substring]) written out
      with their clamping.
    - Patterns form a cyclic object graph in the source
      ([parenthesis.children] contains [parenthesis]); they are kept in an
      arena and referred to by identifier, so that identity of patterns
      ([pattern === template]) is equality of identifiers.
    - JavaScript objects used as dictionaries ([regExpCache], [customs]) are
      finite maps with string keys.
    - [createLayers] and [matchWithEscape] loop and may dereference [null]:
      they return an [outcome], which is a value, an exception, or the
      exhaustion of the fuel that bounds the loops.
    - The regular-expression engine and the CodeMirror host (streams,
      sub-modes) are interfaces; a small engine and a host without sub-mode
      tokenizers instantiate them for the examples.
    - For [copyState], which is about sharing of mutable objects, the state
      is modelled a second time as an object graph in a heap ([Module Heap]).

    The definitions come first; the properties follow, and then the
    properties at concrete inputs. *)

From Stdlib Require Import ZArith Lia Ascii String List Bool.
From stdpp Require Import base option gmap strings list.

Open Scope string_scope.
Open Scope Z_scope.

(** ** JavaScript values and strings *)

(** Values of TypeScript type [any]: mode specifications, sub-mode states and
    the entries of [customs]. *)
#[warnings="-register-all"]
Inductive jsval : Type :=
  | JUndefined
  | JNull
  | JBool (b : bool)
  | JNum (n : Z)
  | JStr (s : string)
  | JObj (fields : list (string * jsval)).

(** ToBoolean. *)
Definition truthy (v : jsval) : bool :=
  match v with
  | JUndefined | JNull => false
  | JBool b => b
  | JNum n => negb (n =? 0)
  | JStr s => negb (String.eqb s "")
  | JObj _ => true
  end.

(** [v === true] *)
Definition isTrue (v : option jsval) : bool :=
  match v with
  | Some (JBool true) => true
  | _ => false
  end.

Definition strlen (s : string) : Z := Z.of_nat (String.length s).

Definition clamp (lo hi x : Z) : Z := Z.max lo (Z.min x hi).

(** [String.prototype.indexOf(search, position)] *)
Definition indexOf (s search : string) (position : Z) : Z :=
  let start := clamp 0 (strlen s) position in
  match String.index (Z.to_nat start) search s with
  | Some k => Z.of_nat k
  | None => -1
  end.

(** [String.prototype.endsWith(search, endPosition)] *)
Definition endsWith (s search : string) (endPosition : Z) : bool :=
  let end_ := clamp 0 (strlen s) endPosition in
  let start := end_ - strlen search in
  if start <? 0 then false
  else String.eqb (String.substring (Z.to_nat start) (String.length search) s) search.

(** [String.prototype.startsWith(search)] *)
Definition startsWith (s search : string) : bool := String.prefix search s.

(** Relative index of [slice]: negative indices count from the end. *)
Definition relIndex (len i : Z) : Z :=
  if i <? 0 then Z.max (len + i) 0 else Z.min i len.

(** [String.prototype.slice(start, end)]; [end_ = None] is an omitted
    second argument. *)
Definition slice (s : string) (start : Z) (end_ : option Z) : string :=
  let len := strlen s in
  let from := relIndex len start in
  let to := match end_ with Some e => relIndex len e | None => len end in
  String.substring (Z.to_nat from) (Z.to_nat (to - from)) s.

(** [String.prototype.substring(start, end)] *)
Definition substring (s : string) (start end_ : Z) : string :=
  let len := strlen s in
  let a := clamp 0 len start in
  let b := clamp 0 len end_ in
  let from := Z.min a b in
  let to := Z.max a b in
  String.substring (Z.to_nat from) (Z.to_nat (to - from)) s.

(** [flags.replace(/g/g, '')] *)
Fixpoint removeChar (c : ascii) (s : string) : string :=
  match s with
  | EmptyString => EmptyString
  | String a s' =>
      if Ascii.eqb a c then removeChar c s' else String a (removeChar c s')
  end.

(** [matched ? matched.length : 0] *)
Definition matchedLength (matched : option string) : Z :=
  match matched with
  | Some m => strlen m
  | None => 0
  end.

(** ** Outcomes

    [createLayers] and [matchWithEscape] contain [while] loops and
    [getCurrentPattern] dereferences a possibly null link, so a call either
    returns, throws, or is still running when the fuel is used up. *)

Inductive exn : Type :=
  | TypeError          (* property access on null *)
  | Impossible.        (* new Error('This is impossible!') *)

Inductive outcome (A : Type) : Type :=
  | Done (a : A)
  | Throws (e : exn)
  | Timeout.

Arguments Done {A} a.
Arguments Throws {A} e.
Arguments Timeout {A}.

Definition bind {A B : Type} (m : outcome A) (k : A -> outcome B) : outcome B :=
  match m with
  | Done a => k a
  | Throws e => Throws e
  | Timeout => Timeout
  end.

Notation "'let*' x ':=' m 'in' k" := (bind m (fun x => k))
  (at level 10, x pattern, m at level 100, k at level 200).

(** ** Data model *)

Definition patId := nat.

Record RegExp : Type := {
  source : string;
  flags : string;
  lastIndex : Z;
}.

Record ILayer : Type := {
  l_pos : Z;
  l_matched : option string;
  l_open : bool;
  l_prePattern : patId;
  l_nextPattern : patId;
}.

(** [IStateContext] is a linked list of (mode, state) pairs ending in
    [null]; [IPatternContext] is a linked list of patterns ending in [null].
    Both are lists whose head is the top link; [[]] is [null]. *)
Record IStateContext : Type := {
  sc_mode : jsval;
  sc_state : jsval;
}.

Record ITemplateState : Type := {
  textBefore : string;
  patternContext : list patId;
  stateContext : list IStateContext;
  useRoot : bool;
  start : bool;
  layers : option (list ILayer);
  regExpCache : gmap string RegExp;
  customs : gmap string jsval;
}.

(** A matcher spec.  A callback receives the state and returns a position
    and a matched text; it is taken to read the state only (the preset's
    callback reads [customs] and [textBefore]). *)
Inductive PatternLike : Type :=
  | PString (s : string)
  | PRegExp (r : RegExp)
  | PFunction (f : string -> Z -> ITemplateState -> Z * option string).

Record IPattern : Type := {
  mode : jsval;
  open : option PatternLike;
  close : option PatternLike;
  escape : option PatternLike;
  children : option (list patId);
  includePattern : option bool;
  patternStyles : option (option string * option string);
}.

Record Info : Type := {
  i_line : string;
  i_pos : Z;
  i_textBefore : string;
  i_matched : option string;
  i_pattern : option patId;
}.

Definition Callback : Type := ITemplateState -> Info -> ITemplateState.

(** [ITemplateOptions extends IPattern]: the options object is itself the
    root pattern; [self] is its identifier in [arena]. *)
Record ITemplateOptions : Type := {
  arena : patId -> IPattern;
  self : patId;
  codeMode : jsval;
  beforeEnter : option Callback;
  afterEnter : option Callback;
  beforeExit : option Callback;
  afterExit : option Callback;
}.

(** Field updates of the state object. *)
Definition set_textBefore (t : string) (st : ITemplateState) : ITemplateState :=
  {| textBefore := t; patternContext := patternContext st;
     stateContext := stateContext st; useRoot := useRoot st; start := start st;
     layers := layers st; regExpCache := regExpCache st; customs := customs st |}.

Definition set_patternContext (c : list patId) (st : ITemplateState) : ITemplateState :=
  {| textBefore := textBefore st; patternContext := c;
     stateContext := stateContext st; useRoot := useRoot st; start := start st;
     layers := layers st; regExpCache := regExpCache st; customs := customs st |}.

Definition set_stateContext (c : list IStateContext) (st : ITemplateState) : ITemplateState :=
  {| textBefore := textBefore st; patternContext := patternContext st;
     stateContext := c; useRoot := useRoot st; start := start st;
     layers := layers st; regExpCache := regExpCache st; customs := customs st |}.

Definition set_useRoot (b : bool) (st : ITemplateState) : ITemplateState :=
  {| textBefore := textBefore st; patternContext := patternContext st;
     stateContext := stateContext st; useRoot := b; start := start st;
     layers := layers st; regExpCache := regExpCache st; customs := customs st |}.

Definition set_start (b : bool) (st : ITemplateState) : ITemplateState :=
  {| textBefore := textBefore st; patternContext := patternContext st;
     stateContext := stateContext st; useRoot := useRoot st; start := b;
     layers := layers st; regExpCache := regExpCache st; customs := customs st |}.

Definition set_layers (l : option (list ILayer)) (st : ITemplateState) : ITemplateState :=
  {| textBefore := textBefore st; patternContext := patternContext st;
     stateContext := stateContext st; useRoot := useRoot st; start := start st;
     layers := l; regExpCache := regExpCache st; customs := customs st |}.

Definition set_regExpCache (c : gmap string RegExp) (st : ITemplateState) : ITemplateState :=
  {| textBefore := textBefore st; patternContext := patternContext st;
     stateContext := stateContext st; useRoot := useRoot st; start := start st;
     layers := layers st; regExpCache := c; customs := customs st |}.

Definition set_customs (c : gmap string jsval) (st : ITemplateState) : ITemplateState :=
  {| textBefore := textBefore st; patternContext := patternContext st;
     stateContext := stateContext st; useRoot := useRoot st; start := start st;
     layers := layers st; regExpCache := regExpCache st; customs := c |}.

(** ** Pattern-context stack (index.ts 57-96) *)

Definition pushPatternContext (st : ITemplateState) (pattern : patId) : ITemplateState :=
  set_patternContext (pattern :: patternContext st) st.

(** [state.patternContext = state.patternContext.pre!]: reading [pre] of a
    null link throws. *)
Definition popPatternContext (st : ITemplateState) : outcome ITemplateState :=
  match patternContext st with
  | [] => Throws TypeError
  | _ :: pre => Done (set_patternContext pre st)
  end.

Definition getCurrentPattern (st : ITemplateState) : outcome patId :=
  match patternContext st with
  | [] => Throws TypeError
  | pattern :: _ => Done pattern
  end.

(** ** Regular-expression normalizer and cache (index.ts 98-153) *)

Inductive AnchorMode : Type := NONE | START | END | ALL.

Definition makeSureAnchor (source : string) (start exist : bool) : string :=
  if start then
    if exist && negb (startsWith source "^") then "^" +:+ source
    else if negb exist && startsWith source "^" then slice source 1 None
    else source
  else
    if exist && negb (endsWith source "$" (strlen source)) then source +:+ "$"
    else if negb exist && endsWith source "$" (strlen source) then slice source 0 (Some (-1))
    else source.

Definition cacheKey (source flags : string) : string :=
  source +:+ "tVes#aE$" +:+ flags.

Definition normalizeSource (source : string) (anchor : AnchorMode) : string :=
  match anchor with
  | ALL => makeSureAnchor (makeSureAnchor source true true) false true
  | END => makeSureAnchor (makeSureAnchor source true false) false true
  | NONE => makeSureAnchor (makeSureAnchor source true false) false false
  | START => makeSureAnchor (makeSureAnchor source true true) false false
  end.

Definition normalizeFlags (flags : string) (global : bool) : string :=
  if global && (indexOf flags "g" 0 =? -1) then flags +:+ "g"
  else if negb global && negb (indexOf flags "g" 0 =? -1) then removeChar "g"%char flags
  else flags.

(** Returns the cached object together with the key under which it lives in
    [state.regExpCache] (the caller mutates the object in place). *)
Definition getCachedRegExp (st : ITemplateState) (regExp : RegExp)
    (anchor : AnchorMode) (global : bool) : string * RegExp * ITemplateState :=
  let source := normalizeSource (source regExp) anchor in
  let flags := normalizeFlags (flags regExp) global in
  let key := cacheKey source flags in
  match regExpCache st !! key with
  | Some cached => (key, cached, st)
  | None =>
      let cached := {| source := source; flags := flags; lastIndex := 0 |} in
      (key, cached, set_regExpCache (<[key := cached]> (regExpCache st)) st)
  end.

(** ** The regular-expression engine

    [new RegExp(source, flags)] and [RegExp.prototype.exec] belong to the
    JavaScript runtime.  The engine is an interface: [regExpMatch source
    flags from input] is the leftmost match of the compiled expression in
    [input] that starts at or after [from], as (index, matched text). *)
Class RegExpEngine : Type :=
  regExpMatch : string -> string -> Z -> string -> option (Z * string).

Section Scanner.

Context {engine : RegExpEngine}.

Definition hasFlag (c : string) (r : RegExp) : bool :=
  negb (indexOf (flags r) c 0 =? -1).

(** [reg.exec(input)]: a global or sticky expression starts at [lastIndex]
    and stores the end of the match there (0 on failure); any other
    expression starts at 0 and leaves [lastIndex] alone. *)
Definition exec (reg : RegExp) (input : string) : option (Z * string) * RegExp :=
  if hasFlag "g" reg || hasFlag "y" reg then
    let result :=
      if strlen input <? lastIndex reg then None
      else regExpMatch (source reg) (flags reg) (lastIndex reg) input in
    let last := match result with
                | Some (index, m) => index + strlen m
                | None => 0
                end in
    (result, {| source := source reg; flags := flags reg; lastIndex := last |})
  else (regExpMatch (source reg) (flags reg) 0 input, reg).

Definition set_lastIndex (i : Z) (reg : RegExp) : RegExp :=
  {| source := source reg; flags := flags reg; lastIndex := i |}.

(** ** Matcher (index.ts 155-207) *)

Inductive MatchMode : Type := DEFAULT | PREFIX.

Definition noMatch : Z * option string := (-1, None).

Definition execResult (result : option (Z * string)) : Z * option string :=
  match result with
  | Some (index, m) => (index, Some m)
  | None => noMatch
  end.

Definition match_ (line : string) (position : Z) (mode : MatchMode)
    (pattern : PatternLike) (st : ITemplateState)
    : (Z * option string) * ITemplateState :=
  match pattern with
  | PString pattern =>
      match mode with
      | DEFAULT =>
          let index := indexOf line pattern position in
          ((index, if 0 <=? index then Some pattern else None), st)
      | PREFIX =>
          (if endsWith line pattern position
           then (position - strlen pattern, Some pattern)
           else noMatch, st)
      end
  | PFunction pattern => (pattern line position st, st)
  | PRegExp pattern =>
      match mode with
      | DEFAULT =>
          let '(key, reg, st) := getCachedRegExp st pattern NONE true in
          let reg := set_lastIndex position reg in
          let '(result, reg) := exec reg line in
          (execResult result, set_regExpCache (<[key := reg]> (regExpCache st)) st)
      | PREFIX =>
          let '(key, reg, st) := getCachedRegExp st pattern END false in
          let reg := set_lastIndex 0 reg in
          let '(result, reg) := exec reg (substring line 0 position) in
          (execResult result, set_regExpCache (<[key := reg]> (regExpCache st)) st)
      end
  end.

(** [if (spec)]: an absent spec and the empty string are falsy. *)
Definition present (spec : option PatternLike) : option PatternLike :=
  match spec with
  | Some (PString "") => None
  | _ => spec
  end.

Definition checkEscape (st : ITemplateState) (line : string) (offset : Z)
    (escape : option PatternLike) : bool * ITemplateState :=
  match present escape with
  | None => (false, st)
  | Some escape =>
      let '((pos, _), st) := match_ line offset PREFIX escape st in
      (0 <=? pos, st)
  end.

(** The [while (pos !== -1)] loop of [matchWithEscape]; the loop variables
    are [pos], [matched] and [escaped]. *)
Fixpoint matchWithEscape_loop (fuel : nat) (line : string) (pattern : PatternLike)
    (escape : option PatternLike) (pos : Z) (matched : option string)
    (escaped : bool) (st : ITemplateState)
    : outcome (Z * option string * bool * ITemplateState) :=
  match fuel with
  | O => Timeout
  | S fuel =>
      if pos =? -1 then Done (pos, matched, escaped, st)
      else
        let '(escaped, st) := checkEscape st line pos escape in
        if negb escaped then Done (pos, matched, escaped, st)
        else
          let next := pos + matchedLength matched in
          let '((pos, matched), st) := match_ line next DEFAULT pattern st in
          matchWithEscape_loop fuel line pattern escape pos matched escaped st
  end.

Definition matchWithEscape (fuel : nat) (line : string) (position : Z)
    (pattern : PatternLike) (escape : option PatternLike) (st : ITemplateState)
    : outcome (Z * option string * ITemplateState) :=
  let '((pos, matched), st) := match_ line position DEFAULT pattern st in
  let* (pos, matched, escaped, st) :=
    matchWithEscape_loop fuel line pattern escape pos matched false st in
  let pos := if escaped : bool then -1 else pos in
  Done (pos, if pos =? -1 then None else matched, st).

(** ** Layer scanner (index.ts 209-288) *)

Inductive FoundMode : Type := PUSH | POP | NoneFound.

(** The variables of one iteration of the scan loop that the search for a
    transition assigns: [found], [pos], [matched], [nextPattern]. *)
Record Search : Type := {
  found : FoundMode;
  pos : Z;
  matched : option string;
  nextPattern : patId;
}.

(** [if (close) { ... }] (index.ts 237-244) *)
Definition searchClose (fuel : nat) (line : string) (offset : Z)
    (close escape : option PatternLike) (s : Search) (st : ITemplateState)
    : outcome (Search * ITemplateState) :=
  match present close with
  | None => Done (s, st)
  | Some close =>
      let* (tmpPos, tmpMatched, st) := matchWithEscape fuel line offset close escape st in
      if 0 <=? tmpPos then
        Done ({| found := POP; pos := tmpPos; matched := tmpMatched;
                 nextPattern := nextPattern s |}, st)
      else Done (s, st)
  end.

(** [for (const child of children) { ... }] (index.ts 246-257) *)
Fixpoint searchChildren (fuel : nat) (arena : patId -> IPattern) (line : string)
    (offset : Z) (escape : option PatternLike) (children : list patId)
    (s : Search) (st : ITemplateState) : outcome (Search * ITemplateState) :=
  match children with
  | [] => Done (s, st)
  | child :: children =>
      let* (s, st) :=
        match present (open (arena child)) with
        | None => Done (s, st)
        | Some open =>
            let* (tmpPos, tmpMatched, st) :=
              matchWithEscape fuel line offset open escape st in
            if (0 <=? tmpPos) && ((pos s =? -1) || (tmpPos <? pos s)) then
              Done ({| found := PUSH; pos := tmpPos; matched := tmpMatched;
                       nextPattern := child |}, st)
            else Done (s, st)
        end in
      searchChildren fuel arena line offset escape children s st
  end.

(** The search of one iteration (index.ts 228-258), for the current pattern
    [prePattern]; [matched] is the function-level variable carried over from
    the previous iteration. *)
Definition search (fuel : nat) (arena : patId -> IPattern) (line : string)
    (offset : Z) (prePattern : patId) (matched : option string)
    (st : ITemplateState) : outcome (Search * ITemplateState) :=
  let s := {| found := NoneFound; pos := -1; matched := matched;
              nextPattern := prePattern |} in
  let p := arena prePattern in
  let* (s, st) := searchClose fuel line offset (close p) (escape p) s st in
  match children p with
  | Some children => searchChildren fuel arena line offset (escape p) children s st
  | None => Done (s, st)
  end.

Definition callHook (hook : option Callback) (st : ITemplateState) (info : Info)
    : ITemplateState :=
  match hook with
  | Some f => f st info
  | None => st
  end.

Definition mkInfo (line : string) (pos : Z) (st : ITemplateState)
    (matched : option string) (pattern : patId) : Info :=
  {| i_line := line; i_pos := pos; i_textBefore := textBefore st;
     i_matched := matched; i_pattern := Some pattern |}.

(** The transition of one iteration (index.ts 260-281): returns the layer
    that is pushed on [layers]. *)
Definition transition (parserConfig : ITemplateOptions) (line : string)
    (offset : Z) (prePattern : patId) (s : Search) (st : ITemplateState)
    : outcome (ILayer * ITemplateState) :=
  let st := set_textBefore (textBefore st +:+ slice line offset (Some (pos s))) st in
  let* (nextPattern, st) :=
    match found s with
    | PUSH =>
        let pattern := nextPattern s in
        let st := callHook (beforeEnter parserConfig) st
                    (mkInfo line (pos s) st (matched s) pattern) in
        let st := pushPatternContext st pattern in
        let st := callHook (afterEnter parserConfig) st
                    (mkInfo line (pos s) st (matched s) pattern) in
        Done (nextPattern s, st)
    | _ =>
        let pattern := prePattern in
        let st := callHook (beforeExit parserConfig) st
                    (mkInfo line (pos s) st (matched s) pattern) in
        let* st := popPatternContext st in
        let st := callHook (afterExit parserConfig) st
                    (mkInfo line (pos s) st (matched s) pattern) in
        let* nextPattern := getCurrentPattern st in
        Done (nextPattern, st)
    end in
  let st := set_textBefore "" st in
  Done ({| l_pos := pos s; l_matched := matched s;
           l_open := match found s with PUSH => true | _ => false end;
           l_prePattern := prePattern; l_nextPattern := nextPattern |}, st).

(** The [while (offset < line.length)] loop; [acc] is the array [layers] and
    [matched0] the value that the function-level variable [matched] has on
    entry to the iteration. *)
Fixpoint createLayers_loop (fuel : nat) (parserConfig : ITemplateOptions)
    (line : string) (offset : Z) (matched0 : option string) (acc : list ILayer)
    (st : ITemplateState) : outcome (list ILayer * ITemplateState) :=
  match fuel with
  | O => Timeout
  | S fuel =>
      if offset <? strlen line then
        let* prePattern := getCurrentPattern st in
        let* (s, st) :=
          search fuel (arena parserConfig) line offset prePattern matched0 st in
        match found s with
        | NoneFound =>
            Done (acc, set_textBefore (textBefore st +:+ slice line offset None) st)
        | _ =>
            let* (layer, st) := transition parserConfig line offset prePattern s st in
            createLayers_loop fuel parserConfig line
              (pos s + matchedLength (matched s)) (matched s) (acc ++ [layer]) st
        end
      else Done (acc, st)
  end.

Definition createLayers (fuel : nat) (parserConfig : ITemplateOptions)
    (st : ITemplateState) (line : string) (offset : Z)
    : outcome (list ILayer * ITemplateState) :=
  createLayers_loop fuel parserConfig line offset None [] st.

End Scanner.

(** ** A regular-expression engine for a fragment of the syntax

    Enough of the JavaScript syntax to run the preset grammar and the
    examples: literal characters, [.], the classes [\s \S \w \W \d \D],
    escaped punctuation, the greedy quantifiers [* + ?] and the anchors
    [^ $], with no flag or the [g] flag.  Matching backtracks as the
    JavaScript engine does: a quantified atom first takes as many characters
    as it can.  A source or flag outside the fragment matches nothing. *)
Module MiniRegExp.

Inductive atom : Type :=
  | AChar (c : ascii)
  | AAny
  | ASpace (negated : bool)
  | AWord (negated : bool)
  | ADigit (negated : bool).

Inductive quant : Type := One | Opt | Star | Plus.

Inductive item : Type :=
  | IStart
  | IEnd
  | IAtom (a : atom) (q : quant).

Definition between (lo hi : nat) (c : ascii) : bool :=
  let n := nat_of_ascii c in (lo <=? n)%nat && (n <=? hi)%nat.

Definition isSpace (c : ascii) : bool :=
  let n := nat_of_ascii c in
  between 9 13 c || (n =? 32)%nat || (n =? 160)%nat.

Definition isDigit (c : ascii) : bool := between 48 57 c.

Definition isWord (c : ascii) : bool :=
  between 97 122 c || between 65 90 c || isDigit c || (nat_of_ascii c =? 95)%nat.

Definition isLineTerminator (c : ascii) : bool :=
  let n := nat_of_ascii c in (n =? 10)%nat || (n =? 13)%nat.

Definition atomMatches (a : atom) (c : ascii) : bool :=
  match a with
  | AChar x => Ascii.eqb x c
  | AAny => negb (isLineTerminator c)
  | ASpace negated => xorb negated (isSpace c)
  | AWord negated => xorb negated (isWord c)
  | ADigit negated => xorb negated (isDigit c)
  end.

(** The atom denoted by the character after a backslash. *)
Definition escapedAtom (c : ascii) : option atom :=
  match c with
  | "s"%char => Some (ASpace false)
  | "S"%char => Some (ASpace true)
  | "w"%char => Some (AWord false)
  | "W"%char => Some (AWord true)
  | "d"%char => Some (ADigit false)
  | "D"%char => Some (ADigit true)
  | "n"%char => Some (AChar (ascii_of_nat 10))
  | "r"%char => Some (AChar (ascii_of_nat 13))
  | "t"%char => Some (AChar (ascii_of_nat 9))
  | _ => if isWord c then None else Some (AChar c)
  end.

(** Splits a quantifier off the front of the rest of the source. *)
Definition parseQuant (s : string) : option (quant * string) :=
  match s with
  | String "*" s' => Some (Star, s')
  | String "+" s' => Some (Plus, s')
  | String "?" s' => Some (Opt, s')
  | _ => Some (One, s)
  end.

Definition lazyOrRepeated (q : quant) (rest : string) : bool :=
  match q, rest with
  | One, _ => false
  | _, String "?" _ | _, String "*" _ | _, String "+" _ => true
  | _, _ => false
  end.

Fixpoint parse (fuel : nat) (s : string) : option (list item) :=
  match fuel with
  | O => None
  | S fuel =>
      match s with
      | EmptyString => Some []
      | String "^" s' => cons IStart <$> parse fuel s'
      | String "$" s' => cons IEnd <$> parse fuel s'
      | String c s' =>
          let atomAndRest :=
            match c with
            | "\"%char =>
                match s' with
                | String e s'' => (fun a => (a, s'')) <$> escapedAtom e
                | EmptyString => None
                end
            | "."%char => Some (AAny, s')
            | "("%char | ")"%char | "["%char | "|"%char
            | "*"%char | "+"%char | "?"%char => None
            | "{"%char =>
                match s' with
                | String d _ => if isDigit d then None else Some (AChar c, s')
                | EmptyString => Some (AChar c, s')
                end
            | _ => Some (AChar c, s')
            end in
          match atomAndRest with
          | None => None
          | Some (a, rest) =>
              match parseQuant rest with
              | None => None
              | Some (q, rest) =>
                  if lazyOrRepeated q rest then None
                  else cons (IAtom a q) <$> parse fuel rest
              end
          end
      end
  end.

(** Greedy repetition of [a] followed by the continuation [k]. *)
Definition star (a : atom) (k : nat -> string -> option nat)
    : nat -> string -> option nat :=
  fix go (i : nat) (s : string) {struct s} : option nat :=
    let more :=
      match s with
      | String c s' => if atomMatches a c then S <$> go (S i) s' else None
      | EmptyString => None
      end in
    match more with
    | Some n => Some n
    | None => k i s
    end.

Definition one (a : atom) (k : nat -> string -> option nat) (i : nat) (s : string)
    : option nat :=
  match s with
  | String c s' => if atomMatches a c then S <$> k (S i) s' else None
  | EmptyString => None
  end.

(** [matchHere re i s]: the number of characters of [s] that [re] matches
    when [s] is the input from index [i] on. *)
Fixpoint matchHere (re : list item) (i : nat) (s : string) : option nat :=
  match re with
  | [] => Some O
  | IStart :: re => if (i =? 0)%nat then matchHere re i s else None
  | IEnd :: re =>
      match s with
      | EmptyString => matchHere re i s
      | _ => None
      end
  | IAtom a One :: re => one a (matchHere re) i s
  | IAtom a Opt :: re =>
      match one a (matchHere re) i s with
      | Some n => Some n
      | None => matchHere re i s
      end
  | IAtom a Star :: re => star a (matchHere re) i s
  | IAtom a Plus :: re => one a (star a (matchHere re)) i s
  end.

Fixpoint searchFrom (re : list item) (i : nat) (s : string) : option (nat * nat) :=
  match matchHere re i s with
  | Some n => Some (i, n)
  | None =>
      match s with
      | String _ s' => searchFrom re (S i) s'
      | EmptyString => None
      end
  end.

Definition supportedFlags (flags : string) : bool :=
  String.eqb flags "" || String.eqb flags "g".

Definition run (source flags : string) (from : Z) (input : string)
    : option (Z * string) :=
  if supportedFlags flags then
    match parse (S (String.length source)) source with
    | None => None
    | Some re =>
        let i := Z.to_nat (clamp 0 (strlen input) from) in
        match searchFrom re i (String.substring i (String.length input - i) input) with
        | Some (index, n) => Some (Z.of_nat index, String.substring index n input)
        | None => None
        end
    end
  else None.

End MiniRegExp.

Definition miniEngine : RegExpEngine := MiniRegExp.run.

(** ** The host: streams and embedded sub-modes

    [StringStream] and the sub-modes come from CodeMirror.  A mode object is
    identified with the mode specification that [CodeMirror.getMode] resolves;
    its [token] function returns the style together with the stream and the
    sub-mode state as it leaves them. *)

Record StringStream : Type := {
  ss_string : string;
  ss_pos : Z;
  ss_start : Z;
  ss_lineStart : Z;
}.

Definition set_pos (p : Z) (stream : StringStream) : StringStream :=
  {| ss_string := ss_string stream; ss_pos := p; ss_start := ss_start stream;
     ss_lineStart := ss_lineStart stream |}.

Definition sol (stream : StringStream) : bool := ss_pos stream =? ss_lineStart stream.
Definition eol (stream : StringStream) : bool := strlen (ss_string stream) <=? ss_pos stream.
Definition backUp (n : Z) (stream : StringStream) : StringStream :=
  set_pos (ss_pos stream - n) stream.

Class Host : Type := {
  (* CodeMirror.getMode(config, mode).token, when the mode has one *)
  modeToken : jsval -> option (StringStream -> jsval -> option string * StringStream * jsval);
  (* CodeMirror.startState(mode, indentation) *)
  modeStartState : jsval -> option Z -> jsval;
  (* CodeMirror.copyState(mode, state) *)
  modeCopyState : jsval -> jsval -> jsval;
  (* stream.indentation() *)
  indentation : StringStream -> Z;
}.

Section Dispatcher.

Context {engine : RegExpEngine} {host : Host}.

(** *** Embedded-mode-state stack (index.ts 68-91) *)

Definition pushStateContext (st : ITemplateState) (mode : jsval)
    (stream : StringStream) : ITemplateState :=
  let context := {| sc_mode := mode;
                    sc_state := modeStartState mode (Some (indentation stream)) |} in
  set_stateContext (context :: stateContext st) st.

Definition popStateContext (st : ITemplateState) : outcome ITemplateState :=
  match stateContext st with
  | [] => Throws TypeError
  | _ :: pre => Done (set_stateContext pre st)
  end.

Definition getLocalMode (st : ITemplateState) : option jsval :=
  match stateContext st with
  | [] => None
  | c :: _ => Some (sc_mode c)
  end.

Definition getLocalState (st : ITemplateState) : jsval :=
  match stateContext st with
  | [] => JNull
  | c :: _ => if truthy (sc_state c) then sc_state c else JNull
  end.

(** The sub-mode mutates the state object of the top link in place. *)
Definition setLocalState (v : jsval) (st : ITemplateState) : ITemplateState :=
  match stateContext st with
  | [] => st
  | c :: pre => set_stateContext ({| sc_mode := sc_mode c; sc_state := v |} :: pre) st
  end.

(** *** Token dispatcher (index.ts 290-392) *)

Definition syncState (arena : patId -> IPattern) (st : ITemplateState)
    (stream : StringStream) (layer : ILayer) : outcome ITemplateState :=
  if l_open layer && truthy (mode (arena (l_nextPattern layer))) then
    Done (pushStateContext st (mode (arena (l_nextPattern layer))) stream)
  else if negb (l_open layer) && truthy (mode (arena (l_prePattern layer))) then
    popStateContext st
  else Done st.

(** [layers && layers[0]] *)
Definition firstLayer (st : ITemplateState) : option ILayer :=
  match layers st with
  | Some (layer :: _) => Some layer
  | _ => None
  end.

(** [layers.shift()] *)
Definition shiftLayers (st : ITemplateState) : ITemplateState :=
  match layers st with
  | Some (_ :: rest) => set_layers (Some rest) st
  | _ => st
  end.

Definition newlineAtEol (stream : StringStream) (st : ITemplateState) : ITemplateState :=
  if eol stream then set_textBefore (textBefore st +:+ String (ascii_of_nat 10) "") st
  else st.

Definition Token : Type := option string * StringStream * ITemplateState.

Definition tokenPattern (arena : patId -> IPattern) (stream : StringStream)
    (st : ITemplateState) : outcome Token :=
  match firstLayer st with
  | None => Throws Impossible
  | Some layer =>
      let pattern := if l_open layer then l_nextPattern layer else l_prePattern layer in
      match patternStyles (arena pattern) with
      | None => Throws Impossible
      | Some (openStyle, closeStyle) =>
          if negb (ss_pos stream =? l_pos layer) then Throws Impossible
          else
            let st := set_useRoot true st in
            let stream := set_pos (l_pos layer + matchedLength (l_matched layer)) stream in
            let* st := syncState arena st stream layer in
            let st := shiftLayers st in
            let st := newlineAtEol stream st in
            Done (if l_open layer then openStyle else closeStyle, stream, st)
      end
  end.

Definition tokenUntil (arena : patId -> IPattern) (stream : StringStream)
    (st : ITemplateState) (until : Z) (shift syncStateWhenReach : bool)
    : outcome Token :=
  let localMode := getLocalMode st in
  let localState := getLocalState st in
  let '(style, stream, st) :=
    match localMode ≫= modeToken with
    | Some token =>
        let '(style, stream, localState) := token stream localState in
        let st := setLocalState localState st in
        (style,
         if until <? ss_pos stream then backUp (ss_pos stream - until) stream
         else stream, st)
    | None => (None, set_pos until stream, st)
    end in
  let* st :=
    match firstLayer st with
    | Some layer =>
        if ss_pos stream =? until then
          let* st := if syncStateWhenReach then syncState arena st stream layer
                     else Done st in
          Done (if shift then shiftLayers st else st)
        else Done st
    | None => Done st
    end in
  Done (style, stream, newlineAtEol stream st).

(** The part of [token] after the layers of the line are known
    (index.ts 357-391). *)
Definition dispatch (arena : patId -> IPattern) (stream : StringStream)
    (st : ITemplateState) : outcome Token :=
  match firstLayer st with
  | Some layer =>
      let end_ := l_pos layer + matchedLength (l_matched layer) in
      if ss_start stream <? l_pos layer then
        tokenUntil arena stream st (l_pos layer) false false
      else if ss_start stream =? l_pos layer then
        let pattern := if l_open layer then l_nextPattern layer else l_prePattern layer in
        match patternStyles (arena pattern) with
        | Some _ => tokenPattern arena stream st
        | None =>
            let includes := match includePattern (arena pattern) with
                            | Some b => b
                            | None => false
                            end in
            if l_open layer && includes then
              let st := if truthy (mode (arena (l_nextPattern layer)))
                        then pushStateContext st (mode (arena (l_nextPattern layer))) stream
                        else st in
              tokenUntil arena stream st end_ true false
            else if negb (l_open layer) && negb includes then
              let* st := if truthy (mode (arena (l_prePattern layer)))
                         then popStateContext st
                         else Done st in
              tokenUntil arena stream st end_ true false
            else tokenUntil arena stream st end_ true true
        end
      else if ss_start stream <? end_ then
        tokenUntil arena stream st end_ true true
      else Throws Impossible
  | None =>
      match getLocalMode st ≫= modeToken with
      | Some token =>
          let '(style, stream, localState) := token stream (getLocalState st) in
          Done (style, stream, setLocalState localState st)
      | None => Done (None, set_pos (strlen (ss_string stream)) stream, st)
      end
  end.

(** The first statement of [token] (index.ts 352-356): the layers of the
    line are computed when the line starts. *)
Definition scanLine (fuel : nat) (parserConfig : ITemplateOptions)
    (stream : StringStream) (st : ITemplateState) : outcome ITemplateState :=
  if negb (start st) || sol stream then
    let st := set_useRoot false (set_start true st) in
    let* (layers, st) :=
      createLayers fuel parserConfig st (ss_string stream) (ss_start stream) in
    Done (set_layers (Some layers) st)
  else Done st.

Definition token (fuel : nat) (parserConfig : ITemplateOptions)
    (stream : StringStream) (st : ITemplateState) : outcome Token :=
  let* st := scanLine fuel parserConfig stream st in
  dispatch (arena parserConfig) stream st.

(** ** The mode constructor and the preset grammar (index.ts 432-590) *)

(** [REG_SPACE.test(s)] with [REG_SPACE = /^\s*$/] *)
Definition REG_SPACE_test (s : string) : bool :=
  match regExpMatch "^\s*$" "" 0 s with
  | Some _ => true
  | None => false
  end.

(** The one-character string of the double quotation mark. *)
Definition quotationMark : string := String (ascii_of_nat 34) "".

Definition leaf (open close escape : string) : IPattern :=
  {| mode := JNull; open := Some (PString open); close := Some (PString close);
     escape := if String.eqb escape "" then None else Some (PString escape);
     children := None; includePattern := None; patternStyles := None |}.

(** Identifiers of the objects that [createDefaultOptions] allocates; [0] is
    the options object itself. *)
Definition singleQuote : patId := 1%nat.
Definition doubleQuote : patId := 2%nat.
Definition parenthesis : patId := 3%nat.
Definition bracket : patId := 4%nat.
Definition brace : patId := 5%nat.
Definition code : patId := 6%nat.
Definition templateHeader : patId := 7%nat.
Definition template : patId := 8%nat.

Definition defaultChildren : list patId :=
  [singleQuote; doubleQuote; parenthesis; bracket; brace].

Definition withChildren (c : list patId) (p : IPattern) : IPattern :=
  {| mode := mode p; open := open p; close := close p; escape := escape p;
     children := Some c; includePattern := includePattern p;
     patternStyles := patternStyles p |}.

Definition templateOpen (text : string) (from : Z) (st : ITemplateState)
    : Z * option string :=
  let pos := indexOf text "[" from in
  let pos :=
    if negb (isTrue (customs st !! "justExitTemplate"))
       || ((0 <=? pos)
           && negb (REG_SPACE_test (textBefore st +:+ slice text from (Some pos))))
    then -1 else pos in
  if 0 <=? pos then (pos, Some "[") else (-1, None).

Definition emptyPattern : IPattern :=
  {| mode := JUndefined; open := None; close := None; escape := None;
     children := None; includePattern := None; patternStyles := None |}.

Definition defaultArena (baseMode codeMode : jsval) (id : patId) : IPattern :=
  match id with
  | 0%nat =>
      {| mode := baseMode; open := None; close := None; escape := None;
         children := Some [singleQuote; doubleQuote; code; templateHeader; template];
         includePattern := None; patternStyles := None |}
  | 1%nat => leaf "'" "'" "\"
  | 2%nat => leaf quotationMark quotationMark "\"
  | 3%nat => withChildren defaultChildren (leaf "(" ")" "")
  | 4%nat => withChildren defaultChildren (leaf "[" "]" "")
  | 5%nat => withChildren defaultChildren (leaf "{" "}" "")
  | 6%nat =>
      {| mode := codeMode;
         open := Some (PRegExp {| source := "#{\s*:?"; flags := ""; lastIndex := 0 |});
         close := Some (PString "}"); escape := None;
         children := Some defaultChildren; includePattern := None;
         patternStyles := Some (Some "bracket cxj-code open",
                                Some "bracket cxj-code close") |}
  | 7%nat =>
      {| mode := JStr "cxj-template-flag";
         open := Some (PString "#["); close := Some (PString "]"); escape := None;
         children := None; includePattern := None;
         patternStyles := Some (Some "bracket cxj-template cxj-template-flag open",
                                Some "bracket cxj-template cxj-template-flag close") |}
  | 8%nat =>
      {| mode := baseMode;
         open := Some (PFunction templateOpen); close := Some (PString "]");
         escape := None; children := Some (code :: defaultChildren);
         includePattern := None;
         patternStyles := Some (Some "bracket cxj-template open",
                                Some "bracket cxj-template close") |}
  | _ => emptyPattern
  end.

Definition defaultAfterExit : Callback := fun st info =>
  match i_pattern info with
  | Some pattern =>
      if (pattern =? template)%nat || (pattern =? templateHeader)%nat
      then set_customs (<["justExitTemplate" := JBool true]> (customs st)) st
      else st
  | None => st
  end.

Definition defaultBeforeEnter : Callback := fun st _ =>
  set_customs (<["justExitTemplate" := JBool false]> (customs st)) st.

Definition createDefaultOptions (baseMode codeMode : jsval) : ITemplateOptions :=
  {| arena := defaultArena baseMode codeMode; self := 0%nat; codeMode := codeMode;
     beforeEnter := Some defaultBeforeEnter; afterEnter := None;
     beforeExit := None; afterExit := Some defaultAfterExit |}.

(** [finalParserConfig]: the defaults overridden by the integrator's options
    except [mode], [codeMode], [open] and [close], which are taken off before
    the merge; the default [beforeEnter] and [afterExit] run before the
    integrator's.  The integrator's own patterns keep their identifiers, which
    lie above those of the preset. *)
Definition finalParserConfig (parserConfig : ITemplateOptions) : ITemplateOptions :=
  let user := arena parserConfig (self parserConfig) in
  let baseMode := mode user in
  let defaultOptions := createDefaultOptions baseMode (codeMode parserConfig) in
  let root :=
    {| mode := baseMode; open := None; close := None; escape := escape user;
       children := match children user with
                   | Some c => Some c
                   | None => children (arena defaultOptions 0%nat)
                   end;
       includePattern := includePattern user;
       patternStyles := patternStyles user |} in
  {| arena := fun id => if (id =? 0)%nat then root
                        else if (id <=? template)%nat then arena defaultOptions id
                        else arena parserConfig id;
     self := 0%nat;
     codeMode := codeMode parserConfig;
     beforeEnter := Some (fun st info =>
       callHook (beforeEnter parserConfig) (callHook (beforeEnter defaultOptions) st info) info);
     afterEnter := afterEnter parserConfig;
     beforeExit := beforeExit parserConfig;
     afterExit := Some (fun st info =>
       callHook (afterExit parserConfig) (callHook (afterExit defaultOptions) st info) info) |}.

Definition startState (parserConfig : ITemplateOptions) : ITemplateState :=
  let final := finalParserConfig parserConfig in
  let baseMode := mode (arena final (self final)) in
  {| textBefore := "";
     patternContext := [self final];
     stateContext := if truthy baseMode
                     then [{| sc_mode := baseMode; sc_state := modeStartState baseMode None |}]
                     else [];
     useRoot := false; start := false; layers := None;
     regExpCache := ∅; customs := ∅ |}.

End Dispatcher.

(** ** Running the preset grammar *)

(** A host whose sub-modes have no tokenizer: text between layers is skipped
    unstyled. *)
Definition plainHost : Host :=
  {| modeToken := fun _ => None;
     modeStartState := fun _ _ => JBool true;
     modeCopyState := fun _ s => s;
     indentation := fun _ => 0 |}.

(** The options of the demonstration page: [{ mode: 'sql', codeMode: 'groovy' }]. *)
Definition demoOptions : ITemplateOptions :=
  {| arena := fun _ =>
       {| mode := JStr "sql"; open := None; close := None; escape := None;
          children := None; includePattern := None; patternStyles := None |};
     self := 0%nat; codeMode := JStr "groovy";
     beforeEnter := None; afterEnter := None; beforeExit := None; afterExit := None |}.

Definition demoConfig : ITemplateOptions :=
  @finalParserConfig miniEngine demoOptions.

Definition demoStart : ITemplateState :=
  @startState miniEngine plainHost demoOptions.

(** The stream at the start of a line. *)
Definition streamOf (line : string) : StringStream :=
  {| ss_string := line; ss_pos := 0; ss_start := 0; ss_lineStart := 0 |}.

(** The transitions of a layer list as (position, matched text, opening). *)
Definition summary (r : outcome (list ILayer * ITemplateState))
    : option (list (Z * option string * bool) * list patId) :=
  match r with
  | Done (ls, st) =>
      Some (map (fun l => (l_pos l, l_matched l, l_open l)) ls, patternContext st)
  | _ => None
  end.

(** ** Specification vocabulary for the scanner *)

(** A candidate opening: the child and what the escape-aware match of its
    opener returned. *)
Abbreviation Opening := (patId * Z * option string)%type.

(** [pat] occurs in [line] at index [k]. *)
Definition occursAt (line pat : string) (k : Z) : Prop :=
  0 <= k /\ String.substring (Z.to_nat k) (String.length pat) line = pat.

(** The text of [line] before index [k] ends with the literal escape
    (an absent or empty escape never escapes). *)
Definition escapedLit (line : string) (escape : option string) (k : Z) : bool :=
  match escape with
  | Some E => negb (String.eqb E "") && endsWith line E k
  | None => false
  end.

Section ScannerSpec.

Context {engine : RegExpEngine}.

(** [children] of a pattern, an absent array being iterated zero times. *)
Definition childList (p : IPattern) : list patId := default [] (children p).

(** What the openers of [children] return when they are tried in declaration
    order with the escape spec [escape] (children without an opener are
    skipped), threading the state as the loop of [createLayers] does. *)
Fixpoint openerMatches (fuel : nat) (arena : patId -> IPattern) (line : string)
    (offset : Z) (escape : option PatternLike) (children : list patId)
    (st : ITemplateState) : outcome (list Opening * ITemplateState) :=
  match children with
  | [] => Done ([], st)
  | child :: children =>
      match present (open (arena child)) with
      | None => openerMatches fuel arena line offset escape children st
      | Some open =>
          let* (tmpPos, tmpMatched, st) :=
            matchWithEscape fuel line offset open escape st in
          let* (rest, st) := openerMatches fuel arena line offset escape children st in
          Done ((child, tmpPos, tmpMatched) :: rest, st)
      end
  end.

(** The body of the loop over the children, on one candidate. *)
Definition adopt (s : Search) (o : Opening) : Search :=
  let '(child, tmpPos, tmpMatched) := o in
  if (0 <=? tmpPos) && ((pos s =? -1) || (tmpPos <? pos s)) then
    {| found := PUSH; pos := tmpPos; matched := tmpMatched; nextPattern := child |}
  else s.

End ScannerSpec.

(** The literal spec [spec] has no occurrence from [offset] on that is not
    escaped by the literal escape; an absent (or empty) spec is never tried. *)
Definition exhausted (line : string) (offset : Z) (escape : option string)
    (spec : option PatternLike) : Prop :=
  match present spec with
  | None => True
  | Some (PString pat) =>
      forall k, offset <= k -> occursAt line pat k -> escapedLit line escape k = true
  | Some _ => False
  end.

(** ** Example grammars and states *)

(** A state as [startState] builds it, inside the patterns [context]. *)
Definition stateIn (context : list patId) : ITemplateState :=
  {| textBefore := ""; patternContext := context; stateContext := [];
     useRoot := false; start := false; layers := None;
     regExpCache := ∅; customs := ∅ |}.

Definition region (open close : string) (children : option (list patId)) : IPattern :=
  {| mode := JNull; open := Some (PString open); close := Some (PString close);
     escape := None; children := children; includePattern := None;
     patternStyles := None |}.

(** A bracketed region whose two children open on the text of its closer. *)
Definition tieArena (id : patId) : IPattern :=
  match id with
  | 0%nat => withChildren [1%nat] emptyPattern
  | 1%nat => region "[" "]" (Some [2%nat; 3%nat])
  | 2%nat => region "]]" "[[" None
  | 3%nat => region "]" "[" None
  | _ => emptyPattern
  end.

Definition noHooks (arena : patId -> IPattern) : ITemplateOptions :=
  {| arena := arena; self := 0%nat; codeMode := JNull;
     beforeEnter := None; afterEnter := None; beforeExit := None; afterExit := None |}.

(** ** Vocabulary for the invariants *)

(** Two states agree on every field but [regExpCache]. *)
Definition sameButCache (a b : ITemplateState) : Prop :=
  set_regExpCache ∅ a = set_regExpCache ∅ b.

(** A call does not throw, and [P] holds of the value when it returns. *)
Definition returns {A : Type} (P : A -> Prop) (r : outcome A) : Prop :=
  match r with
  | Done a => P a
  | Throws _ => False
  | Timeout => True
  end.

(** A hook leaves the pattern-context stack alone. *)
Definition keepsContext (hook : option Callback) : Prop :=
  forall st info, patternContext (callHook hook st info) = patternContext st.

Definition hooksKeepContext (cfg : ITemplateOptions) : Prop :=
  keepsContext (beforeEnter cfg) /\ keepsContext (afterEnter cfg) /\
  keepsContext (beforeExit cfg) /\ keepsContext (afterExit cfg).

(** The bottom link of the stack is the root pattern of [cfg], which has no
    closer. *)
Definition rooted (cfg : ITemplateOptions) (st : ITemplateState) : Prop :=
  present (close (arena cfg (self cfg))) = None /\
  exists upper : list patId, patternContext st = (upper ++ [self cfg])%list.

Section Reachable.

Context {engine : RegExpEngine} {host : Host}.

(** The states that a document can be in: the initial state, and the state
    after a scan of a line or after a call of the tokenizer. *)
Inductive reachable (parserConfig : ITemplateOptions) : ITemplateState -> Prop :=
  | reach_start : reachable parserConfig (startState parserConfig)
  | reach_createLayers st fuel line offset layers st' :
      reachable parserConfig st ->
      createLayers fuel (finalParserConfig parserConfig) st line offset
      = Done (layers, st') ->
      reachable parserConfig st'
  | reach_token st fuel stream style stream' st' :
      reachable parserConfig st ->
      token fuel (finalParserConfig parserConfig) stream st
      = Done (style, stream', st') ->
      reachable parserConfig st'.

End Reachable.

(** A grammar all of whose specs are literal strings (or absent): every
    match has the length of its literal. *)
Definition literalSpec (spec : option PatternLike) : Prop :=
  match spec with
  | Some (PString _) | None => True
  | Some _ => False
  end.

Definition literalGrammar (arena : patId -> IPattern) : Prop :=
  forall id, literalSpec (open (arena id)) /\ literalSpec (close (arena id)) /\
             literalSpec (escape (arena id)).

(** The transition that a search has found, if any, lies at or after the
    offset and has matched text of positive length within the line. *)
Definition advances (line : string) (offset : Z) (s : Search) : Prop :=
  found s = NoneFound \/
  (offset <= pos s /\ 0 < matchedLength (matched s) /\
   pos s + matchedLength (matched s) <= strlen line).

(** A grammar with an opener of width zero: the callback opens at the very
    position it is asked about and reports no text, and the pattern may nest
    in itself. *)
Definition openHere (text : string) (from : Z) (st : ITemplateState)
    : Z * option string := (from, None).

Definition marker : patId := 9%nat.

Definition markerArena (id : patId) : IPattern :=
  match id with
  | 0%nat => withChildren [marker] emptyPattern
  | 9%nat =>
      {| mode := JNull; open := Some (PFunction openHere); close := None;
         escape := None; children := Some [marker]; includePattern := None;
         patternStyles := None |}
  | _ => emptyPattern
  end.

Definition markerOptions : ITemplateOptions := noHooks markerArena.

Definition markerConfig {engine : RegExpEngine} : ITemplateOptions :=
  finalParserConfig markerOptions.

(** What the search finds in the marker grammar. *)
Definition markerFound : Search :=
  {| found := PUSH; pos := 0; matched := None; nextPattern := marker |}.

(** The preset grammar with an escape spec of its own given to the bracket
    pattern. *)
Definition escapingBracket (arena : patId -> IPattern) (id : patId) : IPattern :=
  if (id =? bracket)%nat then
    {| mode := mode (arena id); open := open (arena id); close := close (arena id);
       escape := Some (PString "a"); children := children (arena id);
       includePattern := includePattern (arena id);
       patternStyles := patternStyles (arena id) |}
  else arena id.

(** ** Vocabulary for the regular-expression cache *)

(** The flag characters of a JavaScript regular expression. *)
Definition flagChar (c : ascii) : bool :=
  match c with
  | "d"%char | "g"%char | "i"%char | "m"%char
  | "s"%char | "u"%char | "v"%char | "y"%char => true
  | _ => false
  end.

Fixpoint validFlags (flags : string) : bool :=
  match flags with
  | EmptyString => true
  | String c flags => flagChar c && validFlags flags
  end.

(** The text after the last occurrence of [c], when [c] occurs. *)
Fixpoint afterLast (c : ascii) (s : string) : option string :=
  match s with
  | EmptyString => None
  | String a s' =>
      match afterLast c s' with
      | Some t => Some t
      | None => if Ascii.eqb a c then Some s' else None
      end
  end.

(** Every entry of the cache lives under the key of its own source and
    flags. *)
Definition coherent (cache : gmap string RegExp) : Prop :=
  forall key r, cache !! key = Some r ->
    key = cacheKey (source r) (flags r) /\ validFlags (flags r) = true.

Definition wfSpec (spec : option PatternLike) : Prop :=
  match spec with
  | Some (PRegExp r) => validFlags (flags r) = true
  | _ => True
  end.

(** A callback spec that does not read [state.regExpCache]. *)
Definition blindSpec (spec : option PatternLike) : Prop :=
  match spec with
  | Some (PFunction f) =>
      forall text from a b, sameButCache a b -> f text from a = f text from b
  | _ => True
  end.

(** A hook that neither reads nor writes [state.regExpCache]. *)
Definition blindHook (hook : option Callback) : Prop :=
  forall a b info,
    sameButCache a b ->
    sameButCache (callHook hook a info) (callHook hook b info) /\
    regExpCache (callHook hook a info) = regExpCache a.

(** The grammar that a scan of [cfg] can run: regular expressions carry
    flags of JavaScript, and callbacks and hooks leave the cache alone. *)
Definition specsBlind (arena : patId -> IPattern) : Prop :=
  forall id, let p := arena id in
    (wfSpec (open p) /\ wfSpec (close p) /\ wfSpec (escape p)) /\
    (blindSpec (open p) /\ blindSpec (close p) /\ blindSpec (escape p)).

Definition cacheBlind (cfg : ITemplateOptions) : Prop :=
  specsBlind (arena cfg) /\
  blindHook (beforeEnter cfg) /\ blindHook (afterEnter cfg) /\
  blindHook (beforeExit cfg) /\ blindHook (afterExit cfg).

(** Two runs end the same way, with the same value and with states that
    differ at most in the cache. *)
Definition sameRun {X : Type} (r1 r2 : outcome (X * ITemplateState)) : Prop :=
  match r1, r2 with
  | Done (x1, a), Done (x2, b) => x1 = x2 /\ sameButCache a b
  | Throws e1, Throws e2 => e1 = e2
  | Timeout, Timeout => True
  | _, _ => False
  end.

(** Two states that differ at most in the cache, with coherent caches. *)
Definition paired (a b : ITemplateState) : Prop :=
  sameButCache a b /\ coherent (regExpCache a) /\ coherent (regExpCache b).

(** The states [a'] and [b'] are what two runs of the same code make of the
    states [a] and [b]: they differ at most in the cache, both caches are
    coherent, and both runs have written the same entries [W]. *)
Definition stepped (a b a' b' : ITemplateState) : Prop :=
  sameButCache a' b' /\ coherent (regExpCache a') /\ coherent (regExpCache b') /\
  exists W : gmap string RegExp,
    regExpCache a' = W ∪ regExpCache a /\ regExpCache b' = W ∪ regExpCache b.

Definition simulates {X : Type} (a b : ITemplateState)
    (r1 r2 : outcome (X * ITemplateState)) : Prop :=
  match r1, r2 with
  | Done (x1, a'), Done (x2, b') => x1 = x2 /\ stepped a b a' b'
  | Throws e1, Throws e2 => e1 = e2
  | Timeout, Timeout => True
  | _, _ => False
  end.

(** An update of the state that neither reads nor writes the cache. *)
Definition quiet (f : ITemplateState -> ITemplateState) : Prop :=
  forall a b, sameButCache a b ->
    sameButCache (f a) (f b) /\ regExpCache (f a) = regExpCache a /\
    regExpCache (f b) = regExpCache b.

(** ** The state as an object graph (index.ts 394-411, 482-490)

    [copyState] is about sharing: the state object, the links of the two
    stacks, the sub-mode states, the layer array and [customs] are mutable
    objects, and two states may or may not point to the same ones.  Here the
    objects live in a heap and the fields that hold objects hold locations.
    Patterns stay identifiers into the arena: a copy of a link holds the same
    identifier, that is, the same pattern object. *)
Module Heap.

Definition loc := positive.

(** [ITemplateState] *)
Record StateObject : Type := {
  textBefore : string;
  patternContext : option loc;       (* IPatternContext, null for None *)
  stateContext : option loc;         (* IStateContext | null *)
  useRoot : bool;
  start : bool;
  layers : option loc;               (* ILayer[] | undefined *)
  regExpCache : loc;
  customs : loc;
}.

Inductive object : Type :=
  | OPatternContext (pre : option loc) (pattern : patId)
  | OStateContext (pre : option loc) (mode : jsval) (state : loc)
  | OModeState (v : jsval)           (* the state object of a sub-mode *)
  | OCustoms (entries : gmap string jsval)
  | OLayers (l : list ILayer)
  | ORegExpCache (cache : gmap string RegExp)
  | OState (s : StateObject).

Abbreviation heap := (gmap loc object).

(** A new object. *)
Definition alloc (o : object) (h : heap) : loc * heap :=
  let l := fresh (dom h) in (l, <[l := o]> h).

Section Copy.

Context {host : Host}.

(** Recursion along the links is bounded by [fuel]; a location that holds
    no link is a type error. *)
Fixpoint copyPatternContext (fuel : nat) (context : option loc) (h : heap)
    : outcome (option loc * heap) :=
  match context with
  | None => Done (None, h)
  | Some l =>
      match fuel with
      | O => Timeout
      | S fuel =>
          match h !! l with
          | Some (OPatternContext pre pattern) =>
              let* (pre', h) := copyPatternContext fuel pre h in
              let '(l', h) := alloc (OPatternContext pre' pattern) h in
              Done (Some l', h)
          | _ => Throws TypeError
          end
      end
  end.

(** [CodeMirror.copyState(context.mode, context.state)] returns the copy of
    the sub-mode's state as a new object. *)
Fixpoint copyStateContext (fuel : nat) (context : option loc) (h : heap)
    : outcome (option loc * heap) :=
  match context with
  | None => Done (None, h)
  | Some l =>
      match fuel with
      | O => Timeout
      | S fuel =>
          match h !! l with
          | Some (OStateContext pre mode state) =>
              let* (pre', h) := copyStateContext fuel pre h in
              match h !! state with
              | Some (OModeState v) =>
                  let '(state', h) := alloc (OModeState (modeCopyState mode v)) h in
                  let '(l', h) := alloc (OStateContext pre' mode state') h in
                  Done (Some l', h)
              | _ => Throws TypeError
              end
          | _ => Throws TypeError
          end
      end
  end.

(** Modelled from the spec: [cloneDeep] is the default export of the package
    [clonedeep] (index.ts 2, called at index.ts 488), which is not among the
    sources.  The spec has the custom scratch "deep-cloned on state clone"
    and "never aliased": the values of [customs] are trees here, so the
    clone is a new object with the same entries. *)
Definition cloneDeep (l : loc) (h : heap) : outcome (loc * heap) :=
  match h !! l with
  | Some (OCustoms entries) => Done (alloc (OCustoms entries) h)
  | _ => Throws TypeError
  end.

(** [[...state.layers || []]] *)
Definition spreadLayers (l : option loc) (h : heap) : list ILayer :=
  match l with
  | Some a => match h !! a with
              | Some (OLayers ls) => ls
              | _ => []
              end
  | None => []
  end.

Definition copyState (fuel : nat) (state : loc) (h : heap) : outcome (loc * heap) :=
  match h !! state with
  | Some (OState st) =>
      let '(layers', h) := alloc (OLayers (spreadLayers (layers st) h)) h in
      let* (patternContext', h) := copyPatternContext fuel (patternContext st) h in
      let* (stateContext', h) := copyStateContext fuel (stateContext st) h in
      let* (customs', h) := cloneDeep (customs st) h in
      Done (alloc (OState {| textBefore := textBefore st;
                             patternContext := patternContext';
                             stateContext := stateContext';
                             useRoot := useRoot st; start := start st;
                             layers := Some layers';
                             regExpCache := regExpCache st;
                             customs := customs' |}) h)
  | _ => Throws TypeError
  end.

End Copy.

(** *** What the tokenizer does to a state afterwards *)

Definition set_patternContext (c : option loc) (st : StateObject) : StateObject :=
  {| textBefore := textBefore st; patternContext := c;
     stateContext := stateContext st; useRoot := useRoot st; start := start st;
     layers := layers st; regExpCache := regExpCache st; customs := customs st |}.

Definition set_stateContext (c : option loc) (st : StateObject) : StateObject :=
  {| textBefore := textBefore st; patternContext := patternContext st;
     stateContext := c; useRoot := useRoot st; start := start st;
     layers := layers st; regExpCache := regExpCache st; customs := customs st |}.

(** The writes of the scanner and of the dispatcher to the two stacks, to
    [customs] (a hook's [state.customs[key] = v]) and to the state of the
    active sub-mode (the sub-mode's [token] writes to its state object). *)
Inductive write : Type :=
  | PushPattern (pattern : patId)
  | PopPattern
  | PushState (mode : jsval) (v : jsval)
  | PopState
  | SetCustom (key : string) (v : jsval)
  | SetLocalState (v : jsval).

Definition perform (state : loc) (w : write) (h : heap) : outcome heap :=
  match h !! state with
  | Some (OState st) =>
      match w with
      | PushPattern pattern =>
          let '(l, h) := alloc (OPatternContext (patternContext st) pattern) h in
          Done (<[state := OState (set_patternContext (Some l) st)]> h)
      | PopPattern =>
          match patternContext st ≫= (h !!.) with
          | Some (OPatternContext pre _) =>
              Done (<[state := OState (set_patternContext pre st)]> h)
          | _ => Throws TypeError
          end
      | PushState mode v =>
          let '(ls, h) := alloc (OModeState v) h in
          let '(l, h) := alloc (OStateContext (stateContext st) mode ls) h in
          Done (<[state := OState (set_stateContext (Some l) st)]> h)
      | PopState =>
          match stateContext st ≫= (h !!.) with
          | Some (OStateContext pre _ _) =>
              Done (<[state := OState (set_stateContext pre st)]> h)
          | _ => Throws TypeError
          end
      | SetCustom key v =>
          match h !! customs st with
          | Some (OCustoms entries) =>
              Done (<[customs st := OCustoms (<[key := v]> entries)]> h)
          | _ => Throws TypeError
          end
      | SetLocalState v =>
          match stateContext st ≫= (h !!.) with
          | Some (OStateContext _ _ ls) => Done (<[ls := OModeState v]> h)
          | _ => Done h
          end
      end
  | _ => Throws TypeError
  end.

(** A sequence of writes, each to the first ([true]) or to the second state. *)
Fixpoint performAll (s1 s2 : loc) (ws : list (bool * write)) (h : heap)
    : outcome heap :=
  match ws with
  | [] => Done h
  | (first, w) :: ws =>
      let* h := perform (if first : bool then s1 else s2) w h in
      performAll s1 s2 ws h
  end.

(** *** What a state denotes *)

(** The stacks and the scratch that a state object reaches. *)
Record View : Type := {
  v_patterns : list patId;
  v_modes : list (jsval * jsval);
  v_customs : gmap string jsval;
}.

(** [pstack h c F ps]: from [c] the links at the locations [F] hold the
    patterns [ps], top first. *)
Inductive pstack (h : heap) : option loc -> gset loc -> list patId -> Prop :=
  | pstack_nil : pstack h None ∅ []
  | pstack_cons l pre pattern F ps :
      h !! l = Some (OPatternContext pre pattern) ->
      pstack h pre F ps ->
      pstack h (Some l) ({[l]} ∪ F) (pattern :: ps).

(** The links and the sub-mode states of an embedded-mode stack are
    distinct objects. *)
Inductive sstack (h : heap) : option loc -> gset loc -> list (jsval * jsval) -> Prop :=
  | sstack_nil : sstack h None ∅ []
  | sstack_cons l pre mode ls v F ss :
      h !! l = Some (OStateContext pre mode ls) ->
      h !! ls = Some (OModeState v) ->
      l ∉ F -> ls ∉ F ->
      sstack h pre F ss ->
      sstack h (Some l) ({[l; ls]} ∪ F) ((mode, v) :: ss).

(** [owns h s F v]: the state object at [s] denotes [v], and [F] are the
    locations of the objects it is made of (the state object, the links, the
    sub-mode states and [customs]). *)
Definition owns (h : heap) (s : loc) (F : gset loc) (v : View) : Prop :=
  exists st Fp Fs,
    h !! s = Some (OState st) /\
    pstack h (patternContext st) Fp (v_patterns v) /\
    sstack h (stateContext st) Fs (v_modes v) /\
    h !! customs st = Some (OCustoms (v_customs v)) /\
    F = {[s; customs st]} ∪ Fp ∪ Fs.

(** The effect of a write on what its state denotes. *)
Definition written (w : write) (v : View) : View :=
  match w with
  | PushPattern pattern =>
      {| v_patterns := pattern :: v_patterns v; v_modes := v_modes v;
         v_customs := v_customs v |}
  | PopPattern =>
      {| v_patterns := tail (v_patterns v); v_modes := v_modes v;
         v_customs := v_customs v |}
  | PushState mode x =>
      {| v_patterns := v_patterns v; v_modes := (mode, x) :: v_modes v;
         v_customs := v_customs v |}
  | PopState =>
      {| v_patterns := v_patterns v; v_modes := tail (v_modes v);
         v_customs := v_customs v |}
  | SetCustom key x =>
      {| v_patterns := v_patterns v; v_modes := v_modes v;
         v_customs := <[key := x]> (v_customs v) |}
  | SetLocalState x =>
      {| v_patterns := v_patterns v;
         v_modes := match v_modes v with
                    | (mode, _) :: ss => (mode, x) :: ss
                    | [] => []
                    end;
         v_customs := v_customs v |}
  end.

(** The writes of [ws] that go to the first ([side = true]) or to the second
    state, applied in order. *)
Definition writtenAll (side : bool) (ws : list (bool * write)) (v : View) : View :=
  fold_left (fun v '(first, w) => if Bool.eqb first side then written w v else v) ws v.

(** The copy of an embedded-mode stack: each sub-mode state copied by its
    mode. *)
Definition copiedModes {host : Host} (ss : list (jsval * jsval)) : list (jsval * jsval) :=
  map (fun '(mode, v) => (mode, modeCopyState mode v)) ss.

(** The initial state of a document without a base mode, as objects: the
    state object, [customs], the cache and the link to the root pattern. *)
Definition initialHeap : heap :=
  <[1%positive := OState {| textBefore := ""; patternContext := Some 4%positive;
                            stateContext := None; useRoot := false; start := false;
                            layers := None; regExpCache := 3%positive;
                            customs := 2%positive |}]>
  (<[2%positive := OCustoms ∅]>
  (<[3%positive := ORegExpCache ∅]>
  (<[4%positive := OPatternContext None 0%nat]> ∅))).

Definition initialView : View :=
  {| v_patterns := [0%nat]; v_modes := []; v_customs := ∅ |}.

End Heap.

(** ** Vocabulary for the layers of a line *)

(** The end of a layer: [pos + (matched ? matched.length : 0)]. *)
Definition layerEnd (l : ILayer) : Z := l_pos l + matchedLength (l_matched l).

(** The layers lie in [line] from [offset] on, in order and without overlap,
    and each of them covers at least one character. *)
Fixpoint placed (line : string) (offset : Z) (ls : list ILayer) : bool :=
  match ls with
  | [] => true
  | l :: ls =>
      (offset <=? l_pos l) && (0 <? matchedLength (l_matched l))
      && (layerEnd l <=? strlen line) && placed line (layerEnd l) ls
  end.

(** The end of the last layer, or [offset] when there is none: the offset at
    which the scan loop stands after these layers. *)
Definition lastEnd (offset : Z) (ls : list ILayer) : Z :=
  fold_left (fun _ l => layerEnd l) ls offset.

(** The pattern stack after the transitions of [ls], read off the layers
    alone: a layer leaves the pattern on top of the stack ([prePattern]); an
    opening layer puts [nextPattern] on top, a closing layer takes the top
    off and finds [nextPattern] below it.  [None] when the layers do not fit
    the stack. *)
Fixpoint replay (context : list patId) (ls : list ILayer) : option (list patId) :=
  match ls with
  | [] => Some context
  | l :: ls =>
      match context with
      | [] => None
      | P :: pre =>
          if negb (P =? l_prePattern l)%nat then None
          else if l_open l then replay (l_nextPattern l :: context) ls
          else match pre with
               | Q :: _ => if (Q =? l_nextPattern l)%nat then replay pre ls else None
               | [] => None
               end
      end
  end.

(** Opening layers minus closing layers. *)
Definition balance (ls : list ILayer) : Z :=
  fold_right (fun l n => (if l_open l then 1 else -1) + n) 0 ls.

(** [child] is one of [parent.children]. *)
Definition hasChild (arena : patId -> IPattern) (parent child : patId) : bool :=
  existsb (Nat.eqb child) (childList (arena parent)).

(** Every link of the stack holds a child of the pattern of the link below
    it: the stack is a path of the grammar. *)
Fixpoint chain (arena : patId -> IPattern) (context : list patId) : bool :=
  match context with
  | P :: pre =>
      match pre with
      | Q :: _ => hasChild arena Q P && chain arena pre
      | [] => true
      end
  | [] => true
  end.

(** The literal of a literal spec. *)
Definition literalOf (spec : option PatternLike) : option string :=
  match spec with
  | Some (PString s) => Some s
  | _ => None
  end.

(** The layer sits on an occurrence of its delimiter that is not escaped:
    the delimiter is the opener of the pattern that the layer enters or the
    closer of the pattern that it leaves, and the escape is that of the
    pattern that it leaves. *)
Definition onDelimiter (arena : patId -> IPattern) (line : string) (l : ILayer) : Prop :=
  exists pat,
    l_matched l = Some pat /\
    present (if l_open l then open (arena (l_nextPattern l))
             else close (arena (l_prePattern l))) = Some (PString pat) /\
    occursAt line pat (l_pos l) /\
    escapedLit line (literalOf (escape (arena (l_prePattern l)))) (l_pos l) = false.

(** The same of the transition that a search inside the pattern [P] has
    found. *)
Definition foundOn (arena : patId -> IPattern) (line : string) (P : patId)
    (s : Search) : Prop :=
  match found s with
  | NoneFound => True
  | f =>
      exists pat,
        matched s = Some pat /\
        present (match f with
                 | PUSH => open (arena (nextPattern s))
                 | _ => close (arena P)
                 end) = Some (PString pat) /\
        occursAt line pat (pos s) /\
        escapedLit line (literalOf (escape (arena P))) (pos s) = false
  end.

(** Two occurrences of [pat] in [line] do not overlap. *)
Definition apart (line pat : string) : Prop :=
  forall i j, occursAt line pat i -> occursAt line pat j -> i < j ->
              i + strlen pat <= j.

(** A hook leaves the embedded-mode stack alone. *)
Definition keepsModes (hook : option Callback) : Prop :=
  forall st info, stateContext (callHook hook st info) = stateContext st.

Definition hooksKeepModes (cfg : ITemplateOptions) : Prop :=
  keepsModes (beforeEnter cfg) /\ keepsModes (afterEnter cfg) /\
  keepsModes (beforeExit cfg) /\ keepsModes (afterExit cfg).

(** A hook leaves [state.start] alone. *)
Definition keepsStart (hook : option Callback) : Prop :=
  forall st info, start (callHook hook st info) = start st.

Definition hooksKeepStart (cfg : ITemplateOptions) : Prop :=
  keepsStart (beforeEnter cfg) /\ keepsStart (afterEnter cfg) /\
  keepsStart (beforeExit cfg) /\ keepsStart (afterExit cfg).

(** ** Grammars whose matches advance *)

(** Every match that a forward search for [pattern] reports, from a position
    that is not negative, lies at or after that position, within the line,
    and has at least one character. *)
Definition productiveMatch {engine : RegExpEngine} (pattern : PatternLike) : Prop :=
  forall line position st,
    coherent (regExpCache st) -> 0 <= position ->
    let r := (match_ line position DEFAULT pattern st).1 in
    r.1 = -1 \/
    (position <= r.1 /\ 0 < matchedLength r.2 /\ r.1 + matchedLength r.2 <= strlen line).

Definition productiveSpec {engine : RegExpEngine} (spec : option PatternLike) : Prop :=
  match present spec with
  | Some pattern => productiveMatch pattern
  | None => True
  end.

(** The openers and the closers of the grammar advance. *)
Definition productive {engine : RegExpEngine} (arena : patId -> IPattern) : Prop :=
  forall id, productiveSpec (open (arena id)) /\ productiveSpec (close (arena id)).

(** What the scanner needs of the engine: a match lies at or after the index
    where the search starts and within the input. *)
Definition boundedEngine {engine : RegExpEngine} : Prop :=
  forall source flags from input i m,
    0 <= from <= strlen input ->
    regExpMatch source flags from input = Some (i, m) ->
    from <= i /\ i + strlen m <= strlen input.

(** The expression [source] matches no empty text. *)
Definition nonEmptyMatches {engine : RegExpEngine} (source : string) : Prop :=
  forall flags from input i m,
    regExpMatch source flags from input = Some (i, m) -> 0 < strlen m.

(** The source of the opener of the preset's code pattern. *)
Definition codeOpener : string := "#{\s*:?".

(** The side of the source that [start] names carries its anchor. *)
Definition anchored (source : string) (start : bool) : bool :=
  if start then startsWith source "^" else endsWith source "$" (strlen source).

(** ** Vocabulary for the host *)

(** The tokenizers of the sub-modes consume at least one character when the
    stream is not at the end of the line (CodeMirror rejects a mode that does
    not). *)
Definition advancing {host : Host} : Prop :=
  forall mode tok stream s,
    modeToken mode = Some tok ->
    ss_pos stream < strlen (ss_string stream) ->
    ss_pos stream < ss_pos (tok stream s).1.2.

(** The fields of the state that are not the dispatcher's: the pattern
    stack, [customs], the cache of expressions and [start]. *)
Definition dispatcherFrame (a b : ITemplateState) : Prop :=
  patternContext a = patternContext b /\ customs a = customs b /\
  regExpCache a = regExpCache b /\ start a = start b.

(** The tokenizers of the sub-modes change nothing of the stream but the
    position. *)
Definition cursorOnly {host : Host} : Prop :=
  forall mode tok stream s,
    modeToken mode = Some tok -> exists p, (tok stream s).1.2 = set_pos p stream.

(** The pending layers lie ahead of the cursor [c]: the delimiter of the
    first one ends after it, and the layers are placed in the line. *)
Definition ahead (line : string) (c : Z) (ls : list ILayer) : bool :=
  match ls with
  | [] => true
  | l :: ls =>
      (c <? layerEnd l) && (0 <? matchedLength (l_matched l))
      && (layerEnd l <=? strlen line) && placed line (layerEnd l) ls
  end.

(** The texts of the tokens, one after the other. *)
Definition joined (texts : list string) : string := fold_right append "" texts.

(** [stream.start = stream.pos]: the host starts the next token where the
    last one ended. *)
Definition startAt (p : Z) (stream : StringStream) : StringStream :=
  {| ss_string := ss_string stream; ss_pos := ss_pos stream; ss_start := p;
     ss_lineStart := ss_lineStart stream |}.

(** The stream and the state with which the host asks for the second token
    of a line. *)
Definition afterFirstToken {engine : RegExpEngine} {host : Host} (fuel : nat)
    (parserConfig : ITemplateOptions) (line : string) (st : ITemplateState)
    : option (StringStream * ITemplateState) :=
  match token fuel parserConfig (streamOf line) st with
  | Done (_, stream, st) => Some (startAt (ss_pos stream) stream, st)
  | _ => None
  end.

(** ** The flag sub-mode (index.ts 413-430)

    The tokenizer of [cxj-template-flag] uses these methods of CodeMirror's
    [StringStream]; the regular expressions are tests of one character. *)

(** [string.charAt(i)], the empty string being [None]. *)
Definition charAt (s : string) (i : Z) : option ascii :=
  if i <? 0 then None else String.get (Z.to_nat i) s.

(** [stream.eat(match)] for a character test. *)
Definition eat (test : ascii -> bool) (stream : StringStream)
    : option ascii * StringStream :=
  match charAt (ss_string stream) (ss_pos stream) with
  | Some ch =>
      if test ch then (Some ch, set_pos (ss_pos stream + 1) stream)
      else (None, stream)
  | None => (None, stream)
  end.

(** [while (this.eat(match)) {}]; [n] bounds the iterations. *)
Fixpoint eatWhile_loop (n : nat) (test : ascii -> bool) (stream : StringStream)
    : StringStream :=
  match n with
  | O => stream
  | S n =>
      match eat test stream with
      | (Some _, stream) => eatWhile_loop n test stream
      | (None, stream) => stream
      end
  end.

(** [stream.eatWhile(match)]: the loop eats at most the characters of the
    string. *)
Definition eatWhile (test : ascii -> bool) (stream : StringStream)
    : bool * StringStream :=
  let stream' := eatWhile_loop (String.length (ss_string stream)) test stream in
  (ss_pos stream <? ss_pos stream', stream').

(** [stream.eatSpace()]: the test is white space or a no-break space. *)
Definition eatSpace (stream : StringStream) : bool * StringStream :=
  eatWhile MiniRegExp.isSpace stream.

(** [stream.next()] *)
Definition next (stream : StringStream) : option ascii * StringStream :=
  if ss_pos stream <? strlen (ss_string stream)
  then (charAt (ss_string stream) (ss_pos stream), set_pos (ss_pos stream + 1) stream)
  else (None, stream).

(** [stream.current()] *)
Definition current (stream : StringStream) : string :=
  slice (ss_string stream) (ss_start stream) (Some (ss_pos stream)).

Definition FLAG_KEYWORDS : list string := ["if"].

(** [Array.prototype.indexOf] *)
Fixpoint arrayIndexOf (a : list string) (x : string) : Z :=
  match a with
  | [] => -1
  | y :: a =>
      if String.eqb y x then 0
      else let i := arrayIndexOf a x in if i <? 0 then -1 else i + 1
  end.

Definition flagKeywordStyle (matched : string) : string :=
  "keyword cxj-template-flag-keyword cxj-template-flag-keyword-" +:+ matched.

(** [token(stream)] of the flag mode; [REG_WORD] is [/\w/]. *)
Definition flagToken (stream : StringStream) : option string * StringStream :=
  let '(ate, stream) := eatSpace stream in
  if ate : bool then (None, stream)
  else
    let '(ate, stream) := eatWhile MiniRegExp.isWord stream in
    if ate : bool then
      let matched := current stream in
      let idx := arrayIndexOf FLAG_KEYWORDS matched in
      (if 0 <=? idx then Some (flagKeywordStyle matched) else None, stream)
    else (None, (next stream).2).

(** A host that knows the flag mode and no other tokenizer.  The flag mode
    has no [startState]: CodeMirror gives it the state [true]. *)
Definition flagHost : Host :=
  {| modeToken := fun mode =>
       match mode with
       | JStr name =>
           if String.eqb name "cxj-template-flag"
           then Some (fun stream s =>
                        let '(style, stream) := flagToken stream in (style, stream, s))
           else None
       | _ => None
       end;
     modeStartState := fun _ _ => JBool true;
     modeCopyState := fun _ s => s;
     indentation := fun _ => 0 |}.

(** The host's loop over a line: [token] is called until the end of the
    line, each call starting where the last one ended; the result lists the
    style and the text of every token.  [n] bounds the number of tokens. *)
Fixpoint tokenize {engine : RegExpEngine} {host : Host} (n fuel : nat)
    (parserConfig : ITemplateOptions) (stream : StringStream) (st : ITemplateState)
    : outcome (list (option string * string) * ITemplateState) :=
  match n with
  | O => Done ([], st)
  | S n =>
      if eol stream then Done ([], st)
      else
        let* (style, stream, st) := token fuel parserConfig stream st in
        let* (rest, st) :=
          tokenize n fuel parserConfig (startAt (ss_pos stream) stream) st in
        Done ((style, current stream) :: rest, st)
  end.

(** ** The iterations of the scan loop

    [scans cfg line offset matched0 st ls st']: the loop of [createLayers],
    entered at [offset] in the state [st], leaves through the condition or
    through [break] after the iterations that have recorded the layers [ls],
    in the state [st']. *)
Inductive scans {engine : RegExpEngine} (cfg : ITemplateOptions) (line : string)
    : Z -> option string -> ITemplateState -> list ILayer -> ITemplateState -> Prop :=
  | scans_end offset matched0 st :
      strlen line <= offset ->
      scans cfg line offset matched0 st [] st
  | scans_break fuel offset matched0 st P s st1 :
      offset < strlen line ->
      getCurrentPattern st = Done P ->
      search fuel (arena cfg) line offset P matched0 st = Done (s, st1) ->
      found s = NoneFound ->
      scans cfg line offset matched0 st []
        (set_textBefore (textBefore st1 +:+ slice line offset None) st1)
  | scans_step fuel offset matched0 st P s st1 layer st2 ls st' :
      offset < strlen line ->
      getCurrentPattern st = Done P ->
      search fuel (arena cfg) line offset P matched0 st = Done (s, st1) ->
      found s <> NoneFound ->
      transition cfg line offset P s st1 = Done (layer, st2) ->
      scans cfg line (pos s + matchedLength (matched s)) (matched s) st2 ls st' ->
      scans cfg line offset matched0 st (layer :: ls) st'.

(** The styles and the texts of the tokens of a run. *)
Definition tokensOf {A : Type} (r : outcome (list (option string * string) * A))
    : option (list (option string * string)) :=
  match r with
  | Done (tokens, _) => Some tokens
  | _ => None
  end.

(** A host whose tokenizers read one character at a time. *)
Definition charHost : Host :=
  {| modeToken := fun _ =>
       Some (fun stream s => (None, set_pos (ss_pos stream + 1) stream, s));
     modeStartState := fun _ _ => JBool true;
     modeCopyState := fun _ s => s;
     indentation := fun _ => 0 |}.

(** A grammar with one region whose delimiters belong to the sub-mode of the
    region ([includePattern]) and carry no style of their own. *)
Definition includedArena (id : patId) : IPattern :=
  match id with
  | 0%nat => withChildren [1%nat] emptyPattern
  | 1%nat =>
      {| mode := JStr "inner"; open := Some (PString "<%"); close := Some (PString "%>");
         escape := None; children := None; includePattern := Some true;
         patternStyles := None |}
  | _ => emptyPattern
  end.

(** The modes of the links of the embedded-mode stack, top first. *)
Definition modesOf (st : ITemplateState) : list jsval := map sc_mode (stateContext st).

(** ** The initial state as objects (index.ts 458-481)

    The factory of the mode builds [initialStateContext] once, and every call
    of [startState] puts that same link into the state it returns. *)

(** [initialStateContext]: a link with the state that the base mode starts
    in, or [null] for a template without a base mode. *)
Definition newInitialStateContext {host : Host} (baseMode : jsval) (h : Heap.heap)
    : option Heap.loc * Heap.heap :=
  if truthy baseMode then
    let '(ls, h) := Heap.alloc (Heap.OModeState (modeStartState baseMode None)) h in
    let '(l, h) := Heap.alloc (Heap.OStateContext None baseMode ls) h in
    (Some l, h)
  else (None, h).

(** [startState()]: the literals of the returned object are new objects;
    [stateContext] is the link that the factory has built. *)
Definition heapStartState (root : patId) (initialStateContext : option Heap.loc)
    (h : Heap.heap) : Heap.loc * Heap.heap :=
  let '(pc, h) := Heap.alloc (Heap.OPatternContext None root) h in
  let '(cache, h) := Heap.alloc (Heap.ORegExpCache ∅) h in
  let '(cu, h) := Heap.alloc (Heap.OCustoms ∅) h in
  Heap.alloc (Heap.OState {| Heap.textBefore := ""; Heap.patternContext := Some pc;
                             Heap.stateContext := initialStateContext;
                             Heap.useRoot := false; Heap.start := false;
                             Heap.layers := None; Heap.regExpCache := cache;
                             Heap.customs := cu |}) h.

(** What an initial state denotes when the sub-mode state of the base mode
    is [v]. *)
Definition startView (root : patId) (baseMode v : jsval) : Heap.View :=
  {| Heap.v_patterns := [root]; Heap.v_modes := [(baseMode, v)]; Heap.v_customs := ∅ |}.

(** ** Escaped matches (index.ts 188-201, 236-257) *)

(** Every match that a forward search for the spec reports from [offset] on
    is escaped, and each is a piece of the line of at least one character
    that starts at or after the position where the search began.  The
    searches are those of a scan that starts in the state [st0]: the state
    differs from [st0] in the cache at most.  A spec without a match has
    this property, and an absent spec is never searched for. *)
Definition allEscaped {engine : RegExpEngine} (line : string) (offset : Z)
    (st0 : ITemplateState) (escape spec : option PatternLike) : Prop :=
  match present spec with
  | None => True
  | Some pattern =>
      forall position st,
        offset <= position -> sameButCache st0 st -> coherent (regExpCache st) ->
        let r := match_ line position DEFAULT pattern st in
        r.1.1 = -1 \/
        (position <= r.1.1 /\ 0 < matchedLength r.1.2 /\
         r.1.1 + matchedLength r.1.2 <= strlen line /\
         (checkEscape r.2 line r.1.1 escape).1 = true)
  end.




(** ** A state in the middle of a document, as objects

    The stack holds the root and the pattern of a single-quoted string, one
    sub-mode is active, and a hook has written to [customs]. *)
Definition midHeap : Heap.heap :=
  <[1%positive := Heap.OState
      {| Heap.textBefore := "a"; Heap.patternContext := Some 5%positive;
         Heap.stateContext := Some 6%positive; Heap.useRoot := false;
         Heap.start := true; Heap.layers := None; Heap.regExpCache := 3%positive;
         Heap.customs := 2%positive |}]>
  (<[2%positive := Heap.OCustoms {["justExitTemplate" := JBool true]}]>
  (<[3%positive := Heap.ORegExpCache ∅]>
  (<[4%positive := Heap.OPatternContext None 0%nat]>
  (<[5%positive := Heap.OPatternContext (Some 4%positive) singleQuote]>
  (<[6%positive := Heap.OStateContext None (JStr "sql") 7%positive]>
  (<[7%positive := Heap.OModeState (JBool true)]> ∅)))))).

Definition midView : Heap.View :=
  {| Heap.v_patterns := [singleQuote; 0%nat];
     Heap.v_modes := [(JStr "sql", JBool true)];
     Heap.v_customs := {["justExitTemplate" := JBool true]} |}.

(** What the tokenizer goes on to do with the original ([true]) and with the
    copy ([false]): the original leaves the string and a hook clears its
    flag; the copy enters a pattern with a sub-mode of its own and that
    sub-mode writes to its state. *)
Definition midWrites : list (bool * Heap.write) :=
  [(true, Heap.PopPattern);
   (false, Heap.PushPattern code);
   (true, Heap.SetCustom "justExitTemplate" (JBool false));
   (false, Heap.PushState (JStr "js") (JBool true));
   (false, Heap.SetLocalState (JStr "x"));
   (true, Heap.PopState)].

(** * JavaScript string primitives *)

Section StringFacts.

Lemma length_append (a b : string) :
  String.length (a +:+ b) = (String.length a + String.length b)%nat.
Proof. induction a as [|c a IH]; simpl; [done | by rewrite IH]. Qed.

Lemma length_substring (n m : nat) (s : string) :
  String.length (String.substring n m s) = Nat.min m (String.length s - n).
Proof.
  revert n m. induction s as [|c s IH]; intros [|n] [|m]; simpl;
    rewrite ?IH, ?Nat.sub_0_r; done.
Qed.

Lemma substring_append_skip (a s : string) (m : nat) :
  String.substring (String.length a) m (a +:+ s) = String.substring 0 m s.
Proof. induction a as [|c a IH]; simpl; [done | apply IH]. Qed.

Lemma substring_prefix (b c : string) :
  String.substring 0 (String.length b) (b +:+ c) = b.
Proof. induction b as [|x b IH]; simpl; [by destruct c | by rewrite IH]. Qed.

Lemma substring_append_mid (a b c : string) :
  String.substring (String.length a) (String.length b) (a +:+ b +:+ c) = b.
Proof. by rewrite substring_append_skip, substring_prefix. Qed.

Lemma index_lower (n : nat) (s1 s2 : string) (m : nat) :
  String.index n s1 s2 = Some m -> (n <= m)%nat.
Proof.
  revert n m. induction s2 as [|c s2 IH]; intros n m; simpl.
  - destruct n; [|done]. destruct s1; [|done]. intros [= <-]. lia.
  - destruct n as [|n].
    + intros _. lia.
    + destruct (String.index n s1 s2) as [k|] eqn:E; [|done].
      intros [= <-]. apply IH in E. lia.
Qed.

Lemma occursAt_bound (line pat : string) (k : Z) :
  occursAt line pat k -> k + strlen pat <= strlen line \/ pat = "".
Proof.
  intros [Hk Hs]. destruct pat as [|c pat]; [by right|left].
  apply (f_equal String.length) in Hs. rewrite length_substring in Hs.
  unfold strlen. simpl String.length in *. lia.
Qed.

Lemma indexOf_cases (s pat : string) (position : Z) :
  indexOf s pat position = -1 \/ 0 <= indexOf s pat position.
Proof. unfold indexOf. destruct (String.index _ _ _); lia. Qed.

Lemma indexOf_found (s pat : string) (position k : Z) :
  pat <> "" -> indexOf s pat position = k -> 0 <= k ->
  occursAt s pat k /\ position <= k /\
  forall j, position <= j < k -> ~ occursAt s pat j.
Proof.
  intros Hne Hi Hk. unfold indexOf in Hi.
  destruct (String.index _ _ _) as [m|] eqn:E; [|lia]. subst k.
  pose proof (index_lower _ _ _ _ E) as Hlow.
  pose proof (index_correct1 _ _ _ _ E) as Hocc.
  assert (Hpos : position <= Z.of_nat m).
  { destruct (Z.le_gt_cases position (strlen s)) as [Hle|Hgt].
    - unfold clamp in Hlow. lia.
    - exfalso. apply (f_equal String.length) in Hocc.
      rewrite length_substring in Hocc.
      unfold clamp, strlen in *. destruct pat; [done|].
      simpl String.length in Hocc. lia. }
  split; [split; [lia | by rewrite Nat2Z.id]|]. split; [done|].
  intros j Hj [Hj0 Hocc'].
  apply (index_correct2 _ _ _ _ E (Z.to_nat j)); [unfold clamp in *; lia | lia | done].
Qed.

Lemma indexOf_absent (s pat : string) (position : Z) :
  pat <> "" -> indexOf s pat position = -1 ->
  forall j, position <= j -> ~ occursAt s pat j.
Proof.
  intros Hne Hi j Hj [Hj0 Hocc]. unfold indexOf in Hi.
  destruct (String.index _ _ _) as [m|] eqn:E; [lia|].
  destruct (occursAt_bound s pat j) as [Hb|]; [by split | | done].
  apply (index_correct3 _ (Z.to_nat j) _ _ E Hne); [|done].
  assert (0 < strlen pat) by (unfold strlen; destruct pat; [done | simpl; lia]).
  unfold clamp. lia.
Qed.

Lemma append_assoc (a b c : string) : (a +:+ b) +:+ c = a +:+ b +:+ c.
Proof.
  induction a as [|x a IH]; [reflexivity|].
  change (String x ((a +:+ b) +:+ c) = String x (a +:+ b +:+ c)). by f_equal.
Qed.

Lemma endsWith_append (pre E rest : string) :
  endsWith (pre +:+ E +:+ rest) E (strlen pre + strlen E) = true.
Proof.
  unfold endsWith, clamp, strlen. rewrite !length_append.
  replace (Z.max 0 _ - _) with (Z.of_nat (String.length pre)) by lia.
  destruct (Z.ltb_spec (Z.of_nat (String.length pre)) 0); [lia|].
  rewrite Nat2Z.id, substring_append_mid. apply String.eqb_refl.
Qed.

End StringFacts.

(** * Properties of the scanner *)

Section ScannerFacts.

Context {engine : RegExpEngine}.

(** ** Choice of the transition (index.ts 236-258) *)

Lemma bind_Done {A B : Type} (m : outcome A) (k : A -> outcome B) (b : B) :
  bind m k = Done b -> exists a, m = Done a /\ k a = Done b.
Proof. destruct m; simpl; intros H; [eauto | discriminate | discriminate]. Qed.

(** After the openers [tr] have been tried, either the search is as the
    closer left it and no opener is strictly nearer, or the first of the
    nearest openers has been adopted. *)
Lemma fold_adopt_spec (tr : list Opening) (s0 : Search) :
  found s0 <> PUSH -> (pos s0 = -1 \/ 0 <= pos s0) ->
  let s := fold_left adopt tr s0 in
  (s = s0 /\
   forall c p m, (c, p, m) ∈ tr -> 0 <= p -> pos s0 <> -1 /\ pos s0 <= p)
  \/
  (exists i c p m,
      tr !! i = Some (c, p, m) /\
      s = {| found := PUSH; pos := p; matched := m; nextPattern := c |} /\
      0 <= p /\ (pos s0 <> -1 -> p < pos s0) /\
      forall j c' p' m', tr !! j = Some (c', p', m') -> 0 <= p' ->
                         p <= p' /\ ((j < i)%nat -> p < p')).
Proof.
  intros Hf Hp. induction tr as [|[[c p] m] tr IH] using rev_ind; simpl.
  - left. split; [done|]. intros ??? H. by apply elem_of_nil in H.
  - rewrite fold_left_app. simpl.
    destruct IH as [[-> Hall] | (i & ci & pi & mi & Hi & -> & Hpi & Hlt & Hmin)].
    + destruct (0 <=? p) eqn:E1; simpl.
      * destruct ((pos s0 =? -1) || (p <? pos s0)) eqn:E2.
        -- right. exists (length tr), c, p, m.
           split; [by rewrite lookup_app_r, Nat.sub_diag|].
           split; [done|]. split; [lia|].
           split; [intros Hne; destruct (Z.eqb_spec (pos s0) (-1)); simpl in E2; lia|].
           intros j c' p' m' Hj Hp'.
           destruct (decide (j < length tr)%nat) as [Hlt|Hge].
           ++ rewrite lookup_app_l in Hj by done.
              apply list_elem_of_lookup_2 in Hj.
              destruct (Hall _ _ _ Hj Hp') as [Hne Hle].
              destruct (Z.eqb_spec (pos s0) (-1)); simpl in E2; lia.
           ++ rewrite lookup_app_r in Hj; [|lia].
              destruct (j - length tr)%nat eqn:Ej; simpl in Hj; [|done].
              inversion Hj; subst. lia.
        -- left. split; [done|]. intros c' p' m' Hin Hp'.
           apply elem_of_app in Hin as [Hin|Hin]; [by eapply Hall|].
           apply list_elem_of_singleton in Hin. inversion Hin; subst.
           destruct (Z.eqb_spec (pos s0) (-1)); simpl in E2; lia.
      * left. split; [done|]. intros c' p' m' Hin Hp'.
        apply elem_of_app in Hin as [Hin|Hin]; [by eapply Hall|].
        apply list_elem_of_singleton in Hin. inversion Hin; subst. lia.
    + right. simpl.
      destruct ((0 <=? p) && ((pi =? -1) || (p <? pi))) eqn:E.
      * exists (length tr), c, p, m.
        split; [by rewrite lookup_app_r, Nat.sub_diag|].
        split; [done|].
        assert (0 <= p /\ p < pi) as [? ?].
        { destruct (Z.eqb_spec pi (-1)); [lia|]. simpl in E. lia. }
        split; [done|]. split; [intros Hne; specialize (Hlt Hne); lia|].
        intros j c' p' m' Hj Hp'.
        destruct (decide (j < length tr)%nat) as [Hl|Hge].
        -- rewrite lookup_app_l in Hj by done.
           destruct (Hmin _ _ _ _ Hj Hp'). lia.
        -- rewrite lookup_app_r in Hj; [|lia].
           destruct (j - length tr)%nat eqn:Ej; simpl in Hj; [|done].
           inversion Hj; subst. lia.
      * exists i, ci, pi, mi.
        split; [by apply lookup_app_l_Some|]. split; [done|].
        split; [done|]. split; [done|].
        intros j c' p' m' Hj Hp'.
        destruct (decide (j < length tr)%nat) as [Hl|Hge].
        -- rewrite lookup_app_l in Hj by done. by eapply Hmin.
        -- rewrite lookup_app_r in Hj; [|lia].
           destruct (j - length tr)%nat eqn:Ej; simpl in Hj; [|done].
           inversion Hj; subst.
           assert (i < length tr)%nat by (by eapply lookup_lt_Some).
           destruct (Z.eqb_spec pi (-1)); [lia|]. simpl in E.
           split; [lia|]. intros. lia.
Qed.

Lemma searchChildren_openers fuel arena line offset escape children s st :
  searchChildren fuel arena line offset escape children s st
  = let* (tr, st') := openerMatches fuel arena line offset escape children st in
    Done (fold_left adopt tr s, st').
Proof.
  revert s st. induction children as [|child children IH]; intros s st; simpl; [done|].
  destruct (present (open (arena child))) as [o|]; simpl; [|apply IH].
  destruct (matchWithEscape fuel line offset o escape st) as [[[p m] st1]| |];
    simpl; [|done|done].
  destruct ((0 <=? p) && ((pos s =? -1) || (p <? pos s))) eqn:E; simpl;
    rewrite IH;
    destruct (openerMatches fuel arena line offset escape children st1)
      as [[tr st2]| |]; simpl; try done; by rewrite E.
Qed.

Lemma search_unfold fuel arena line offset P matched0 st :
  search fuel arena line offset P matched0 st
  = let* (s, st) :=
      searchClose fuel line offset (close (arena P)) (escape (arena P))
        {| found := NoneFound; pos := -1; matched := matched0; nextPattern := P |} st in
    searchChildren fuel arena line offset (escape (arena P)) (childList (arena P)) s st.
Proof.
  unfold search, childList.
  destruct (searchClose _ _ _ _ _ _ _) as [[s st']| |]; simpl; [|done|done].
  by destruct (children (arena P)).
Qed.

Lemma transition_layer cfg line offset P s st layer st' :
  transition cfg line offset P s st = Done (layer, st') ->
  l_pos layer = pos s /\ l_matched layer = matched s /\
  l_prePattern layer = P /\
  l_open layer = match found s with PUSH => true | _ => false end.
Proof.
  unfold transition. intros H.
  apply bind_Done in H as [[n st1] [_ H]]. by inversion H.
Qed.


(** ** Literal specs (index.ts 164-171, 188-207) *)

Lemma checkEscape_literal st line k (e : option string) :
  checkEscape st line k (PString <$> e) = (escapedLit line e k, st).
Proof.
  destruct e as [E|]; [|done]. unfold checkEscape, escapedLit. simpl.
  destruct E as [|c E]; [done|]. simpl negb. simpl andb.
  unfold match_.
  destruct (endsWith line (String c E) k) eqn:He; simpl; [|done].
  f_equal. apply Z.leb_le. unfold endsWith in He.
  destruct (Z.ltb_spec (clamp 0 (strlen line) k - strlen (String c E)) 0); [done|].
  assert (0 < strlen (String c E)) by (unfold strlen; simpl; lia).
  unfold clamp in *. lia.
Qed.

Lemma match_literal_forward line position pat st :
  match_ line position DEFAULT (PString pat) st
  = ((indexOf line pat position,
      if 0 <=? indexOf line pat position then Some pat else None), st).
Proof. done. Qed.

(** The loop on a literal spec with a literal (or absent) escape: it ends
    within [length line] iterations, leaves the state alone, and stops on an
    occurrence that is not escaped or on [-1]. *)
Lemma matchWithEscape_loop_literal line pat (e : option string) st :
  pat <> "" ->
  forall fuel pos escaped,
    occursAt line pat pos ->
    (Z.to_nat (strlen line - pos) + 1 < fuel)%nat ->
    exists r escaped',
      matchWithEscape_loop fuel line (PString pat) (PString <$> e) pos (Some pat) escaped st
      = Done (r, (if r =? -1 then None else Some pat), escaped', st)
      /\ (escaped' = true -> r = -1)
      /\ (r = -1 \/ (pos <= r /\ occursAt line pat r /\ escapedLit line e r = false)).
Proof.
  intros Hne. induction fuel as [|fuel IH]; intros pos escaped Hocc Hfuel; [lia|].
  simpl. pose proof Hocc as [Hpos _].
  destruct (Z.eqb_spec pos (-1)); [lia|].
  rewrite checkEscape_literal.
  destruct (escapedLit line e pos) eqn:Hesc; simpl.
  - pose proof (indexOf_cases line pat (pos + strlen pat)) as [Hi|Hi].
    + rewrite Hi. simpl. destruct fuel as [|fuel]; [lia|]. simpl.
      exists (-1), true. auto.
    + destruct (occursAt_bound _ _ _ Hocc) as [Hb|]; [|done].
      assert (0 < strlen pat) by (unfold strlen; destruct pat; [done | simpl; lia]).
      destruct (indexOf_found line pat _ _ Hne eq_refl Hi) as (Hocc' & Hle & _).
      destruct (Z.leb_spec 0 (indexOf line pat (pos + strlen pat))); [|lia].
      destruct (IH (indexOf line pat (pos + strlen pat)) true Hocc')
        as (r & e' & Hr & He' & Hres); [lia|].
      exists r, e'. split; [done|]. split; [done|].
      destruct Hres as [?|(? & ? & ?)]; [by left|right]. split; [lia | done].
  - exists pos, false. destruct (Z.eqb_spec pos (-1)); [lia|].
    split; [done|]. split; [done|]. right. split; [lia | done].
Qed.

Lemma matchWithEscape_literal fuel line position pat (e : option string) st :
  pat <> "" -> (String.length line + 1 < fuel)%nat ->
  exists r,
    matchWithEscape fuel line position (PString pat) (PString <$> e) st
    = Done (r, (if r =? -1 then None else Some pat), st)
    /\ (r = -1 \/
        (position <= r /\ occursAt line pat r /\ escapedLit line e r = false)).
Proof.
  intros Hne Hfuel. unfold matchWithEscape. rewrite match_literal_forward.
  pose proof (indexOf_cases line pat position) as [Hi|Hi].
  - rewrite Hi. simpl. destruct fuel as [|fuel]; [lia|]. simpl.
    exists (-1). auto.
  - destruct (indexOf_found line pat _ _ Hne eq_refl Hi) as (Hocc & Hle & _).
    destruct (Z.leb_spec 0 (indexOf line pat position)); [|lia].
    destruct (matchWithEscape_loop_literal line pat e st Hne fuel
                (indexOf line pat position) false Hocc)
      as (r & e' & Hr & He' & Hres).
    { pose proof Hocc as [? _]. unfold strlen. lia. }
    rewrite Hr. simpl. exists r.
    destruct e'; [rewrite (He' eq_refl); simpl; auto|].
    split; [by destruct (r =? -1)|].
    destruct Hres as [?|(? & ? & ?)]; [by left|right]. split; [lia | done].
Qed.

(** When every occurrence from [position] on is escaped the result is
    [(-1, null)]. *)
Lemma matchWithEscape_exhausted fuel line position pat (e : option string) st :
  pat <> "" -> (String.length line + 1 < fuel)%nat ->
  (forall k, position <= k -> occursAt line pat k -> escapedLit line e k = true) ->
  matchWithEscape fuel line position (PString pat) (PString <$> e) st
  = Done (-1, None, st).
Proof.
  intros Hne Hfuel Hall.
  destruct (matchWithEscape_literal fuel line position pat e st Hne Hfuel)
    as (r & Hr & [->|(Hle & Hocc & Hesc)]); [done|].
  rewrite (Hall r Hle Hocc) in Hesc. done.
Qed.

(** C2 (amended): for a literal closer [C] with a literal escape [E], the
    match that [matchWithEscape] returns is an occurrence of [C] whose
    preceding text does not end with [E].  The check looks back over one
    escape only: an occurrence preceded by [E] is skipped, and an occurrence
    preceded by [E E] is skipped as well. *)
Theorem matchWithEscape_single_lookback fuel line position C E st :
  C <> "" -> E <> "" -> (String.length line + 1 < fuel)%nat ->
  exists r,
    matchWithEscape fuel line position (PString C) (Some (PString E)) st
    = Done (r, (if r =? -1 then None else Some C), st) /\
    (r = -1 \/ (position <= r /\ occursAt line C r /\ endsWith line E r = false)) /\
    (forall pre post, line = pre +:+ E +:+ C +:+ post -> r <> strlen pre + strlen E) /\
    (forall pre post, line = pre +:+ E +:+ E +:+ C +:+ post ->
                      r <> strlen pre + strlen E + strlen E).
Proof.
  intros HC HE Hfuel.
  destruct (matchWithEscape_literal fuel line position C (Some E) st HC Hfuel)
    as (r & Hr & Hres).
  assert (Hlit : forall k, escapedLit line (Some E) k = endsWith line E k).
  { intros k. simpl. by destruct (String.eqb_spec E ""). }
  assert (Hskip : forall k, endsWith line E k = true -> 0 <= k -> r <> k).
  { intros k Hk Hk0 ->. destruct Hres as [?|(_ & _ & Hesc)]; [lia|].
    rewrite Hlit, Hk in Hesc. done. }
  exists r. split; [done|]. split.
  { destruct Hres as [?|(? & ? & Hesc)]; [by left|right]. by rewrite Hlit in Hesc. }
  split.
  - intros pre post ->. apply Hskip; [apply endsWith_append|unfold strlen; lia].
  - intros pre post ->. apply Hskip; [|unfold strlen; lia].
    rewrite <- (append_assoc pre E).
    replace (strlen pre + strlen E + strlen E) with (strlen (pre +:+ E) + strlen E)
      by (unfold strlen; rewrite length_append; lia).
    apply endsWith_append.
Qed.

(** ** No transition found (index.ts 282-285) *)

Lemma present_literal spec pat :
  present spec = Some (PString pat) -> pat <> "".
Proof.
  destruct spec as [[[|c s]|r|f]|]; simpl; intros H; inversion H; subst; done.
Qed.

Lemma present_Some spec e : present spec = Some e -> spec = Some e.
Proof. destruct spec as [[[|c s]|r|f]|]; simpl; congruence. Qed.

Lemma searchClose_exhausted fuel line offset close (e : option string) s st :
  (String.length line + 1 < fuel)%nat ->
  exhausted line offset e close ->
  searchClose fuel line offset close (PString <$> e) s st = Done (s, st).
Proof.
  intros Hfuel Hex. unfold searchClose. unfold exhausted in Hex.
  destruct (present close) as [[pat|r|f]|] eqn:Hp; try done.
  apply present_literal in Hp.
  by rewrite (matchWithEscape_exhausted fuel line offset pat e st Hp Hfuel Hex).
Qed.

Lemma searchChildren_exhausted fuel arena line offset (e : option string) children s st :
  (String.length line + 1 < fuel)%nat ->
  (forall c, c ∈ children -> exhausted line offset e (open (arena c))) ->
  searchChildren fuel arena line offset (PString <$> e) children s st = Done (s, st).
Proof.
  intros Hfuel. induction children as [|child children IH]; intros Hex; simpl; [done|].
  assert (Hc : exhausted line offset e (open (arena child))) by (apply Hex; left).
  unfold exhausted in Hc.
  destruct (present (open (arena child))) as [[pat|r|f]|] eqn:Hp; try done; simpl.
  - apply present_literal in Hp.
    rewrite (matchWithEscape_exhausted fuel line offset pat e st Hp Hfuel Hc). simpl.
    apply IH. intros c Hin. apply Hex. by right.
  - apply IH. intros c Hin. apply Hex. by right.
Qed.

(** The case of literal specs, with the condition put on the occurrences
    of the literal: when every occurrence from the position on is escaped,
    [matchWithEscape] returns [(-1, null)], which is also what it returns
    when the literal does not occur at all, and it leaves the state as it
    is; when this holds of the closer and of every opener that the current
    pattern tries, [createLayers] returns no layer and appends the rest of
    the line to [textBefore]. *)
Lemma escape_exhaustion_literal fuel cfg line offset st P rest (e : option string) :
  (String.length line + 2 < fuel)%nat ->
  patternContext st = P :: rest ->
  offset < strlen line ->
  escape (arena cfg P) = PString <$> e ->
  exhausted line offset e (close (arena cfg P)) ->
  (forall c, c ∈ childList (arena cfg P) -> exhausted line offset e (open (arena cfg c))) ->
  (forall pat position,
      pat <> "" ->
      ((forall k, position <= k -> occursAt line pat k -> escapedLit line e k = true) ->
       matchWithEscape (pred fuel) line position (PString pat) (PString <$> e) st
       = Done (-1, None, st)) /\
      (indexOf line pat position = -1 ->
       matchWithEscape (pred fuel) line position (PString pat) (PString <$> e) st
       = Done (-1, None, st))) /\
  createLayers fuel cfg st line offset
  = Done ([], set_textBefore (textBefore st +:+ slice line offset None) st).
Proof.
  intros Hfuel Hctx Hoff Hesc Hclose Hopen. split.
  - intros pat position Hne. split.
    + intros Hall. apply matchWithEscape_exhausted; [done | lia | done].
    + intros Hi. apply matchWithEscape_exhausted; [done | lia |].
      intros k Hk Hocc. by destruct (indexOf_absent line pat position Hne Hi k Hk).
  - destruct fuel as [|fuel]; [lia|]. unfold createLayers. simpl.
    destruct (Z.ltb_spec offset (strlen line)); [|lia].
    unfold getCurrentPattern. rewrite Hctx. simpl.
    rewrite search_unfold, Hesc.
    rewrite searchClose_exhausted by (done || lia). simpl.
    rewrite searchChildren_exhausted by (done || lia). done.
Qed.

(** ** The escape spec applied to openers (index.ts 236, 249) *)

Lemma searchChildren_ext fuel arena arena' line offset escape children s st :
  (forall c, c ∈ children -> open (arena' c) = open (arena c)) ->
  searchChildren fuel arena' line offset escape children s st
  = searchChildren fuel arena line offset escape children s st.
Proof.
  revert s st. induction children as [|child children IH]; intros s st Hopen; [done|].
  assert (Hrest : forall c, c ∈ children -> open (arena' c) = open (arena c))
    by (intros c Hin; apply Hopen; by right).
  simpl. rewrite (Hopen child) by left.
  destruct (present (open (arena child))) as [o|]; simpl; [|by apply IH].
  destruct (matchWithEscape fuel line offset o escape st) as [[[p m] st1]| |];
    simpl; try done.
  destruct ((0 <=? p) && ((pos s =? -1) || (p <? pos s))); simpl; by apply IH.
Qed.

Lemma searchClose_result fuel line offset close escape s st s1 st1 :
  searchClose fuel line offset close escape s st = Done (s1, st1) ->
  s1 = s \/ (found s1 = POP /\ 0 <= pos s1 /\ present close <> None).
Proof.
  unfold searchClose. destruct (present close) as [c|]; [|intros [= <- <-]; by left].
  intros H. apply bind_Done in H as [[[p m] st'] [_ H]].
  destruct (Z.leb_spec 0 p); inversion H; subst; [right|by left]. done.
Qed.

Lemma openerMatches_exhausted fuel arena line offset (e : option string) children :
  (String.length line + 1 < fuel)%nat ->
  forall st tr st' c p m,
    openerMatches fuel arena line offset (PString <$> e) children st = Done (tr, st') ->
    (c, p, m) ∈ tr -> exhausted line offset e (open (arena c)) -> p = -1.
Proof.
  intros Hfuel. induction children as [|child children IH];
    intros st tr st' c p m H Hin Hex; simpl in H.
  - inversion H; subst. by apply elem_of_nil in Hin.
  - destruct (present (open (arena child))) as [o|] eqn:Hp; [|by eapply IH].
    apply bind_Done in H as [[[p1 m1] st1] [Hm H]].
    apply bind_Done in H as [[tr1 st2] [Hr H]]. inversion H; subst.
    apply elem_of_cons in Hin as [Heq|Hin]; [|by eapply IH].
    inversion Heq; subst. unfold exhausted in Hex. rewrite Hp in Hex.
    destruct o as [pat|r|f]; try done. apply present_literal in Hp.
    rewrite (matchWithEscape_exhausted fuel line offset pat e st Hp Hfuel Hex) in Hm.
    by inversion Hm.
Qed.

(** C10: the escape spec under which the opener of a child is matched is the
    one of the pattern that is currently active.  The search of an iteration
    reads the active pattern and, of its children, only their openers, so a
    child's own escape spec cannot suppress a match of its opener; and a child
    whose (literal) opener occurs only behind the active pattern's (literal)
    escape is never entered. *)
Theorem openers_use_parent_escape fuel arena line offset P matched0 st :
  (forall arena',
      arena' P = arena P ->
      (forall c, c ∈ childList (arena P) -> open (arena' c) = open (arena c)) ->
      search fuel arena' line offset P matched0 st
      = search fuel arena line offset P matched0 st) /\
  (forall (e : option string) c s st',
      (String.length line + 1 < fuel)%nat ->
      escape (arena P) = PString <$> e ->
      c ∈ childList (arena P) ->
      exhausted line offset e (open (arena c)) ->
      search fuel arena line offset P matched0 st = Done (s, st') ->
      found s = PUSH -> nextPattern s <> c).
Proof.
  split.
  - intros arena' HP Hopen. rewrite !search_unfold, HP.
    destruct (searchClose _ _ _ _ _ _ _) as [[s1 st1]| |]; simpl; try done.
    by apply searchChildren_ext.
  - intros e c s st' Hfuel Hesc Hc Hex Hs Hpush Hnext.
    rewrite search_unfold in Hs.
    apply bind_Done in Hs as [[s1 st1] [Hclose Hs]].
    rewrite searchChildren_openers, Hesc in Hs.
    apply bind_Done in Hs as [[tr st2] [Htr Hs]]. inversion Hs; subst. clear Hs.
    apply searchClose_result in Hclose.
    destruct (fold_adopt_spec tr s1)
      as [[Heq _] | (i & ci & p & m & Hi & Heq & Hp & _)].
    + destruct Hclose as [->|[-> _]]; done.
    + destruct Hclose as [->|[_ [? _]]]; simpl; auto.
    + rewrite Heq in Hpush. destruct Hclose as [->|[Hpop _]]; simpl in *; congruence.
    + rewrite Heq in *. simpl in *.
      apply list_elem_of_lookup_2 in Hi.
      pose proof (openerMatches_exhausted _ _ _ _ _ _ Hfuel _ _ _ _ _ _ Htr Hi Hex). lia.
Qed.

(** ** What the search leaves alone *)

Lemma sameButCache_sym_aux a b : sameButCache a b -> sameButCache b a.
Proof. unfold sameButCache. congruence. Qed.

Lemma sameButCache_trans a b c :
  sameButCache a b -> sameButCache b c -> sameButCache a c.
Proof. unfold sameButCache. congruence. Qed.

Lemma sameButCache_set_cache c st : sameButCache st (set_regExpCache c st).
Proof. done. Qed.

Lemma sameButCache_context a b :
  sameButCache a b -> patternContext a = patternContext b.
Proof. intros H. apply (f_equal patternContext) in H. done. Qed.

Lemma sameButCache_textBefore a b :
  sameButCache a b -> textBefore a = textBefore b.
Proof. intros H. apply (f_equal textBefore) in H. done. Qed.

Lemma getCachedRegExp_frame st regExp anchor global :
  sameButCache st (getCachedRegExp st regExp anchor global).2.
Proof. unfold getCachedRegExp. by destruct (regExpCache st !! _). Qed.

Lemma match_frame line position mode pattern st :
  sameButCache st (match_ line position mode pattern st).2.
Proof.
  destruct pattern as [pat|r|f]; simpl.
  - by destruct mode; simpl; [|destruct (endsWith line pat position)].
  - destruct mode;
      (destruct (getCachedRegExp st r _ _) as [[key reg] st'] eqn:E;
       pose proof (getCachedRegExp_frame st r) as Hf;
       destruct (exec _ _) as [result reg']; simpl;
       eapply sameButCache_trans; [|apply sameButCache_set_cache]).
    + specialize (Hf NONE true). by rewrite E in Hf.
    + specialize (Hf END false). by rewrite E in Hf.
  - done.
Qed.

Lemma checkEscape_frame st line offset escape :
  sameButCache st (checkEscape st line offset escape).2.
Proof.
  unfold checkEscape. destruct (present escape) as [e|]; [|done].
  pose proof (match_frame line offset PREFIX e st) as H.
  by destruct (match_ line offset PREFIX e st) as [[p m] st'].
Qed.

Lemma returns_bind {A B : Type} (P : A -> Prop) (Q : B -> Prop)
    (m : outcome A) (k : A -> outcome B) :
  returns P m -> (forall a, P a -> returns Q (k a)) -> returns Q (bind m k).
Proof. destruct m; simpl; auto. Qed.

Lemma returns_impl {A : Type} (P Q : A -> Prop) (r : outcome A) :
  (forall a, P a -> Q a) -> returns P r -> returns Q r.
Proof. destruct r; simpl; auto. Qed.

Lemma matchWithEscape_loop_frame fuel line pattern escape :
  forall p m e st,
    returns (fun r => sameButCache st r.2)
      (matchWithEscape_loop fuel line pattern escape p m e st).
Proof.
  induction fuel as [|fuel IH]; intros p m e st; simpl; [done|].
  destruct (p =? -1); [done|].
  pose proof (checkEscape_frame st line p escape) as Hc.
  destruct (checkEscape st line p escape) as [e' st1]. simpl in Hc.
  destruct e'; simpl; [|done].
  pose proof (match_frame line (p + matchedLength m) DEFAULT pattern st1) as Hm.
  destruct (match_ _ _ _ _ st1) as [[p' m'] st2]. simpl in Hm.
  eapply returns_impl; [|apply IH]. intros r Hr.
  eauto using sameButCache_trans.
Qed.

Lemma matchWithEscape_frame fuel line position pattern escape st :
  returns (fun r => sameButCache st r.2)
    (matchWithEscape fuel line position pattern escape st).
Proof.
  unfold matchWithEscape.
  pose proof (match_frame line position DEFAULT pattern st) as Hm.
  destruct (match_ _ _ _ _ st) as [[p m] st1]. simpl in Hm.
  eapply returns_bind; [apply matchWithEscape_loop_frame|].
  intros [[[p' m'] e'] st2] H. simpl in *. eauto using sameButCache_trans.
Qed.

Lemma searchClose_frame fuel line offset close escape s st :
  returns (fun r => sameButCache st r.2 /\
                    (r.1 = s \/ (found r.1 = POP /\ 0 <= pos r.1 /\ present close <> None)))
    (searchClose fuel line offset close escape s st).
Proof.
  unfold searchClose. destruct (present close) as [c|]; simpl;
    [|split; [done | by left]].
  eapply returns_bind; [apply matchWithEscape_frame|].
  intros [[p m] st1] H. simpl in *.
  destruct (Z.leb_spec 0 p); simpl; (split; [done|]); [right | left]; done.
Qed.

Lemma searchChildren_frame fuel arena line offset escape children :
  forall s st,
    returns (fun r => sameButCache st r.2 /\ (r.1 = s \/ found r.1 = PUSH))
      (searchChildren fuel arena line offset escape children s st).
Proof.
  induction children as [|child children IH]; intros s st; simpl;
    [split; [done | by left]|].
  eapply (returns_bind (fun r => sameButCache st r.2 /\ (r.1 = s \/ found r.1 = PUSH))).
  - destruct (present (open (arena child))) as [o|]; simpl;
      [|split; [done | by left]].
    eapply returns_bind; [apply matchWithEscape_frame|].
    intros [[p m] st1] H. simpl in *.
    destruct ((0 <=? p) && _); simpl; (split; [done|]); [right | left]; done.
  - intros [s1 st1] [Hf Hs]. simpl in *.
    eapply returns_impl; [|apply IH]. intros [s2 st2] [Hf2 Hs2]. simpl in *.
    split; [eauto using sameButCache_trans|].
    destruct Hs2 as [->|]; auto.
Qed.

(** The search of an iteration never throws; it changes nothing but the
    cache, and it finds a closing transition only for a pattern with a closer. *)
Lemma search_frame fuel arena line offset P matched0 st :
  returns (fun r => sameButCache st r.2 /\
                    (found r.1 = POP -> present (close (arena P)) <> None))
    (search fuel arena line offset P matched0 st).
Proof.
  rewrite search_unfold.
  eapply returns_bind; [apply searchClose_frame|].
  intros [s1 st1] [Hf Hs]. simpl in *.
  eapply returns_impl; [|apply searchChildren_frame].
  intros [s2 st2] [Hf2 Hs2]. simpl in *.
  split; [eauto using sameButCache_trans|].
  intros Hpop. destruct Hs2 as [->|]; [|congruence].
  destruct Hs as [->|(_ & _ & ?)]; done.
Qed.

End ScannerFacts.

(** * The pattern-context stack is never empty *)

Section Invariant.

Context {engine : RegExpEngine} {host : Host}.

Lemma rooted_nonempty cfg st : rooted cfg st -> patternContext st <> [].
Proof. intros [_ [upper H]]. rewrite H. by destruct upper. Qed.

Lemma rooted_same cfg a b :
  patternContext a = patternContext b -> rooted cfg a -> rooted cfg b.
Proof. intros H [Hc [upper Hu]]. split; [done|]. exists upper. congruence. Qed.

(** A transition keeps the root at the bottom: an opening pushes, and a
    closing pops a pattern that has a closer, which the root has not. *)
Lemma transition_rooted cfg line offset P rest s st :
  hooksKeepContext cfg -> rooted cfg st -> patternContext st = P :: rest ->
  (found s = POP -> present (close (arena cfg P)) <> None) ->
  found s <> NoneFound ->
  returns (fun r => rooted cfg r.2 /\ l_prePattern r.1 = P /\
                    l_open r.1 = match found s with PUSH => true | _ => false end)
    (transition cfg line offset P s st).
Proof.
  intros (HbE & HaE & HbX & HaX) [Hroot [upper Hu]] Hctx Hpop Hfound.
  unfold transition.
  destruct (found s) eqn:Ef; [| |done]; simpl.
  - split; [|done]. split; [done|]. exists (nextPattern s :: upper).
    cbn [patternContext set_textBefore]. rewrite HaE.
    cbn [patternContext pushPatternContext set_patternContext]. rewrite HbE.
    simpl. by rewrite Hu.
  - unfold popPatternContext. rewrite HbX. simpl. rewrite Hctx. simpl.
    unfold getCurrentPattern. rewrite HaX. simpl.
    destruct upper as [|q upper]; simpl in Hu.
    + rewrite Hctx in Hu. inversion Hu; subst. by destruct (Hpop eq_refl).
    + rewrite Hctx in Hu. inversion Hu; subst.
      destruct (upper ++ [self cfg])%list as [|x xs] eqn:E;
        [by destruct upper|].
      simpl. split; [|done]. split; [done|]. exists upper.
      cbn [patternContext set_textBefore]. by rewrite HaX.
Qed.

Lemma createLayers_loop_rooted cfg line :
  hooksKeepContext cfg ->
  forall fuel offset matched0 acc st,
    rooted cfg st ->
    returns (fun r => rooted cfg r.2 /\
               forall l, l ∈ r.1 -> l ∈ acc \/
                 (l_open l = false -> present (close (arena cfg (l_prePattern l))) <> None))
      (createLayers_loop fuel cfg line offset matched0 acc st).
Proof.
  intros Hhooks.
  induction fuel as [|fuel IH]; intros offset matched0 acc st Hr; simpl; [done|].
  destruct (offset <? strlen line); [|simpl; auto].
  pose proof (rooted_nonempty _ _ Hr) as Hne.
  unfold getCurrentPattern at 1.
  destruct (patternContext st) as [|P rest] eqn:Hctx; [done|]. simpl.
  eapply returns_bind; [apply search_frame|].
  intros [s st1] [Hsame Hpop]. simpl in *.
  apply sameButCache_context in Hsame.
  assert (Hr1 : rooted cfg st1) by (eapply rooted_same; [|exact Hr]; done).
  assert (Hstep : found s <> NoneFound ->
    returns (fun r => rooted cfg r.2 /\
               forall l, l ∈ r.1 -> l ∈ acc \/
                 (l_open l = false -> present (close (arena cfg (l_prePattern l))) <> None))
      (let* (layer, st0) := transition cfg line offset P s st1 in
       createLayers_loop fuel cfg line (pos s + matchedLength (matched s))
         (matched s) (acc ++ [layer]) st0)).
  { intros Hf.
    eapply returns_bind.
    - eapply (transition_rooted cfg line offset P rest s st1); try done.
      by rewrite <- Hsame, Hctx.
    - intros [layer st2] (Hr2 & Hpre & Hopen). simpl in *.
      eapply returns_impl; [|by apply IH].
      intros [ls st3] [Hr3 Hls]. simpl in *. split; [done|].
      intros l Hl. destruct (Hls l Hl) as [Hin|Hc]; [|by right].
      apply elem_of_app in Hin as [Hin|Hin]; [by left|right].
      apply list_elem_of_singleton in Hin. subst l. rewrite Hpre, Hopen.
      destruct (found s); [done | auto | done]. }
  destruct (found s) eqn:Ef; [by apply Hstep | by apply Hstep |].
  simpl. split; [|auto]. eapply rooted_same; [|exact Hr1]. done.
Qed.

(** The dispatcher does not touch the pattern-context stack. *)
Lemma syncState_context arena st stream layer st' :
  syncState arena st stream layer = Done st' ->
  patternContext st' = patternContext st.
Proof.
  unfold syncState, popStateContext.
  destruct (l_open layer && _); [by intros [= <-]|].
  destruct (negb (l_open layer) && _); [|by intros [= <-]].
  destruct (stateContext st); [done | by intros [= <-]].
Qed.

Lemma shiftLayers_context st : patternContext (shiftLayers st) = patternContext st.
Proof. unfold shiftLayers. by destruct (layers st) as [[|? ?]|]. Qed.

Lemma newlineAtEol_context stream st :
  patternContext (newlineAtEol stream st) = patternContext st.
Proof. unfold newlineAtEol. by destruct (eol stream). Qed.

Lemma setLocalState_context v st :
  patternContext (setLocalState v st) = patternContext st.
Proof. unfold setLocalState. by destruct (stateContext st). Qed.

Lemma tokenPattern_context arena stream st style stream' st' :
  tokenPattern arena stream st = Done (style, stream', st') ->
  patternContext st' = patternContext st.
Proof.
  unfold tokenPattern. destruct (firstLayer st) as [layer|]; [|done].
  destruct (patternStyles _) as [[o c]|]; [|done].
  destruct (negb _); [done|]. intros H.
  apply bind_Done in H as [st1 [Hs H]]. apply syncState_context in Hs.
  inversion H; subst. by rewrite newlineAtEol_context, shiftLayers_context.
Qed.

Lemma tokenUntil_context arena stream st until shift sync style stream' st' :
  tokenUntil arena stream st until shift sync = Done (style, stream', st') ->
  patternContext st' = patternContext st.
Proof.
  unfold tokenUntil.
  destruct (match getLocalMode st ≫= modeToken with Some _ => _ | None => _ end)
    as [[style0 stream0] st0] eqn:E.
  assert (H0 : patternContext st0 = patternContext st).
  { destruct (getLocalMode st ≫= modeToken) as [tok|]; [|by inversion E].
    destruct (tok stream (getLocalState st)) as [[a b] c].
    inversion E; subst. apply setLocalState_context. }
  intros H. apply bind_Done in H as [st1 [Hs H]]. inversion H; subst.
  rewrite newlineAtEol_context, <- H0.
  destruct (firstLayer st0) as [layer|]; [|by inversion Hs].
  destruct (ss_pos stream' =? until); [|by inversion Hs].
  apply bind_Done in Hs as [st2 [Hs Hd]].
  assert (patternContext st2 = patternContext st0).
  { destruct sync; [by eapply syncState_context | by inversion Hs]. }
  inversion Hd; subst. destruct shift; [by rewrite shiftLayers_context|done].
Qed.

Lemma dispatch_context arena stream st style stream' st' :
  dispatch arena stream st = Done (style, stream', st') ->
  patternContext st' = patternContext st.
Proof.
  unfold dispatch. destruct (firstLayer st) as [layer|].
  - destruct (ss_start stream <? l_pos layer); [apply tokenUntil_context|].
    destruct (ss_start stream =? l_pos layer).
    + destruct (patternStyles _); [apply tokenPattern_context|].
      destruct (l_open layer && _).
      { intros H. apply tokenUntil_context in H. rewrite H.
        by destruct (truthy _). }
      destruct (negb (l_open layer) && _); [|apply tokenUntil_context].
      intros H. apply bind_Done in H as [st1 [Hp H]].
      apply tokenUntil_context in H. rewrite H.
      destruct (truthy _); [|by inversion Hp].
      unfold popStateContext in Hp. destruct (stateContext st); [done|].
      by inversion Hp.
    + destruct (ss_start stream <? _); [apply tokenUntil_context|done].
  - destruct (getLocalMode st ≫= modeToken) as [tok|]; [|by intros [= _ _ <-]].
    destruct (tok stream (getLocalState st)) as [[a b] c].
    intros [= _ _ <-]. apply setLocalState_context.
Qed.

Lemma defaultBeforeEnter_context st info :
  patternContext (defaultBeforeEnter st info) = patternContext st.
Proof. done. Qed.

Lemma defaultAfterExit_context st info :
  patternContext (defaultAfterExit st info) = patternContext st.
Proof.
  unfold defaultAfterExit. destruct (i_pattern info); [|done].
  by destruct (_ || _).
Qed.

Lemma finalParserConfig_hooks parserConfig :
  hooksKeepContext parserConfig -> hooksKeepContext (finalParserConfig parserConfig).
Proof.
  intros (HbE & HaE & HbX & HaX). repeat split; try done.
  - intros st info. simpl. rewrite HbE. apply defaultBeforeEnter_context.
  - intros st info. simpl. rewrite HaX. apply defaultAfterExit_context.
Qed.

Lemma startState_rooted parserConfig :
  rooted (finalParserConfig parserConfig) (startState parserConfig).
Proof. split; [done|]. by exists []. Qed.

Lemma reachable_rooted parserConfig st :
  hooksKeepContext parserConfig -> reachable parserConfig st ->
  rooted (finalParserConfig parserConfig) st.
Proof.
  intros Hhooks. apply finalParserConfig_hooks in Hhooks.
  induction 1 as [|st fuel line offset ls st' _ IH Hc
                  |st fuel stream style stream' st' _ IH Ht].
  - apply startState_rooted.
  - pose proof (createLayers_loop_rooted _ line Hhooks fuel offset None [] st IH) as Hr.
    unfold createLayers in Hc. rewrite Hc in Hr. by destruct Hr.
  - unfold token in Ht. apply bind_Done in Ht as [st1 [Hs Hd]].
    apply dispatch_context in Hd. eapply rooted_same; [symmetry; exact Hd|].
    unfold scanLine in Hs.
    destruct (negb (start st) || sol stream); [|inversion Hs; by subst].
    apply bind_Done in Hs as [[ls st2] [Hc Hs]]. inversion Hs; subst.
    pose proof (createLayers_loop_rooted _ (ss_string stream) Hhooks fuel
                  (ss_start stream) None [] (set_useRoot false (set_start true st))) as Hr.
    unfold createLayers in Hc. rewrite Hc in Hr.
    eapply rooted_same; [|apply Hr]; [done|].
    eapply rooted_same; [|exact IH]. done.
Qed.

(** C7: the pattern-context stack is never empty.  In every state that is
    reached from the initial state by scans of lines and calls of the
    tokenizer the stack is not null; a further [createLayers] does not throw
    on a null link and leaves the stack not null; and every closing layer it
    records closes a pattern that has a close spec, so it is never the root
    that is popped.  (The integrator's hooks are assumed not to assign
    [state.patternContext].) *)
Theorem patternContext_never_empty parserConfig st :
  hooksKeepContext parserConfig -> reachable parserConfig st ->
  patternContext st <> [] /\
  forall fuel line offset,
    returns (fun r =>
        patternContext r.2 <> [] /\
        forall l, l ∈ r.1 -> l_open l = false ->
          present (close (arena (finalParserConfig parserConfig) (l_prePattern l))) <> None /\
          l_prePattern l <> self (finalParserConfig parserConfig))
      (createLayers fuel (finalParserConfig parserConfig) st line offset).
Proof.
  intros Hhooks Hreach.
  pose proof (reachable_rooted _ _ Hhooks Hreach) as Hr.
  split; [by eapply rooted_nonempty|].
  intros fuel line offset. unfold createLayers.
  eapply returns_impl;
    [|apply createLayers_loop_rooted; [by apply finalParserConfig_hooks | exact Hr]].
  intros [ls st'] [Hr' Hls]. simpl in *.
  split; [by eapply rooted_nonempty|].
  intros l Hl Hopen. destruct (Hls l Hl) as [Hin|Hc]; [by apply elem_of_nil in Hin|].
  specialize (Hc Hopen). split; [done|].
  intros Heq. rewrite Heq in Hc. by apply Hc.
Qed.

End Invariant.

(** * Termination of the scan loop *)

Section Divergence.

Context {engine : RegExpEngine} {host : Host}.

(** At the root and inside the marker pattern, the search finds the marker's
    opener at the offset itself, with no matched text. *)
Lemma marker_search fuel P matched0 st :
  P = 0%nat \/ P = marker ->
  search (S fuel) (arena markerConfig) "a" 0 P matched0 st = Done (markerFound, st).
Proof. intros [->| ->]; reflexivity. Qed.

Lemma marker_search_0 P matched0 st :
  P = 0%nat \/ P = marker ->
  search 0 (arena markerConfig) "a" 0 P matched0 st = Timeout.
Proof. intros [->| ->]; reflexivity. Qed.

Lemma marker_loop fuel :
  forall matched0 acc st P rest,
    patternContext st = P :: rest -> P = 0%nat \/ P = marker ->
    createLayers_loop fuel markerConfig "a" 0 matched0 acc st = Timeout.
Proof.
  induction fuel as [|fuel IH]; intros matched0 acc st P rest Hctx HP; [done|].
  cbn [createLayers_loop].
  change (0 <? strlen "a") with true. cbv iota.
  unfold getCurrentPattern. rewrite Hctx. cbn [bind].
  destruct fuel as [|fuel]; [by rewrite marker_search_0|].
  rewrite marker_search by done. cbn [bind found markerFound].
  unfold transition. cbn [found markerFound bind nextPattern pos matched].
  eapply IH; [|by right]. reflexivity.
Qed.

(** C9 (the code at the failing input): with the marker grammar the scan of
    the line [a] is still running whatever the fuel; each iteration pushes
    the marker pattern again at offset 0. *)
Theorem createLayers_diverges (fuel : nat) :
  createLayers fuel markerConfig (startState markerOptions) "a" 0 = Timeout.
Proof. unfold createLayers. eapply marker_loop; [reflexivity | by left]. Qed.

End Divergence.

(** ** Grammars of literals terminate *)

Section Termination.

Context {engine : RegExpEngine}.

Lemma literalSpec_option spec :
  literalSpec spec -> exists e : option string, spec = PString <$> e.
Proof.
  destruct spec as [[pat|r|f]|]; simpl; try done; intros _.
  - by exists (Some pat).
  - by exists None.
Qed.

Lemma matchWithEscape_advances fuel line position pat (e : option string) st :
  pat <> "" -> (String.length line + 1 < fuel)%nat ->
  exists r m,
    matchWithEscape fuel line position (PString pat) (PString <$> e) st
    = Done (r, m, st) /\
    (r = -1 \/ (0 <= r /\ position <= r /\ 0 < matchedLength m /\
                r + matchedLength m <= strlen line)).
Proof.
  intros Hne Hfuel.
  destruct (matchWithEscape_literal fuel line position pat e st Hne Hfuel)
    as (r & Hr & Hres).
  exists r, (if r =? -1 then None else Some pat). split; [done|].
  destruct Hres as [?|(Hle & Hocc & _)]; [by left|right].
  pose proof Hocc as [H0 _].
  destruct (Z.eqb_spec r (-1)); [lia|]. simpl.
  destruct (occursAt_bound _ _ _ Hocc) as [Hb|]; [|done].
  assert (0 < strlen pat) by (unfold strlen; destruct pat; [done | simpl; lia]).
  lia.
Qed.

Lemma searchClose_advances fuel line offset close (e : option string) s st :
  literalSpec close -> (String.length line + 1 < fuel)%nat ->
  advances line offset s ->
  exists s', searchClose fuel line offset close (PString <$> e) s st = Done (s', st) /\
             advances line offset s'.
Proof.
  intros Hlit Hfuel Hs. unfold searchClose.
  destruct (present close) as [c|] eqn:Hp; [|by exists s].
  pose proof (present_Some _ _ Hp) as ->. destruct c as [pat|r|f]; try done.
  apply present_literal in Hp.
  destruct (matchWithEscape_advances fuel line offset pat e st Hp Hfuel)
    as (r & m & -> & Hres). simpl.
  destruct (Z.leb_spec 0 r); [|by exists s].
  eexists. split; [done|]. right. simpl. destruct Hres as [?|(? & ? & ? & ?)]; lia.
Qed.

Lemma searchChildren_advances fuel arena line offset (e : option string) children :
  literalGrammar arena -> (String.length line + 1 < fuel)%nat ->
  forall s st,
    advances line offset s ->
    exists s', searchChildren fuel arena line offset (PString <$> e) children s st
               = Done (s', st) /\
               advances line offset s'.
Proof.
  intros Hg Hfuel. induction children as [|child children IH]; intros s st Hs; simpl;
    [by exists s|].
  destruct (present (open (arena child))) as [o|] eqn:Hp; simpl; [|by apply IH].
  pose proof (present_Some _ _ Hp) as Ho.
  destruct (Hg child) as (Hlit & _ & _). rewrite Ho in Hlit.
  destruct o as [pat|r|f]; try done. apply present_literal in Hp.
  destruct (matchWithEscape_advances fuel line offset pat e st Hp Hfuel)
    as (r & m & -> & Hres). simpl.
  destruct ((0 <=? r) && _) eqn:E; simpl; [|by apply IH].
  apply IH. right. simpl. apply andb_true_iff in E as [E _].
  destruct Hres as [?|(? & ? & ? & ?)]; lia.
Qed.

Lemma search_advances fuel arena line offset P matched0 st :
  literalGrammar arena -> (String.length line + 1 < fuel)%nat ->
  exists s, search fuel arena line offset P matched0 st = Done (s, st) /\
            advances line offset s.
Proof.
  intros Hg Hfuel. rewrite search_unfold.
  destruct (Hg P) as (_ & Hc & He).
  destruct (literalSpec_option _ He) as [e ->].
  destruct (searchClose_advances fuel line offset (close (arena P)) e
              {| found := NoneFound; pos := -1; matched := matched0; nextPattern := P |}
              st Hc Hfuel) as (s1 & -> & Hs1); [by left|].
  simpl. by apply searchChildren_advances.
Qed.

Lemma transition_finishes cfg line offset P s st :
  transition cfg line offset P s st <> Timeout.
Proof.
  unfold transition. destruct (found s); simpl; try done;
    (destruct (popPatternContext _) as [st1| |] eqn:E1; simpl; try done;
     [destruct (getCurrentPattern _) as [n| |] eqn:E2; simpl; try done;
      unfold getCurrentPattern in E2; by destruct (patternContext _)
     |unfold popPatternContext in E1; by destruct (patternContext _)]).
Qed.

Lemma createLayers_loop_terminates cfg line :
  literalGrammar (arena cfg) ->
  forall fuel offset matched0 acc st,
    (Z.to_nat (strlen line - offset) + String.length line + 2 < fuel)%nat ->
    createLayers_loop fuel cfg line offset matched0 acc st <> Timeout.
Proof.
  intros Hg. induction fuel as [|fuel IH]; intros offset matched0 acc st Hfuel; [lia|].
  simpl. destruct (Z.ltb_spec offset (strlen line)); [|done].
  unfold getCurrentPattern. destruct (patternContext st) as [|P rest]; [done|]. simpl.
  destruct (search_advances fuel (arena cfg) line offset P matched0 st Hg)
    as (s & -> & Hadv); [unfold strlen in *; lia|].
  simpl. destruct Hadv as [->|(Hle & Hlen & Hend)]; [done|].
  assert (Hgo : (let* (layer, st0) := transition cfg line offset P s st in
                 createLayers_loop fuel cfg line (pos s + matchedLength (matched s))
                   (matched s) (acc ++ [layer]) st0) <> Timeout).
  { pose proof (transition_finishes cfg line offset P s st) as Ht.
    destruct (transition cfg line offset P s st) as [[layer st2]| |]; simpl; try done.
    apply IH. unfold strlen in *. lia. }
  by destruct (found s).
Qed.

(** X6: with a grammar of literal strings every transition consumes at least one
    character, and the scan of a line ends within [length line] iterations:
    with that much fuel [createLayers] returns or throws. *)
Theorem createLayers_terminates_literal fuel cfg st line offset :
  literalGrammar (arena cfg) -> 0 <= offset ->
  (2 * String.length line + 2 < fuel)%nat ->
  createLayers fuel cfg st line offset <> Timeout.
Proof.
  intros Hg Hoff Hfuel. unfold createLayers.
  apply createLayers_loop_terminates; [done|]. unfold strlen. lia.
Qed.

End Termination.

(** * Anchors in forward search *)

Section Anchors.

Context {engine : RegExpEngine}.

Lemma append_empty (s : string) : s +:+ "" = s.
Proof.
  induction s as [|c s IH]; [done|].
  change (String c (s +:+ "") = String c s). by f_equal.
Qed.

Lemma endsWith_dollar (body : string) :
  endsWith (body +:+ "$") "$" (strlen (body +:+ "$")) = true.
Proof.
  rewrite <- (append_empty (body +:+ "$")) at 1. rewrite append_assoc.
  replace (strlen (body +:+ "$")) with (strlen body + strlen "$")
    by (unfold strlen; rewrite length_append; lia).
  apply endsWith_append.
Qed.

Lemma slice_drop_last (body : string) :
  slice (body +:+ "$") 0 (Some (-1)) = body.
Proof.
  unfold slice, relIndex, strlen. rewrite length_append. simpl String.length.
  change (0 <? 0) with false. change (-1 <? 0) with true. cbv iota.
  replace (Z.to_nat (Z.min 0 _)) with 0%nat by lia.
  replace (Z.to_nat _) with (String.length body) by lia.
  apply substring_prefix.
Qed.

Lemma makeSureAnchor_strip_end (body : string) :
  makeSureAnchor (body +:+ "$") false false = body.
Proof.
  unfold makeSureAnchor. rewrite endsWith_dollar. simpl. apply slice_drop_last.
Qed.

Lemma makeSureAnchor_keep_end (body : string) :
  makeSureAnchor (body +:+ "$") false true = body +:+ "$".
Proof. unfold makeSureAnchor. rewrite endsWith_dollar. reflexivity. Qed.

Lemma startsWith_append (body : string) :
  body <> "" -> startsWith (body +:+ "$") "^" = startsWith body "^".
Proof.
  destruct body as [|a body]; [done|]. intros _.
  unfold startsWith.
  change (String.prefix "^" (String a body +:+ "$"))
    with (if ascii_dec "^"%char a then String.prefix "" (body +:+ "$") else false).
  change (String.prefix "^" (String a body))
    with (if ascii_dec "^"%char a then String.prefix "" body else false).
  destruct (ascii_dec "^"%char a); [|done]. by destruct body.
Qed.

(** C3 (amended): in forward-search mode the end anchor of a closer
    [/body$/] is removed by the normalization: the expression that is run is
    the one of [/body/] with the [g] flag, so [match] finds the closer
    wherever [/body/] matches from the position on; the end anchor is kept
    (or added) only for the suffix check. *)
Theorem forward_search_drops_end_anchor body fl i line position st :
  body <> "" -> startsWith body "^" = false ->
  endsWith body "$" (strlen body) = false ->
  normalizeSource (body +:+ "$") NONE = body /\
  normalizeSource (body +:+ "$") END = body +:+ "$" /\
  match_ line position DEFAULT
    (PRegExp {| source := body +:+ "$"; flags := fl; lastIndex := i |}) st
  = match_ line position DEFAULT
      (PRegExp {| source := body; flags := fl; lastIndex := i |}) st.
Proof.
  intros Hne Hs He.
  assert (H1 : normalizeSource (body +:+ "$") NONE = body).
  { unfold normalizeSource.
    replace (makeSureAnchor (body +:+ "$") true false) with (body +:+ "$")
      by (unfold makeSureAnchor; simpl; by rewrite startsWith_append, Hs).
    apply makeSureAnchor_strip_end. }
  assert (H2 : normalizeSource body NONE = body).
  { unfold normalizeSource, makeSureAnchor. rewrite Hs. simpl. by rewrite He. }
  split; [done|]. split.
  - unfold normalizeSource.
    replace (makeSureAnchor (body +:+ "$") true false) with (body +:+ "$")
      by (unfold makeSureAnchor; simpl; by rewrite startsWith_append, Hs).
    apply makeSureAnchor_keep_end.
  - unfold match_, getCachedRegExp. cbn [source flags]. by rewrite H1, H2.
Qed.

End Anchors.

(** * The token dispatcher at a layer boundary *)

Section DispatcherFacts.

Context {engine : RegExpEngine} {host : Host}.

Lemma syncState_not_impossible arena st stream layer :
  syncState arena st stream layer <> Throws Impossible.
Proof.
  unfold syncState, popStateContext.
  destruct (l_open layer && _); [done|].
  destruct (negb (l_open layer) && _); [|done].
  by destruct (stateContext st).
Qed.


(** [tokenUntil] has no [throw]; only a pop of an empty embedded-mode stack
    inside it can fail. *)
Lemma tokenUntil_not_impossible arena stream st until shift sync :
  tokenUntil arena stream st until shift sync <> Throws Impossible.
Proof.
  unfold tokenUntil.
  destruct (match getLocalMode st ≫= modeToken with Some _ => _ | None => _ end)
    as [[style0 stream0] st0].
  destruct (firstLayer st0) as [layer|]; [|done].
  destruct (ss_pos stream0 =? until); [|done].
  destruct sync; [|done]. simpl.
  pose proof (syncState_not_impossible arena st0 stream0 layer).
  by destruct (syncState arena st0 stream0 layer) as [?|[]|].
Qed.



End DispatcherFacts.

(** * The regular-expression cache does not change what a scan finds *)

Section CacheFacts.

Context {engine : RegExpEngine}.

(** ** Keys of the cache are injective on expressions with JavaScript flags *)

Lemma flagChar_not_dollar (c : ascii) :
  flagChar c = true -> Ascii.eqb c "$" = false.
Proof. destruct (Ascii.eqb_spec c "$"); [subst; discriminate | done]. Qed.

Lemma afterLast_valid (f : string) :
  validFlags f = true -> afterLast "$" f = None.
Proof.
  induction f as [|c f IH]; [done|]. simpl. intros H.
  apply andb_true_iff in H as [Hc Hf]. by rewrite (IH Hf), flagChar_not_dollar.
Qed.

Lemma afterLast_append (s f : string) :
  validFlags f = true -> afterLast "$" (s +:+ String "$" f) = Some f.
Proof.
  intros Hf. induction s as [|a s IH].
  - change ("" +:+ String "$" f) with (String "$" f). simpl.
    by rewrite (afterLast_valid f Hf).
  - change (String a s +:+ String "$" f) with (String a (s +:+ String "$" f)).
    simpl. by rewrite IH.
Qed.

Lemma cacheKey_split (s f : string) :
  cacheKey s f = (s +:+ "tVes#aE") +:+ String "$" f.
Proof. unfold cacheKey. by rewrite append_assoc. Qed.

Lemma append_inj_r (t s1 s2 : string) : s1 +:+ t = s2 +:+ t -> s1 = s2.
Proof.
  revert s2. induction s1 as [|a s1 IH]; intros [|b s2] H.
  - done.
  - apply (f_equal String.length) in H. rewrite !length_append in H.
    simpl String.length in H. lia.
  - apply (f_equal String.length) in H. rewrite !length_append in H.
    simpl String.length in H. lia.
  - change (String a (s1 +:+ t) = String b (s2 +:+ t)) in H.
    injection H as -> H. f_equal. by apply IH.
Qed.

Lemma cacheKey_inj (s1 f1 s2 f2 : string) :
  validFlags f1 = true -> validFlags f2 = true ->
  cacheKey s1 f1 = cacheKey s2 f2 -> s1 = s2 /\ f1 = f2.
Proof.
  intros H1 H2 Hk.
  assert (Hf : f1 = f2).
  { apply (f_equal (afterLast "$")) in Hk.
    rewrite !cacheKey_split, !afterLast_append in Hk by done. by inversion Hk. }
  subst f2. split; [|done]. unfold cacheKey in Hk. by apply append_inj_r in Hk.
Qed.

Lemma validFlags_append (a b : string) :
  validFlags a = true -> validFlags b = true -> validFlags (a +:+ b) = true.
Proof.
  intros Ha Hb. induction a as [|c a IH]; [done|].
  change (String c a +:+ b) with (String c (a +:+ b)). simpl in *.
  apply andb_true_iff in Ha as [Hc Ha]. by rewrite Hc, IH.
Qed.

Lemma validFlags_removeChar (c : ascii) (f : string) :
  validFlags f = true -> validFlags (removeChar c f) = true.
Proof.
  induction f as [|a f IH]; [done|]. simpl. intros H.
  apply andb_true_iff in H as [Ha Hf].
  destruct (Ascii.eqb a c); simpl; [by apply IH | by rewrite Ha, IH].
Qed.

Lemma validFlags_normalize (f : string) (global : bool) :
  validFlags f = true -> validFlags (normalizeFlags f global) = true.
Proof.
  intros H. unfold normalizeFlags.
  destruct (global && _); [by apply validFlags_append|].
  destruct (negb global && _); [by apply validFlags_removeChar | done].
Qed.

(** ** One use of a cached expression *)

Lemma exec_fields (reg : RegExp) (input : string) :
  source (exec reg input).2 = source reg /\ flags (exec reg input).2 = flags reg.
Proof. unfold exec. by destruct (hasFlag "g" reg || hasFlag "y" reg). Qed.

Lemma exec_lastIndex (reg reg' : RegExp) (input : string) :
  source reg = source reg' -> flags reg = flags reg' ->
  exec (set_lastIndex (lastIndex reg) reg') input = exec reg input.
Proof.
  intros Hs Hf. destruct reg as [s f i], reg' as [s' f' i']. simpl in *. by subst.
Qed.

(** With a coherent cache, the expression that [getCachedRegExp] returns is
    the one that [new RegExp(source, flags)] would build, up to [lastIndex]. *)
Lemma getCachedRegExp_coherent st regExp anchor global :
  coherent (regExpCache st) -> validFlags (flags regExp) = true ->
  exists cached st',
    getCachedRegExp st regExp anchor global
    = (cacheKey (normalizeSource (source regExp) anchor)
                (normalizeFlags (flags regExp) global), cached, st') /\
    source cached = normalizeSource (source regExp) anchor /\
    flags cached = normalizeFlags (flags regExp) global /\
    exists c, st' = set_regExpCache c st /\
      forall reg, <[cacheKey (normalizeSource (source regExp) anchor)
                      (normalizeFlags (flags regExp) global) := reg]> c
                  = <[cacheKey (normalizeSource (source regExp) anchor)
                        (normalizeFlags (flags regExp) global) := reg]> (regExpCache st).
Proof.
  intros Hco Hv. unfold getCachedRegExp.
  set (src := normalizeSource (source regExp) anchor).
  set (fl := normalizeFlags (flags regExp) global).
  destruct (regExpCache st !! cacheKey src fl) as [cached|] eqn:E.
  - exists cached, st. split; [done|].
    destruct (Hco _ _ E) as [Hk Hvc].
    apply cacheKey_inj in Hk as [Hs Hf];
      [|by apply validFlags_normalize|done].
    split; [done|]. split; [done|].
    exists (regExpCache st). split; [by destruct st|done].
  - eexists _, _. split; [done|]. split; [done|]. split; [done|].
    eexists. split; [done|]. intros reg. simpl. apply insert_insert_eq.
Qed.

Lemma set_regExpCache_twice c c' st :
  set_regExpCache c (set_regExpCache c' st) = set_regExpCache c st.
Proof. done. Qed.

(** [match] on a regular expression with a coherent cache: the result is
    that of a fresh expression, and the cache receives the expression as
    [exec] leaves it. *)
Lemma match_regex line position mode (r : RegExp) st :
  coherent (regExpCache st) -> validFlags (flags r) = true ->
  let anchor := match mode with DEFAULT => NONE | PREFIX => END end in
  let global := match mode with DEFAULT => true | PREFIX => false end in
  let input := match mode with DEFAULT => line | PREFIX => substring line 0 position end in
  let index := match mode with DEFAULT => position | PREFIX => 0 end in
  let src := normalizeSource (source r) anchor in
  let fl := normalizeFlags (flags r) global in
  let run := exec {| source := src; flags := fl; lastIndex := index |} input in
  match_ line position mode (PRegExp r) st
  = (execResult run.1, set_regExpCache (<[cacheKey src fl := run.2]> (regExpCache st)) st).
Proof.
  intros Hco Hv. destruct mode; simpl.
  - destruct (getCachedRegExp_coherent st r NONE true Hco Hv)
      as (cached & st' & -> & Hs & Hf & c & -> & Hins).
    rewrite <- (exec_lastIndex
      {| source := normalizeSource (source r) NONE;
         flags := normalizeFlags (flags r) true; lastIndex := position |} cached)
      by done.
    simpl. destruct (exec _ line) as [res reg']. simpl.
    by rewrite Hins, set_regExpCache_twice.
  - destruct (getCachedRegExp_coherent st r END false Hco Hv)
      as (cached & st' & -> & Hs & Hf & c & -> & Hins).
    rewrite <- (exec_lastIndex
      {| source := normalizeSource (source r) END;
         flags := normalizeFlags (flags r) false; lastIndex := 0 |} cached)
      by done.
    simpl. destruct (exec _ (substring line 0 position)) as [res reg']. simpl.
    by rewrite Hins, set_regExpCache_twice.
Qed.

(** ** Two runs side by side *)

Lemma stepped_refl a b : paired a b -> stepped a b a b.
Proof.
  intros (Hs & Ha & Hb). split; [done|]. split; [done|]. split; [done|].
  exists ∅. by rewrite !(left_id_L ∅ (∪)).
Qed.

Lemma stepped_paired a b a' b' : stepped a b a' b' -> paired a' b'.
Proof. intros (Hs & Ha & Hb & _). done. Qed.

Lemma stepped_trans a b a1 b1 a2 b2 :
  stepped a b a1 b1 -> stepped a1 b1 a2 b2 -> stepped a b a2 b2.
Proof.
  intros (_ & _ & _ & W1 & Ha1 & Hb1) (Hs & Ha & Hb & W2 & Ha2 & Hb2).
  split; [done|]. split; [done|]. split; [done|]. exists (W2 ∪ W1).
  by rewrite Ha2, Hb2, Ha1, Hb1, !(assoc_L (∪)).
Qed.

Lemma simulates_bind {X Y : Type} a b
    (m1 m2 : outcome (X * ITemplateState))
    (k1 k2 : X * ITemplateState -> outcome (Y * ITemplateState)) :
  simulates a b m1 m2 ->
  (forall x a' b', stepped a b a' b' -> simulates a' b' (k1 (x, a')) (k2 (x, b'))) ->
  simulates a b (bind m1 k1) (bind m2 k2).
Proof.
  intros Hm Hk.
  destruct m1 as [[x1 a1]| |], m2 as [[x2 b1]| |]; simpl in *; try done.
  destruct Hm as [-> Hst]. specialize (Hk x2 a1 b1 Hst).
  destruct (k1 (x2, a1)) as [[y1 a2]| |], (k2 (x2, b1)) as [[y2 b2]| |];
    simpl in *; try done.
  destruct Hk as [-> Hst2]. split; [done|]. by eapply stepped_trans.
Qed.

Lemma simulates_done {X : Type} a b (x : X) :
  paired a b -> simulates a b (Done (x, a)) (Done (x, b)).
Proof. intros H. split; [done | by apply stepped_refl]. Qed.

Lemma simulates_step {X : Type} a b a1 b1 (r1 r2 : outcome (X * ITemplateState)) :
  stepped a b a1 b1 -> simulates a1 b1 r1 r2 -> simulates a b r1 r2.
Proof.
  intros Hst Hr. destruct r1 as [[x1 a2]| |], r2 as [[x2 b2]| |]; simpl in *; try done.
  destruct Hr as [-> Hst2]. split; [done|]. by eapply stepped_trans.
Qed.

Lemma coherent_insert (c : gmap string RegExp) (reg : RegExp) :
  coherent c -> validFlags (flags reg) = true ->
  coherent (<[cacheKey (source reg) (flags reg) := reg]> c).
Proof.
  intros Hc Hv key r Hl. destruct (decide (cacheKey (source reg) (flags reg) = key)) as [<-|Hne].
  - rewrite lookup_insert_eq in Hl. by inversion Hl; subst.
  - rewrite lookup_insert_ne in Hl by done. by apply Hc.
Qed.

Lemma match_simulates line position mode pattern a b :
  paired a b -> wfSpec (Some pattern) -> blindSpec (Some pattern) ->
  simulates a b (Done (match_ line position mode pattern a))
                (Done (match_ line position mode pattern b)).
Proof.
  intros Hp Hwf Hblind. pose proof Hp as (Hs & Ha & Hb).
  destruct pattern as [pat|r|f].
  - simpl. destruct mode; [by apply simulates_done|].
    destruct (endsWith line pat position); by apply simulates_done.
  - simpl in Hwf. rewrite !match_regex by done.
    set (src := normalizeSource _ _). set (fl := normalizeFlags _ _).
    set (run := exec _ _).
    assert (Hsrc : source run.2 = src /\ flags run.2 = fl) by apply exec_fields.
    destruct Hsrc as [Hsrc Hfl].
    assert (Hv : validFlags (flags run.2) = true).
    { rewrite Hfl. unfold fl. destruct mode; by apply validFlags_normalize. }
    split; [done|]. split; [done|].
    split; [simpl; rewrite <- Hsrc, <- Hfl; by apply coherent_insert|].
    split; [simpl; rewrite <- Hsrc, <- Hfl; by apply coherent_insert|].
    exists {[cacheKey src fl := run.2]}. simpl.
    by rewrite !insert_union_singleton_l.
  - simpl in *. rewrite (Hblind line position a b Hs). by apply simulates_done.
Qed.

End CacheFacts.

Section CacheSimulation.

Context {engine : RegExpEngine}.

Lemma quiet_stepped f a b : quiet f -> paired a b -> stepped a b (f a) (f b).
Proof.
  intros Hq (Hs & Ha & Hb). destruct (Hq a b Hs) as (Hs' & Hca & Hcb).
  split; [done|]. rewrite Hca, Hcb. split; [done|]. split; [done|].
  exists ∅. by rewrite !(left_id_L ∅ (∪)).
Qed.

Lemma quiet_set_textBefore t : quiet (set_textBefore t).
Proof.
  intros [] [] H. unfold sameButCache in *. simpl in *. by inversion H; subst.
Qed.

Lemma quiet_push pattern : quiet (fun st => pushPatternContext st pattern).
Proof.
  intros [] [] H. unfold sameButCache in *. simpl in *. by inversion H; subst.
Qed.

Lemma quiet_set_patternContext c : quiet (set_patternContext c).
Proof.
  intros [] [] H. unfold sameButCache in *. simpl in *. by inversion H; subst.
Qed.

Lemma quiet_hook hook info : blindHook hook -> quiet (fun st => callHook hook st info).
Proof.
  intros Hb a b Hs. destruct (Hb a b info Hs) as [H1 H2].
  split; [done|]. split; [done|].
  apply sameButCache_sym_aux in Hs. by destruct (Hb b a info Hs).
Qed.

Lemma checkEscape_simulates line k escape a b :
  paired a b -> wfSpec escape -> blindSpec escape ->
  simulates a b (Done (checkEscape a line k escape))
                (Done (checkEscape b line k escape)).
Proof.
  intros Hp Hwf Hbl. unfold checkEscape.
  destruct (present escape) as [e|] eqn:E; [|by apply simulates_done].
  apply present_Some in E. subst escape.
  pose proof (match_simulates line k PREFIX e a b Hp Hwf Hbl) as H.
  destruct (match_ line k PREFIX e a) as [[p1 m1] a1],
           (match_ line k PREFIX e b) as [[p2 m2] b1].
  destruct H as [Heq Hst]. inversion Heq; subst. by split.
Qed.

Section Specs.

Variables (line : string) (pattern : PatternLike) (escape : option PatternLike).
Hypothesis Hpattern : wfSpec (Some pattern) /\ blindSpec (Some pattern).
Hypothesis Hescape : wfSpec escape /\ blindSpec escape.

Lemma matchWithEscape_loop_simulates fuel :
  forall p m e a b,
    paired a b ->
    simulates a b (matchWithEscape_loop fuel line pattern escape p m e a)
                  (matchWithEscape_loop fuel line pattern escape p m e b).
Proof.
  destruct Hpattern as [Hwf Hbl], Hescape as [Hwfe Hble].
  induction fuel as [|fuel IH]; intros p m e a b Hp; simpl; [done|].
  destruct (p =? -1); [by apply simulates_done|].
  pose proof (checkEscape_simulates line p escape a b Hp Hwfe Hble) as Hc.
  destruct (checkEscape a line p escape) as [e1 a1],
           (checkEscape b line p escape) as [e2 b1].
  destruct Hc as [<- Hst1].
  destruct e1; simpl; [|by split].
  pose proof (match_simulates line (p + matchedLength m) DEFAULT pattern a1 b1
                (stepped_paired _ _ _ _ Hst1) Hwf Hbl) as Hm.
  destruct (match_ _ _ _ _ a1) as [[p1 m1] a2], (match_ _ _ _ _ b1) as [[p2 m2] b2].
  destruct Hm as [Heq Hst2]. inversion Heq; subst.
  eapply simulates_step; [exact Hst1|].
  eapply simulates_step; [exact Hst2|].
  apply IH. by eapply stepped_paired.
Qed.

Lemma matchWithEscape_simulates fuel position a b :
  paired a b ->
  simulates a b (matchWithEscape fuel line position pattern escape a)
                (matchWithEscape fuel line position pattern escape b).
Proof.
  intros Hp. destruct Hpattern as [Hwf Hbl]. unfold matchWithEscape.
  pose proof (match_simulates line position DEFAULT pattern a b Hp Hwf Hbl) as Hm.
  destruct (match_ _ _ _ _ a) as [[p1 m1] a1], (match_ _ _ _ _ b) as [[p2 m2] b1].
  destruct Hm as [Heq Hst]. inversion Heq; subst.
  eapply simulates_step; [exact Hst|].
  eapply simulates_bind;
    [apply matchWithEscape_loop_simulates; by eapply stepped_paired|].
  intros [[p m] e] a2 b2 Hst2. simpl.
  split; [done|]. apply stepped_refl. by eapply stepped_paired.
Qed.

End Specs.

Lemma searchClose_simulates fuel line offset close escape s a b :
  wfSpec close /\ blindSpec close -> wfSpec escape /\ blindSpec escape ->
  paired a b ->
  simulates a b (searchClose fuel line offset close escape s a)
                (searchClose fuel line offset close escape s b).
Proof.
  intros Hc He Hp. unfold searchClose.
  destruct (present close) as [c|] eqn:E; [|by apply simulates_done].
  apply present_Some in E. subst close.
  eapply simulates_bind; [by apply matchWithEscape_simulates|].
  intros [p m] a1 b1 Hst. simpl.
  destruct (0 <=? p); (split; [done|]); apply stepped_refl; by eapply stepped_paired.
Qed.

Lemma searchChildren_simulates fuel arena line offset escape children :
  (forall id, wfSpec (open (arena id)) /\ blindSpec (open (arena id))) ->
  wfSpec escape /\ blindSpec escape ->
  forall s a b,
    paired a b ->
    simulates a b (searchChildren fuel arena line offset escape children s a)
                  (searchChildren fuel arena line offset escape children s b).
Proof.
  intros Ho He. induction children as [|child children IH]; intros s a b Hp; simpl;
    [by apply simulates_done|].
  eapply simulates_bind.
  - destruct (present (open (arena child))) as [o|] eqn:E; [|by apply simulates_done].
    apply present_Some in E.
    eapply simulates_bind.
    + apply matchWithEscape_simulates; [|done|done]. rewrite <- E. apply Ho.
    + intros [p m] a1 b1 Hst. simpl.
      destruct ((0 <=? p) && _); (split; [done|]); apply stepped_refl;
        by eapply stepped_paired.
  - intros s1 a1 b1 Hst. apply IH. by eapply stepped_paired.
Qed.

Lemma search_simulates fuel arena line offset P matched0 a b :
  specsBlind arena -> paired a b ->
  simulates a b (search fuel arena line offset P matched0 a)
                (search fuel arena line offset P matched0 b).
Proof.
  intros Hspecs Hp. rewrite !search_unfold.
  destruct (Hspecs P) as [(Hwo & Hwc & Hwe) (Hbo & Hbc & Hbe)].
  eapply simulates_bind; [by apply searchClose_simulates|].
  intros s1 a1 b1 Hst. apply searchChildren_simulates; [|done|by eapply stepped_paired].
  intros id. by destruct (Hspecs id) as [(? & _ & _) (? & _ & _)].
Qed.

Lemma hook_stepped hook line pos m pattern a b :
  blindHook hook -> paired a b ->
  stepped a b (callHook hook a (mkInfo line pos a m pattern))
              (callHook hook b (mkInfo line pos b m pattern)).
Proof.
  intros Hb Hp. pose proof Hp as (Hs & _ & _).
  unfold mkInfo. rewrite <- (sameButCache_textBefore a b Hs).
  by apply (quiet_stepped (fun st => callHook hook st _)); [apply quiet_hook|].
Qed.

Lemma transition_simulates cfg line offset P s a b :
  blindHook (beforeEnter cfg) -> blindHook (afterEnter cfg) ->
  blindHook (beforeExit cfg) -> blindHook (afterExit cfg) ->
  paired a b ->
  simulates a b (transition cfg line offset P s a) (transition cfg line offset P s b).
Proof.
  intros HbE HaE HbX HaX Hp. pose proof Hp as (Hs & _ & _).
  unfold transition. rewrite <- (sameButCache_textBefore a b Hs).
  set (t := textBefore a +:+ slice line offset (Some (pos s))).
  pose proof (quiet_stepped _ a b (quiet_set_textBefore t) Hp) as H1.
  eapply simulates_step; [exact H1|]. apply stepped_paired in H1.
  set (a1 := set_textBefore t a) in *. set (b1 := set_textBefore t b) in *.
  assert (Hfinish : forall (n : patId) a2 b2, paired a2 b2 ->
    simulates a2 b2
      (Done ({| l_pos := pos s; l_matched := matched s;
                l_open := match found s with PUSH => true | _ => false end;
                l_prePattern := P; l_nextPattern := n |}, set_textBefore "" a2))
      (Done ({| l_pos := pos s; l_matched := matched s;
                l_open := match found s with PUSH => true | _ => false end;
                l_prePattern := P; l_nextPattern := n |}, set_textBefore "" b2))).
  { intros n a2 b2 Hp2. split; [done|]. by apply quiet_stepped; [apply quiet_set_textBefore|]. }
  assert (Hpop : paired a1 b1 ->
    simulates a1 b1
      (let* (nextPattern0, st0) :=
         let st := callHook (beforeExit cfg) a1 (mkInfo line (pos s) a1 (matched s) P) in
         let* st1 := popPatternContext st in
         let st2 := callHook (afterExit cfg) st1 (mkInfo line (pos s) st1 (matched s) P) in
         let* nextPattern0 := getCurrentPattern st2 in Done (nextPattern0, st2) in
       Done ({| l_pos := pos s; l_matched := matched s;
                l_open := match found s with PUSH => true | _ => false end;
                l_prePattern := P; l_nextPattern := nextPattern0 |},
             set_textBefore "" st0))
      (let* (nextPattern0, st0) :=
         let st := callHook (beforeExit cfg) b1 (mkInfo line (pos s) b1 (matched s) P) in
         let* st1 := popPatternContext st in
         let st2 := callHook (afterExit cfg) st1 (mkInfo line (pos s) st1 (matched s) P) in
         let* nextPattern0 := getCurrentPattern st2 in Done (nextPattern0, st2) in
       Done ({| l_pos := pos s; l_matched := matched s;
                l_open := match found s with PUSH => true | _ => false end;
                l_prePattern := P; l_nextPattern := nextPattern0 |},
             set_textBefore "" st0))).
  { intros Hp1. cbv zeta.
    pose proof (hook_stepped (beforeExit cfg) line (pos s) (matched s) P a1 b1 HbX Hp1) as H2.
    eapply simulates_step; [exact H2|]. apply stepped_paired in H2.
    set (a2 := callHook (beforeExit cfg) a1 _) in *.
    set (b2 := callHook (beforeExit cfg) b1 _) in *.
    pose proof H2 as (Hs2 & _ & _).
    unfold popPatternContext. rewrite <- (sameButCache_context a2 b2 Hs2).
    destruct (patternContext a2) as [|q pre]; [done|]. simpl.
    pose proof (quiet_stepped _ a2 b2 (quiet_set_patternContext pre) H2) as H3.
    eapply simulates_step; [exact H3|]. apply stepped_paired in H3.
    set (a3 := set_patternContext pre a2) in *.
    set (b3 := set_patternContext pre b2) in *.
    pose proof (hook_stepped (afterExit cfg) line (pos s) (matched s) P a3 b3 HaX H3) as H4.
    eapply simulates_step; [exact H4|]. apply stepped_paired in H4.
    set (a4 := callHook (afterExit cfg) a3 _) in *.
    set (b4 := callHook (afterExit cfg) b3 _) in *.
    pose proof H4 as (Hs4 & _ & _).
    unfold getCurrentPattern. rewrite <- (sameButCache_context a4 b4 Hs4).
    destruct (patternContext a4) as [|n rest]; [done|]. simpl. by apply Hfinish. }
  destruct (found s); [|by apply Hpop|by apply Hpop].
  cbv zeta. simpl bind.
  pose proof (hook_stepped (beforeEnter cfg) line (pos s) (matched s) (nextPattern s)
                a1 b1 HbE H1) as H2.
  eapply simulates_step; [exact H2|]. apply stepped_paired in H2.
  set (a2 := callHook (beforeEnter cfg) a1 _) in *.
  set (b2 := callHook (beforeEnter cfg) b1 _) in *.
  pose proof (quiet_stepped _ a2 b2 (quiet_push (nextPattern s)) H2) as H3.
  eapply simulates_step; [exact H3|]. apply stepped_paired in H3. simpl in H3.
  set (a3 := pushPatternContext a2 (nextPattern s)) in *.
  set (b3 := pushPatternContext b2 (nextPattern s)) in *.
  pose proof (hook_stepped (afterEnter cfg) line (pos s) (matched s) (nextPattern s)
                a3 b3 HaE H3) as H4.
  eapply simulates_step; [exact H4|]. apply stepped_paired in H4.
  by apply Hfinish.
Qed.

Lemma createLayers_loop_simulates cfg line :
  cacheBlind cfg ->
  forall fuel offset matched0 acc a b,
    paired a b ->
    simulates a b (createLayers_loop fuel cfg line offset matched0 acc a)
                  (createLayers_loop fuel cfg line offset matched0 acc b).
Proof.
  intros (Hspecs & HbE & HaE & HbX & HaX).
  induction fuel as [|fuel IH]; intros offset matched0 acc a b Hp; simpl; [done|].
  destruct (offset <? strlen line); [|by apply simulates_done].
  pose proof Hp as (Hs & _ & _).
  unfold getCurrentPattern. rewrite <- (sameButCache_context a b Hs).
  destruct (patternContext a) as [|P rest]; [done|]. simpl.
  eapply simulates_bind; [by apply search_simulates|].
  intros s a1 b1 Hst. simpl. pose proof (stepped_paired _ _ _ _ Hst) as Hp1.
  assert (Hgo : simulates a1 b1
    (let* (layer, st0) := transition cfg line offset P s a1 in
     createLayers_loop fuel cfg line (pos s + matchedLength (matched s))
       (matched s) (acc ++ [layer]) st0)
    (let* (layer, st0) := transition cfg line offset P s b1 in
     createLayers_loop fuel cfg line (pos s + matchedLength (matched s))
       (matched s) (acc ++ [layer]) st0)).
  { eapply simulates_bind; [by apply transition_simulates|].
    intros layer a2 b2 Hst2. apply IH. by eapply stepped_paired. }
  destruct (found s); [done | done |].
  pose proof Hp1 as (Hs1 & _ & _).
  rewrite <- (sameButCache_textBefore a1 b1 Hs1).
  split; [done|]. by apply quiet_stepped; [apply quiet_set_textBefore|].
Qed.

(** C5: layer computation is deterministic and idempotent.  Two runs of
    [createLayers] on the same line and offset, from states that are equal
    except perhaps for what the regular-expression cache holds, end the same
    way, with the same layers and with states that are equal except perhaps
    for the cache; from two identical copies the resulting states are
    identical; and so they are when the second copy starts with the cache
    that the first run has filled ([copyState] shares the cache object). *)
Theorem createLayers_deterministic fuel cfg line offset st1 st2 :
  cacheBlind cfg -> paired st1 st2 ->
  sameRun (createLayers fuel cfg st1 line offset)
          (createLayers fuel cfg st2 line offset) /\
  (regExpCache st2 = regExpCache st1 ->
   createLayers fuel cfg st2 line offset = createLayers fuel cfg st1 line offset) /\
  (forall layers st1',
      createLayers fuel cfg st1 line offset = Done (layers, st1') ->
      regExpCache st2 = regExpCache st1' ->
      createLayers fuel cfg st2 line offset = Done (layers, st1')).
Proof.
  intros Hcfg Hp.
  pose proof (createLayers_loop_simulates cfg line Hcfg fuel offset None [] st1 st2 Hp)
    as Hsim.
  unfold createLayers.
  assert (Heq : forall a b : ITemplateState,
             sameButCache a b -> regExpCache a = regExpCache b -> a = b).
  { intros [] [] H Hc. unfold sameButCache in H. simpl in *. inversion H. by subst. }
  split; [|split].
  - destruct (createLayers_loop _ _ _ _ _ _ st1) as [[l1 a]| |],
             (createLayers_loop _ _ _ _ _ _ st2) as [[l2 b]| |]; simpl in *; try done.
    destruct Hsim as [-> (Hs & _)]. done.
  - intros Hc. destruct Hp as (Hs & _ & _).
    by rewrite (Heq st1 st2 Hs (eq_sym Hc)).
  - intros layers st1' H1 Hc. rewrite H1 in Hsim.
    destruct (createLayers_loop _ _ _ _ _ _ st2) as [[l2 b]| |]; simpl in *; try done.
    destruct Hsim as [<- (Hs & _ & _ & W & Ha & Hb)].
    f_equal. f_equal. symmetry. apply Heq; [done|].
    rewrite Hb, Hc, Ha. by rewrite (assoc_L (∪)), (idemp_L (∪) W).
Qed.

(** A run keeps the cache coherent. *)
Lemma createLayers_coherent fuel cfg line offset st layers st' :
  cacheBlind cfg -> coherent (regExpCache st) ->
  createLayers fuel cfg st line offset = Done (layers, st') ->
  coherent (regExpCache st').
Proof.
  intros Hcfg Hco H.
  pose proof (createLayers_loop_simulates cfg line Hcfg fuel offset None [] st st) as Hsim.
  unfold createLayers in H. rewrite H in Hsim.
  by destruct Hsim as [_ (_ & ? & _)].
Qed.

(** ** The preset grammar leaves the cache alone *)

Lemma blindHook_None : blindHook None.
Proof. intros a b info H. done. Qed.

Lemma blindHook_defaultBeforeEnter : blindHook (Some defaultBeforeEnter).
Proof.
  intros [] [] info H. unfold sameButCache in *. simpl in *. by inversion H; subst.
Qed.

Lemma blindHook_defaultAfterExit : blindHook (Some defaultAfterExit).
Proof.
  intros [] [] info H. unfold sameButCache in *. simpl in *.
  inversion H; subst. unfold defaultAfterExit. simpl.
  destruct (i_pattern info); [|done]. by destruct (_ || _).
Qed.

Lemma blindHook_compose (h1 h2 : option Callback) :
  blindHook h1 -> blindHook h2 ->
  blindHook (Some (fun st info => callHook h2 (callHook h1 st info) info)).
Proof.
  intros H1 H2 a b info Hs. simpl.
  destruct (H1 a b info Hs) as [Hs1 Hc1].
  destruct (H2 _ _ info Hs1) as [Hs2 Hc2]. split; [done | congruence].
Qed.

Lemma templateOpen_blind : blindSpec (Some (PFunction templateOpen)).
Proof.
  intros text from [] [] H. unfold sameButCache in H. simpl in H.
  inversion H; subst. reflexivity.
Qed.

Lemma defaultArena_blind baseMode codeMode : specsBlind (defaultArena baseMode codeMode).
Proof.
  pose proof templateOpen_blind as Ht.
  intros id. do 9 (destruct id as [|id]; [by repeat split|]). by repeat split.
Qed.

Lemma finalParserConfig_cacheBlind parserConfig :
  cacheBlind parserConfig -> cacheBlind (finalParserConfig parserConfig).
Proof.
  intros (Hspecs & HbE & HaE & HbX & HaX).
  split; [|split; [|split; [done|split; [done|]]]].
  - intros id. simpl. destruct (id =? 0)%nat.
    + destruct (Hspecs (self parserConfig)) as [(_ & _ & Hwe) (_ & _ & Hbe)].
      by repeat split.
    + destruct (id <=? template)%nat; [apply defaultArena_blind | apply Hspecs].
  - apply (blindHook_compose (Some defaultBeforeEnter)); [|done].
    apply blindHook_defaultBeforeEnter.
  - apply (blindHook_compose (Some defaultAfterExit)); [|done].
    apply blindHook_defaultAfterExit.
Qed.

End CacheSimulation.

(** * Copies of a state are independent *)

Section HeapFacts.

Context {host : Host}.

Import Heap.

#[local] Set Warnings "-clear-no-such-hyp".

Lemma alloc_spec (o : object) (h : heap) l h' :
  alloc o h = (l, h') -> ¬ (l ∈ dom h) ∧ h' = <[l := o]> h.
Proof. unfold alloc. intros [= <- <-]. split; [apply is_fresh | done]. Qed.

Lemma lookup_alloc_old (o : object) (h : heap) l k :
  l ∉ dom h -> k ∈ dom h -> (<[l := o]> h) !! k = h !! k.
Proof. intros Hl Hk. apply lookup_insert_ne. intros ->. done. Qed.

(** ** Footprints *)

Lemma pstack_cells h c F ps :
  pstack h c F ps ->
  forall k, k ∈ F -> exists pre pattern, h !! k = Some (OPatternContext pre pattern).
Proof.
  induction 1 as [|l pre pattern F ps Hl _ IH]; intros k Hk; [set_solver|].
  apply elem_of_union in Hk as [Hk|Hk]; [|by apply IH].
  apply elem_of_singleton in Hk. subst. eauto.
Qed.

Lemma sstack_cells h c F ss :
  sstack h c F ss ->
  forall k, k ∈ F ->
    (exists pre mode ls, h !! k = Some (OStateContext pre mode ls)) \/
    (exists v, h !! k = Some (OModeState v)).
Proof.
  induction 1 as [|l pre mode ls v F ss Hl Hls _ _ _ IH]; intros k Hk; [set_solver|].
  apply elem_of_union in Hk as [Hk|Hk]; [|by apply IH].
  apply elem_of_union in Hk as [Hk|Hk]; apply elem_of_singleton in Hk; subst; eauto.
Qed.

Lemma pstack_dom h c F ps : pstack h c F ps -> F ⊆ dom h.
Proof.
  intros H k Hk. destruct (pstack_cells _ _ _ _ H k Hk) as (? & ? & Hl).
  apply elem_of_dom. eauto.
Qed.

Lemma sstack_dom h c F ss : sstack h c F ss -> F ⊆ dom h.
Proof.
  intros H k Hk. apply elem_of_dom.
  destruct (sstack_cells _ _ _ _ H k Hk) as [(? & ? & ? & Hl)|(? & Hl)]; eauto.
Qed.

Lemma pstack_frame h h2 c F ps :
  pstack h c F ps -> (forall l, l ∈ F -> h2 !! l = h !! l) -> pstack h2 c F ps.
Proof.
  induction 1 as [|l pre pattern F ps Hl _ IH]; intros Hag; [constructor|].
  econstructor.
  - rewrite Hag; [done | set_solver].
  - apply IH. intros k Hk. apply Hag. set_solver.
Qed.

Lemma sstack_frame h h2 c F ss :
  sstack h c F ss -> (forall l, l ∈ F -> h2 !! l = h !! l) -> sstack h2 c F ss.
Proof.
  induction 1 as [|l pre mode ls v F ss Hl Hls Hnl Hnls _ IH]; intros Hag; [constructor|].
  econstructor; try done.
  - rewrite Hag; [done | set_solver].
  - rewrite Hag; [done | set_solver].
  - apply IH. intros k Hk. apply Hag. set_solver.
Qed.

Lemma owns_dom h s F v : owns h s F v -> F ⊆ dom h.
Proof.
  intros (st & Fp & Fs & Hs & Hp & Hss & Hc & ->).
  apply pstack_dom in Hp. apply sstack_dom in Hss.
  assert (s ∈ dom h) by (apply elem_of_dom; eauto).
  assert (customs st ∈ dom h) by (apply elem_of_dom; eauto).
  set_solver.
Qed.

Lemma owns_frame h h2 s F v :
  owns h s F v -> (forall l, l ∈ F -> h2 !! l = h !! l) -> owns h2 s F v.
Proof.
  intros (st & Fp & Fs & Hs & Hp & Hss & Hc & ->) Hag.
  exists st, Fp, Fs. split; [rewrite Hag; [done | set_solver]|].
  split; [eapply pstack_frame; [done|]; intros; apply Hag; set_solver|].
  split; [eapply sstack_frame; [done|]; intros; apply Hag; set_solver|].
  split; [rewrite Hag; [done | set_solver] | done].
Qed.

(** ** The copy *)

Lemma copyPatternContext_spec h c F ps :
  pstack h c F ps ->
  forall fuel, (length ps <= fuel)%nat ->
  exists c' h' F',
    copyPatternContext fuel c h = Done (c', h') /\
    pstack h' c' F' ps /\
    F' ## dom h /\ dom h ⊆ dom h' /\
    (forall l, l ∈ dom h -> h' !! l = h !! l).
Proof.
  induction 1 as [|l pre pattern F ps Hl Hp IH]; intros fuel Hfuel.
  - exists None, h, ∅. split; [by destruct fuel|]. split; [constructor|]. set_solver.
  - destruct fuel as [|fuel]; [simpl in Hfuel; lia|]. simpl. rewrite Hl.
    destruct (IH fuel) as (pre' & h1 & F1 & -> & Hp1 & Hd1 & Hsub1 & Hold1);
      [simpl in Hfuel; lia|].
    simpl. set (l' := fresh (dom h1)).
    assert (Hfresh : l' ∉ dom h1) by apply is_fresh.
    clearbody l'.
    pose proof (pstack_dom _ _ _ _ Hp1) as HF1.
    exists (Some l'), (<[l' := OPatternContext pre' pattern]> h1), ({[l']} ∪ F1).
    split; [done|]. split.
    { econstructor; [apply lookup_insert_eq|].
      eapply pstack_frame; [done|]. intros k Hk. apply lookup_alloc_old; set_solver. }
    split; [set_solver|]. split; [rewrite dom_insert_L; set_solver|].
    intros k Hk. rewrite lookup_alloc_old; [by apply Hold1 | done | set_solver].
Qed.

Lemma copyStateContext_spec h c F ss :
  sstack h c F ss ->
  forall fuel, (length ss <= fuel)%nat ->
  exists c' h' F',
    copyStateContext fuel c h = Done (c', h') /\
    sstack h' c' F' (copiedModes ss) /\
    F' ## dom h /\ dom h ⊆ dom h' /\
    (forall l, l ∈ dom h -> h' !! l = h !! l).
Proof.
  induction 1 as [|l pre mode ls v F ss Hl Hls Hnl Hnls Hs IH]; intros fuel Hfuel.
  - exists None, h, ∅. split; [by destruct fuel|]. split; [constructor|]. set_solver.
  - destruct fuel as [|fuel]; [simpl in Hfuel; lia|]. simpl. rewrite Hl.
    destruct (IH fuel) as (pre' & h1 & F1 & -> & Hs1 & Hd1 & Hsub1 & Hold1);
      [simpl in Hfuel; lia|].
    simpl. rewrite Hold1 by (apply elem_of_dom; eauto). rewrite Hls. simpl.
    set (ls' := fresh (dom h1)).
    assert (Hfresh : ls' ∉ dom h1) by apply is_fresh.
    set (l' := fresh (dom (<[ls' := OModeState (modeCopyState mode v)]> h1))).
    assert (Hfresh' : l' ∉ dom (<[ls' := OModeState (modeCopyState mode v)]> h1))
      by apply is_fresh.
    pose proof (sstack_dom _ _ _ _ Hs1) as HF1.
    rewrite dom_insert_L in Hfresh'. clearbody l'. clearbody ls'.
    exists (Some l'), (<[l' := OStateContext pre' mode ls']>
                        (<[ls' := OModeState (modeCopyState mode v)]> h1)),
           ({[l'; ls']} ∪ F1).
    split; [done|]. split.
    { simpl. econstructor.
      - apply lookup_insert_eq.
      - rewrite lookup_insert_ne by set_solver. apply lookup_insert_eq.
      - set_solver.
      - set_solver.
      - eapply sstack_frame; [done|]. intros k Hk.
        rewrite !lookup_insert_ne; [done | set_solver | set_solver]. }
    split; [set_solver|]. split; [rewrite !dom_insert_L; set_solver|].
    intros k Hk.
    rewrite !lookup_insert_ne; [by apply Hold1 | set_solver | set_solver].
Qed.

Lemma copyState_spec h s F v :
  owns h s F v ->
  exists s' h' F',
    copyState (length (v_patterns v) + length (v_modes v)) s h = Done (s', h') /\
    owns h' s' F'
      {| v_patterns := v_patterns v; v_modes := copiedModes (v_modes v);
         v_customs := v_customs v |} /\
    F' ## dom h /\
    (forall l, l ∈ dom h -> h' !! l = h !! l).
Proof.
  intros (st & Fp & Fs & Hs & Hp & Hss & Hc & ->).
  unfold copyState. rewrite Hs.
  destruct (alloc (OLayers _) h) as [la h0] eqn:Ea.
  apply alloc_spec in Ea as [Hla ->].
  set (h0 := <[la := _]> h).
  assert (Hold0 : forall l, l ∈ dom h -> h0 !! l = h !! l)
    by (intros; by apply lookup_alloc_old).
  assert (Hd0 : dom h0 = {[la]} ∪ dom h) by apply dom_insert_L.
  pose proof (pstack_dom _ _ _ _ Hp) as HFp.
  pose proof (sstack_dom _ _ _ _ Hss) as HFs.
  assert (Hp0 : pstack h0 (patternContext st) Fp (v_patterns v)).
  { eapply pstack_frame; [done|]. intros; apply Hold0; set_solver. }
  destruct (copyPatternContext_spec _ _ _ _ Hp0
              (length (v_patterns v) + length (v_modes v)))
    as (pc & h1 & Fp' & -> & Hp1 & Hdp & Hsub1 & Hold1); [lia|].
  simpl.
  assert (Hss1 : sstack h1 (stateContext st) Fs (v_modes v)).
  { eapply sstack_frame; [done|]. intros k Hk.
    rewrite Hold1 by set_solver. apply Hold0. set_solver. }
  destruct (copyStateContext_spec _ _ _ _ Hss1
              (length (v_patterns v) + length (v_modes v)))
    as (sc & h2 & Fs' & -> & Hs2 & Hds & Hsub2 & Hold2); [lia|].
  simpl. unfold cloneDeep.
  assert (Hcd : customs st ∈ dom h) by (apply elem_of_dom; eauto).
  rewrite Hold2, Hold1, Hold0, Hc by set_solver.
  destruct (alloc (OCustoms _) h2) as [cu h3] eqn:Eb.
  apply alloc_spec in Eb as [Hcu ->]. simpl.
  destruct (alloc (OState _) _) as [s' h4] eqn:Ec.
  apply alloc_spec in Ec as [Hs' ->]. rewrite dom_insert_L in Hs'.
  pose proof (pstack_dom _ _ _ _ Hp1) as HFp'.
  pose proof (sstack_dom _ _ _ _ Hs2) as HFs'.
  eexists s', _, ({[s'; cu]} ∪ Fp' ∪ Fs'). split; [done|]. split.
  { eexists _, Fp', Fs'. split; [apply lookup_insert_eq|]. simpl.
    split.
    { eapply pstack_frame; [done|]. intros k Hk.
      rewrite !lookup_insert_ne by set_solver. apply Hold2. set_solver. }
    split.
    { eapply sstack_frame; [done|]. intros k Hk.
      rewrite !lookup_insert_ne; [done | set_solver | set_solver]. }
    split; [|done].
    rewrite lookup_insert_ne by set_solver. apply lookup_insert_eq. }
  split; [set_solver|].
  intros k Hk.
  rewrite !lookup_insert_ne by set_solver.
  rewrite Hold2, Hold1 by set_solver. by apply Hold0.
Qed.

(** ** Writes *)

(** A write to a state touches only the objects of that state and objects
    that it allocates, and changes what the state denotes as [written] says. *)
Lemma perform_spec h s F v w h2 :
  owns h s F v -> perform s w h = Done h2 ->
  exists F2,
    owns h2 s F2 (written w v) /\
    F2 ⊆ F ∪ (dom h2 ∖ dom h) /\
    dom h ⊆ dom h2 /\
    (forall l, l ∈ dom h -> l ∉ F -> h2 !! l = h !! l).
Proof.
  intros (st & Fp & Fs & Hs & Hp & Hss & Hc & ->) Hw.
  pose proof (pstack_dom _ _ _ _ Hp) as HFp.
  pose proof (sstack_dom _ _ _ _ Hss) as HFs.
  pose proof (pstack_cells _ _ _ _ Hp) as Cp.
  pose proof (sstack_cells _ _ _ _ Hss) as Cs.
  assert (Hsd : s ∈ dom h) by (apply elem_of_dom; eauto).
  assert (Hcd : customs st ∈ dom h) by (apply elem_of_dom; eauto).
  assert (HsFp : s ∉ Fp).
  { intros Hk. destruct (Cp _ Hk) as (? & ? & Hk'). congruence. }
  assert (HsFs : s ∉ Fs).
  { intros Hk. destruct (Cs _ Hk) as [(? & ? & ? & Hk')|(? & Hk')]; congruence. }
  assert (HcFp : customs st ∉ Fp).
  { intros Hk. destruct (Cp _ Hk) as (? & ? & Hk'). congruence. }
  assert (HcFs : customs st ∉ Fs).
  { intros Hk. destruct (Cs _ Hk) as [(? & ? & ? & Hk')|(? & Hk')]; congruence. }
  assert (Hsc : s <> customs st) by (intros Heq; rewrite <- Heq in Hc; congruence).
  assert (Hmode : forall k x, h !! k = Some (OModeState x) ->
                              ¬ (k ∈ Fp) ∧ k ≠ s ∧ k ≠ customs st).
  { intros k x Hk. split; [|split]; [|congruence|congruence].
    intros Hin. destruct (Cp _ Hin) as (? & ? & Hk'). congruence. }
  clear Cp Cs.
  unfold perform in Hw. rewrite Hs in Hw.
  destruct w as [pattern| |mode x| |key x|x]; simpl in Hw.
  - (* push a pattern *)
    clear Hmode.
    set (l := fresh (dom h)) in *.
    assert (Hl : l ∉ dom h) by apply is_fresh.
    clearbody l.
    inversion Hw; subst h2. clear Hw.
    exists ({[s; customs st]} ∪ ({[l]} ∪ Fp) ∪ Fs).
    split; [|split; [|split]].
    + eexists _, _, Fs. split; [apply lookup_insert_eq|]. simpl.
      split.
      { econstructor.
        - rewrite lookup_insert_ne by set_solver. apply lookup_insert_eq.
        - eapply (pstack_frame h); [eassumption|]. intros k Hk.
          rewrite !lookup_insert_ne; [done | set_solver | set_solver]. }
      split.
      { eapply (sstack_frame h); [eassumption|]. intros k Hk.
        rewrite !lookup_insert_ne; [done | set_solver | set_solver]. }
      split; [|done].
      rewrite !lookup_insert_ne; [done | set_solver | set_solver].
    + rewrite !dom_insert_L. set_solver.
    + rewrite !dom_insert_L. set_solver.
    + intros k Hk HkF. rewrite !lookup_insert_ne; [done | set_solver | set_solver].
  - (* pop a pattern *)
    clear Hmode.
    destruct (patternContext st) as [l|] eqn:Ep; simpl in Hw; [|done].
    inversion Hp as [|l0 pre pattern Fp' ps' Hl Hp' E1 E2 E3]; subst.
    rewrite Hl in Hw. inversion Hw; subst h2. clear Hw.
    exists ({[s; customs st]} ∪ Fp' ∪ Fs).
    split; [|split; [|split]].
    + eexists _, Fp', Fs. split; [apply lookup_insert_eq|]. simpl.
      rewrite <- E3. simpl.
      split.
      { eapply (pstack_frame h); [eassumption|]. intros k Hk.
        rewrite lookup_insert_ne; [done | set_solver]. }
      split.
      { eapply (sstack_frame h); [eassumption|]. intros k Hk.
        rewrite lookup_insert_ne; [done | set_solver]. }
      split; [|done]. rewrite lookup_insert_ne; [done | set_solver].
    + set_solver.
    + rewrite dom_insert_L. set_solver.
    + intros k Hk HkF. rewrite lookup_insert_ne; [done | set_solver].
  - (* push an embedded mode *)
    clear Hmode.
    set (ls := fresh (dom h)) in *.
    assert (Hls : ls ∉ dom h) by apply is_fresh.
    set (l := fresh (dom (<[ls := OModeState x]> h))) in *.
    assert (Hl : l ∉ dom (<[ls := OModeState x]> h)) by apply is_fresh.
    rewrite dom_insert_L in Hl. clearbody l. clearbody ls.
    inversion Hw; subst h2. clear Hw.
    exists ({[s; customs st]} ∪ Fp ∪ ({[l; ls]} ∪ Fs)).
    split; [|split; [|split]].
    + eexists _, Fp, _. split; [apply lookup_insert_eq|]. simpl.
      split.
      { eapply (pstack_frame h); [eassumption|]. intros k Hk.
        rewrite !lookup_insert_ne; [done | set_solver | set_solver | set_solver]. }
      split.
      { econstructor.
        - rewrite lookup_insert_ne by set_solver. apply lookup_insert_eq.
        - rewrite lookup_insert_ne by set_solver.
          rewrite lookup_insert_ne by set_solver. apply lookup_insert_eq.
        - intros Hin. apply Hl. apply elem_of_union_r. by apply HFs.
        - intros Hin. apply Hls. by apply HFs.
        - eapply (sstack_frame h); [eassumption|]. intros k Hk.
          rewrite !lookup_insert_ne; [done | set_solver | set_solver | set_solver]. }
      split; [|done].
      rewrite !lookup_insert_ne; [done | set_solver | set_solver | set_solver].
    + rewrite !dom_insert_L. set_solver.
    + rewrite !dom_insert_L. set_solver.
    + intros k Hk HkF.
      rewrite !lookup_insert_ne; [done | set_solver | set_solver | set_solver].
  - (* pop an embedded mode *)
    clear Hmode.
    destruct (stateContext st) as [l|] eqn:Ep; simpl in Hw; [|done].
    inversion Hss as [|l0 pre mode ls x Fs' ss' Hl Hls Hnl Hnls Hs' E1 E2 E3]; subst.
    rewrite Hl in Hw. inversion Hw; subst h2. clear Hw.
    exists ({[s; customs st]} ∪ Fp ∪ Fs').
    split; [|split; [|split]].
    + eexists _, Fp, Fs'. split; [apply lookup_insert_eq|]. simpl.
      rewrite <- E3. simpl.
      split.
      { eapply (pstack_frame h); [eassumption|]. intros k Hk.
        rewrite lookup_insert_ne; [done | set_solver]. }
      split.
      { eapply (sstack_frame h); [eassumption|]. intros k Hk.
        rewrite lookup_insert_ne; [done | set_solver]. }
      split; [|done]. rewrite lookup_insert_ne; [done | set_solver].
    + set_solver.
    + rewrite dom_insert_L. set_solver.
    + intros k Hk HkF. rewrite lookup_insert_ne; [done | set_solver].
  - (* write to customs *)
    clear Hmode.
    rewrite Hc in Hw. inversion Hw; subst h2. clear Hw.
    exists ({[s; customs st]} ∪ Fp ∪ Fs).
    split; [|split; [|split]].
    + exists st, Fp, Fs. split; [rewrite lookup_insert_ne; [done | set_solver]|].
      split.
      { eapply (pstack_frame h); [eassumption|]. intros k Hk.
        rewrite lookup_insert_ne; [done | set_solver]. }
      split.
      { eapply (sstack_frame h); [eassumption|]. intros k Hk.
        rewrite lookup_insert_ne; [done | set_solver]. }
      split; [apply lookup_insert_eq | done].
    + set_solver.
    + rewrite dom_insert_L. set_solver.
    + intros k Hk HkF. rewrite lookup_insert_ne; [done | set_solver].
  - (* the sub-mode writes to its state *)
    destruct (stateContext st) as [l|] eqn:Ep; simpl in Hw.
    + inversion Hss as [|l0 pre mode ls x0 Fs' ss' Hl Hls Hnl Hnls Hs' E1 E2 E3]; subst.
      rewrite Hl in Hw. inversion Hw; subst h2. clear Hw.
      assert (Hlls : l <> ls) by (intros Heq; rewrite Heq in Hl; congruence).
      assert (Hlsd : ls ∈ dom h) by (apply elem_of_dom; eauto).
      destruct (Hmode _ _ Hls) as (HlsFp & Hsls & Hcls). clear Hmode.
      exists ({[s; customs st]} ∪ Fp ∪ ({[l; ls]} ∪ Fs')).
      split; [|split; [|split]].
      * exists st, Fp, ({[l; ls]} ∪ Fs').
        split; [rewrite lookup_insert_ne; [done | set_solver]|].
        split.
        { eapply (pstack_frame h); [eassumption|]. intros k Hk.
          rewrite lookup_insert_ne; [done | set_solver]. }
        split.
        { rewrite Ep. simpl. rewrite <- E3. econstructor.
          - rewrite lookup_insert_ne; [done | set_solver].
          - apply lookup_insert_eq.
          - done.
          - done.
          - eapply (sstack_frame h); [eassumption|]. intros k Hk.
            rewrite lookup_insert_ne; [done | set_solver]. }
        split; [rewrite lookup_insert_ne; [done | set_solver] | done].
      * set_solver.
      * rewrite dom_insert_L. set_solver.
      * intros k Hk HkF. rewrite lookup_insert_ne; [done | set_solver].
    + clear Hmode. inversion Hw; subst h2. clear Hw.
      assert (Hnil : v_modes v = [] /\ Fs = ∅).
      { by inversion Hss. }
      destruct Hnil as [Hnil ->].
      exists ({[s; customs st]} ∪ Fp ∪ ∅).
      split; [|split; [|split]]; [|set_solver|set_solver|done].
      exists st, Fp, ∅. rewrite Ep. simpl. rewrite Hnil.
      split; [done|]. split; [done|]. split; [constructor | done].
Qed.

(** Writes to two states with disjoint objects do not interfere. *)
Lemma performAll_spec s1 s2 ws :
  forall h F1 F2 v1 v2 h',
    owns h s1 F1 v1 -> owns h s2 F2 v2 -> F1 ## F2 ->
    performAll s1 s2 ws h = Done h' ->
    exists F1' F2',
      owns h' s1 F1' (writtenAll true ws v1) /\
      owns h' s2 F2' (writtenAll false ws v2) /\
      F1' ## F2'.
Proof.
  induction ws as [|[first w] ws IH]; intros h F1 F2 v1 v2 h' H1 H2 Hd Hrun; simpl in Hrun.
  - inversion Hrun; subst. exists F1, F2. done.
  - apply bind_Done in Hrun as [h1 [Hw Hrun]].
    pose proof (owns_dom _ _ _ _ H1) as HF1.
    pose proof (owns_dom _ _ _ _ H2) as HF2.
    destruct first.
    + destruct (perform_spec _ _ _ _ _ _ H1 Hw) as (F1' & H1' & Hsub & Hdom & Hold).
      assert (H2' : owns h1 s2 F2 v2).
      { eapply owns_frame; [done|]. intros k Hk. apply Hold; set_solver. }
      destruct (IH h1 F1' F2 (written w v1) v2 h' H1' H2') as (G1 & G2 & ? & ? & ?);
        [set_solver | done |].
      exists G1, G2. done.
    + destruct (perform_spec _ _ _ _ _ _ H2 Hw) as (F2' & H2' & Hsub & Hdom & Hold).
      assert (H1' : owns h1 s1 F1 v1).
      { eapply owns_frame; [done|]. intros k Hk. apply Hold; set_solver. }
      destruct (IH h1 F1 F2' v1 (written w v2) h' H1' H2') as (G1 & G2 & ? & ? & ?);
        [set_solver | done |].
      exists G1, G2. done.
Qed.

(** C6: [copyState] produces an independent snapshot.  On a well-formed
    state it returns a new state object whose links of both stacks and whose
    [customs] are newly allocated objects; the copy holds the same patterns
    (the same identifiers into the arena) in the same order, the same entries
    of [customs], and the sub-mode states as each sub-mode's [copyState]
    copies them; the original is untouched.  Afterwards, whatever sequence of
    pushes and pops of either stack, writes to [customs] and writes of a
    sub-mode to its state is applied to the two states, each state denotes
    what its own writes make of it.  The copy of [customs] is that of
    [Heap.cloneDeep], the deep clone that the spec words; what index.ts
    itself decides are the links, the patterns and the sub-mode states. *)
Theorem copyState_independent h s F v :
  owns h s F v ->
  exists s' h' F',
    copyState (length (v_patterns v) + length (v_modes v)) s h = Done (s', h') /\
    (forall l, l ∈ dom h -> h' !! l = h !! l) /\
    owns h' s F v /\
    owns h' s' F'
      {| v_patterns := v_patterns v; v_modes := copiedModes (v_modes v);
         v_customs := v_customs v |} /\
    (forall l, l ∈ F' -> l ∉ dom h) /\
    forall ws h2,
      performAll s s' ws h' = Done h2 ->
      exists F1 F2,
        owns h2 s F1 (writtenAll true ws v) /\
        owns h2 s' F2
          (writtenAll false ws
             {| v_patterns := v_patterns v; v_modes := copiedModes (v_modes v);
                v_customs := v_customs v |}) /\
        F1 ## F2.
Proof.
  intros Ho.
  destruct (copyState_spec h s F v Ho) as (s' & h' & F' & Hc & Ho' & Hd & Hold).
  pose proof (owns_dom _ _ _ _ Ho) as HF.
  assert (Hkeep : owns h' s F v).
  { eapply owns_frame; [done|]. intros k Hk. apply Hold. set_solver. }
  exists s', h', F'. split; [done|]. split; [done|]. split; [done|].
  split; [done|]. split; [set_solver|].
  intros ws h2 Hrun.
  eapply performAll_spec; [exact Hkeep | exact Ho' | set_solver | exact Hrun].
Qed.

End HeapFacts.

(** * Further properties of the scanner *)

Section ScanInvariants.

Context {engine : RegExpEngine}.

(** ** More fuel does not change a result *)

Lemma matchWithEscape_loop_mono line pattern escape :
  forall fuel fuel' p m e st r,
    (fuel <= fuel')%nat ->
    matchWithEscape_loop fuel line pattern escape p m e st = Done r ->
    matchWithEscape_loop fuel' line pattern escape p m e st = Done r.
Proof.
  induction fuel as [|fuel IH]; intros fuel' p m e st r Hle H; [done|].
  destruct fuel' as [|fuel']; [lia|]. simpl in *.
  destruct (p =? -1); [done|].
  destruct (checkEscape st line p escape) as [e' st1].
  destruct (negb e'); [done|].
  destruct (match_ line (p + matchedLength m) DEFAULT pattern st1) as [[p' m'] st2].
  eapply IH; [lia | done].
Qed.

Lemma matchWithEscape_mono fuel fuel' line position pattern escape st r :
  (fuel <= fuel')%nat ->
  matchWithEscape fuel line position pattern escape st = Done r ->
  matchWithEscape fuel' line position pattern escape st = Done r.
Proof.
  intros Hle. unfold matchWithEscape.
  destruct (match_ line position DEFAULT pattern st) as [[p m] st1].
  intros H. apply bind_Done in H as [a [Ha H]].
  by rewrite (matchWithEscape_loop_mono _ _ _ _ _ _ _ _ _ _ Hle Ha).
Qed.

Lemma searchClose_mono fuel fuel' line offset close escape s st r :
  (fuel <= fuel')%nat ->
  searchClose fuel line offset close escape s st = Done r ->
  searchClose fuel' line offset close escape s st = Done r.
Proof.
  intros Hle. unfold searchClose. destruct (present close) as [c|]; [|done].
  intros H. apply bind_Done in H as [a [Ha H]].
  by rewrite (matchWithEscape_mono _ _ _ _ _ _ _ _ Hle Ha).
Qed.

Lemma searchChildren_mono fuel fuel' arena line offset escape children :
  (fuel <= fuel')%nat ->
  forall s st r,
    searchChildren fuel arena line offset escape children s st = Done r ->
    searchChildren fuel' arena line offset escape children s st = Done r.
Proof.
  intros Hle. induction children as [|child children IH]; intros s st r; [done|].
  simpl. intros H. apply bind_Done in H as [[s1 st1] [Ha H]].
  apply IH in H.
  destruct (present (open (arena child))) as [o|].
  - apply bind_Done in Ha as [a [Ha Hb]].
    by rewrite (matchWithEscape_mono _ _ _ _ _ _ _ _ Hle Ha); simpl; rewrite Hb.
  - by rewrite Ha.
Qed.

Lemma search_mono fuel fuel' arena line offset P matched0 st r :
  (fuel <= fuel')%nat ->
  search fuel arena line offset P matched0 st = Done r ->
  search fuel' arena line offset P matched0 st = Done r.
Proof.
  intros Hle. rewrite !search_unfold. intros H.
  apply bind_Done in H as [[s1 st1] [Ha H]].
  rewrite (searchClose_mono _ _ _ _ _ _ _ _ _ Hle Ha). simpl.
  by apply (searchChildren_mono fuel).
Qed.

(** ** The loop as a sequence of iterations *)

Lemma createLayers_loop_scans cfg line :
  forall fuel offset matched0 acc st ls st',
    createLayers_loop fuel cfg line offset matched0 acc st = Done (ls, st') ->
    exists new, ls = (acc ++ new)%list /\ scans cfg line offset matched0 st new st'.
Proof.
  induction fuel as [|fuel IH]; intros offset matched0 acc st ls st' H; [done|].
  simpl in H. destruct (Z.ltb_spec offset (strlen line)) as [Hlt|Hge].
  - apply bind_Done in H as [P [HP H]].
    apply bind_Done in H as [[s st1] [Hs H]].
    destruct (found s) eqn:Ef.
    + apply bind_Done in H as [[layer st2] [Ht H]].
      apply IH in H as (new & -> & Hnew).
      exists (layer :: new). split; [by rewrite <- app_assoc|].
      eapply scans_step; eauto. congruence.
    + apply bind_Done in H as [[layer st2] [Ht H]].
      apply IH in H as (new & -> & Hnew).
      exists (layer :: new). split; [by rewrite <- app_assoc|].
      eapply scans_step; eauto. congruence.
    + inversion H; subst. exists []. split; [by rewrite app_nil_r|].
      eapply scans_break; eauto.
  - inversion H; subst. exists []. split; [by rewrite app_nil_r|].
    by apply scans_end.
Qed.

Lemma createLayers_scans fuel cfg st line offset ls st' :
  createLayers fuel cfg st line offset = Done (ls, st') ->
  scans cfg line offset None st ls st'.
Proof.
  intros H. apply createLayers_loop_scans in H as (new & -> & H). exact H.
Qed.

(** ** What one iteration does *)

Lemma returns_Done {A : Type} (P : A -> Prop) (r : outcome A) (a : A) :
  returns P r -> r = Done a -> P a.
Proof. by intros H ->. Qed.

Lemma search_same fuel arena line offset P matched0 st s st1 :
  search fuel arena line offset P matched0 st = Done (s, st1) ->
  sameButCache st st1.
Proof.
  intros H.
  exact (proj1 (returns_Done _ _ _ (search_frame fuel arena line offset P matched0 st) H)).
Qed.

Lemma searchChildren_child fuel arena line offset escape children :
  forall s st s' st',
    searchChildren fuel arena line offset escape children s st = Done (s', st') ->
    s' = s \/
    (found s' = PUSH /\ 0 <= pos s' /\ existsb (Nat.eqb (nextPattern s')) children = true).
Proof.
  induction children as [|child children IH]; intros s st s' st' H; simpl in H.
  - inversion H. by left.
  - apply bind_Done in H as [[s1 st1] [Ha H]].
    apply IH in H.
    assert (Hs1 : s1 = s \/ (found s1 = PUSH /\ 0 <= pos s1 /\ nextPattern s1 = child)).
    { destruct (present (open (arena child))) as [o|]; [|inversion Ha; by left].
      apply bind_Done in Ha as [[[p m] st2] [_ Ha]].
      destruct (Z.leb_spec 0 p); simpl in Ha; [|inversion Ha; by left].
      destruct ((pos s =? -1) || (p <? pos s)); inversion Ha; [right | left]; done. }
    destruct H as [->|(Hf & Hp & Hin)].
    + destruct Hs1 as [->|(Hf & Hp & ->)]; [by left|right].
      split; [done|]. split; [done|]. simpl. by rewrite Nat.eqb_refl.
    + right. split; [done|]. split; [done|]. simpl. rewrite Hin. apply orb_true_r.
Qed.

(** A transition that the search finds lies at a position that is not
    negative; an opening enters one of the children of the current pattern. *)
Lemma search_found fuel arena line offset P matched0 st s st1 :
  search fuel arena line offset P matched0 st = Done (s, st1) ->
  found s <> NoneFound ->
  0 <= pos s /\ (found s = PUSH -> hasChild arena P (nextPattern s) = true).
Proof.
  rewrite search_unfold. intros H Hf.
  apply bind_Done in H as [[s1 st2] [Ha H]].
  pose proof (returns_Done _ _ _ (searchClose_frame _ _ _ _ _ _ _) Ha) as [_ Hc].
  simpl in Hc. apply searchChildren_child in H as [->|(Hp & Hpos & Hin)].
  - destruct Hc as [->|(Hpop & Hpos & _)]; [done|].
    split; [done|]. congruence.
  - by split.
Qed.

Lemma transition_effect cfg line offset P rest s st layer st2 :
  hooksKeepContext cfg ->
  patternContext st = P :: rest ->
  found s <> NoneFound ->
  transition cfg line offset P s st = Done (layer, st2) ->
  (found s = PUSH /\ l_open layer = true /\ l_nextPattern layer = nextPattern s /\
   patternContext st2 = nextPattern s :: P :: rest) \/
  (found s = POP /\ l_open layer = false /\
   exists Q rest', rest = Q :: rest' /\ l_nextPattern layer = Q /\
                   patternContext st2 = rest).
Proof.
  intros (HbE & HaE & HbX & HaX) Hctx Hf. unfold transition.
  destruct (found s) eqn:Ef; [| |done]; simpl.
  - intros [= <- <-]. left. split; [done|]. split; [done|]. split; [done|].
    cbn [patternContext set_textBefore]. rewrite HaE.
    cbn [patternContext pushPatternContext set_patternContext]. rewrite HbE.
    simpl. by rewrite Hctx.
  - unfold popPatternContext. rewrite HbX. simpl. rewrite Hctx. simpl.
    unfold getCurrentPattern. rewrite HaX. simpl.
    destruct rest as [|Q rest']; [done|]. simpl.
    intros [= <- <-]. right. split; [done|]. split; [done|].
    exists Q, rest'. split; [done|]. split; [done|].
    cbn [patternContext set_textBefore]. by rewrite HaX.
Qed.

Lemma transition_textBefore cfg line offset P s st layer st2 :
  transition cfg line offset P s st = Done (layer, st2) ->
  textBefore st2 = "" /\ layerEnd layer = pos s + matchedLength (matched s).
Proof.
  unfold transition. intros H.
  apply bind_Done in H as [[n st1] [_ H]]. by inversion H.
Qed.

Lemma getCurrentPattern_Done st P :
  getCurrentPattern st = Done P -> exists rest, patternContext st = P :: rest.
Proof.
  unfold getCurrentPattern. destruct (patternContext st) as [|Q rest]; [done|].
  intros [= ->]. by exists rest.
Qed.

(** ** The text since the last transition (index.ts 260, 273, 283) *)

Lemma substring_none (n : nat) (s : string) : String.substring n 0 s = "".
Proof. revert n. induction s as [|c s IH]; intros [|n]; simpl; auto. Qed.

Lemma slice_past_end (line : string) (offset : Z) :
  strlen line <= offset -> slice line offset None = "".
Proof.
  intros H. unfold slice, relIndex.
  assert (0 <= strlen line) by (unfold strlen; lia).
  destruct (Z.ltb_spec offset 0); [lia|].
  replace (Z.to_nat (strlen line - Z.min offset (strlen line))) with 0%nat by lia.
  apply substring_none.
Qed.

(** X1: after a scan, [state.textBefore] is the text of the line after the
    last transition; when the scan has found no transition the rest of the
    line is appended to what [textBefore] held before.  The hooks cannot
    change this: [textBefore] is emptied after they have run. *)
Theorem createLayers_textBefore fuel cfg st line offset ls st' :
  createLayers fuel cfg st line offset = Done (ls, st') ->
  textBefore st'
  = (match ls with [] => textBefore st | _ => "" end)
    +:+ slice line (lastEnd offset ls) None.
Proof.
  intros H. apply createLayers_scans in H.
  induction H as [offset m st Hge
                 |fuel' offset m st P s st1 Hlt HP Hs Hf
                 |fuel' offset m st P s st1 layer st2 ls st' Hlt HP Hs Hf Ht Hscan IH].
  - simpl. rewrite slice_past_end by done. symmetry. apply append_empty.
  - simpl. apply search_same, sameButCache_textBefore in Hs. by rewrite Hs.
  - apply transition_textBefore in Ht as [Ht Hend].
    rewrite IH, Ht. unfold lastEnd. simpl. rewrite Hend. by destruct ls.
Qed.

(** ** The layers and the pattern stack (index.ts 261-281) *)

Lemma replay_depth ls :
  forall context context',
    replay context ls = Some context' ->
    Z.of_nat (length context') = Z.of_nat (length context) + balance ls.
Proof.
  induction ls as [|l ls IH]; intros context context' H; simpl in H.
  - inversion H. simpl. lia.
  - destruct context as [|P pre]; [done|].
    destruct (negb (P =? l_prePattern l)%nat); [done|].
    change (balance (l :: ls)) with ((if l_open l then 1 else -1) + balance ls).
    destruct (l_open l).
    + apply IH in H. simpl length in *. lia.
    + destruct pre as [|Q pre']; [done|].
      destruct (Q =? l_nextPattern l)%nat; [|done].
      apply IH in H. simpl length in *. lia.
Qed.

(** X2: the layers of a line record the moves of the pattern stack.  Each
    layer leaves the pattern that is on top of the stack and arrives at the
    pattern that is on top afterwards, so that replaying the layers on the
    stack before the scan gives the stack after it; the depth changes by the
    number of opening layers minus the number of closing layers.  (The hooks
    are assumed not to assign [state.patternContext].) *)
Theorem createLayers_replay fuel cfg st line offset ls st' :
  hooksKeepContext cfg ->
  createLayers fuel cfg st line offset = Done (ls, st') ->
  replay (patternContext st) ls = Some (patternContext st') /\
  Z.of_nat (length (patternContext st'))
  = Z.of_nat (length (patternContext st)) + balance ls.
Proof.
  intros Hhooks H. apply createLayers_scans in H.
  assert (Hr : replay (patternContext st) ls = Some (patternContext st')).
  { induction H as [offset m st Hge
                   |fuel' offset m st P s st1 Hlt HP Hs Hf
                   |fuel' offset m st P s st1 layer st2 ls st' Hlt HP Hs Hf Ht Hscan IH].
    - done.
    - simpl. apply search_same, sameButCache_context in Hs. by rewrite Hs.
    - apply getCurrentPattern_Done in HP as [rest Hctx].
      apply search_same, sameButCache_context in Hs. rewrite Hs in Hctx.
      pose proof (transition_layer _ _ _ _ _ _ _ _ Ht) as (_ & _ & Hpre & _).
      destruct (transition_effect _ _ _ _ _ _ _ _ _ Hhooks Hctx Hf Ht)
        as [(_ & Ho & Hn & Hc)|(_ & Ho & Q & rest' & -> & Hn & Hc)];
        rewrite Hs, Hctx; simpl; rewrite Hpre, Nat.eqb_refl, Ho; simpl.
      + by rewrite Hn, <- Hc.
      + by rewrite Hn, Nat.eqb_refl, <- Hc. }
  split; [done|]. by apply replay_depth.
Qed.

(** X3: the pattern stack is a path of the grammar.  When every link of the
    stack holds a child of the pattern below it, this is still so after a
    scan, and every opening layer enters a child of the pattern it leaves.
    (The hooks are assumed not to assign [state.patternContext].) *)
Theorem createLayers_chain fuel cfg st line offset ls st' :
  hooksKeepContext cfg ->
  chain (arena cfg) (patternContext st) = true ->
  createLayers fuel cfg st line offset = Done (ls, st') ->
  chain (arena cfg) (patternContext st') = true /\
  Forall (fun l => l_open l = true ->
                   hasChild (arena cfg) (l_prePattern l) (l_nextPattern l) = true) ls.
Proof.
  intros Hhooks Hch H. apply createLayers_scans in H.
  induction H as [offset m st Hge
                 |fuel' offset m st P s st1 Hlt HP Hs Hf
                 |fuel' offset m st P s st1 layer st2 ls st' Hlt HP Hs Hf Ht Hscan IH].
  - by split.
  - split; [|done]. simpl. apply search_same, sameButCache_context in Hs. by rewrite <- Hs.
  - apply getCurrentPattern_Done in HP as [rest Hctx].
    destruct (search_found _ _ _ _ _ _ _ _ _ Hs Hf) as [_ Hchild].
    apply search_same, sameButCache_context in Hs. rewrite Hs in Hctx.
    pose proof (transition_layer _ _ _ _ _ _ _ _ Ht) as (_ & _ & Hpre & _).
    rewrite Hs, Hctx in Hch.
    destruct (transition_effect _ _ _ _ _ _ _ _ _ Hhooks Hctx Hf Ht)
      as [(Hpush & Ho & Hn & Hc)|(_ & Ho & Q & rest' & -> & Hn & Hc)].
    + destruct IH as [IH1 IH2].
      { rewrite Hc. simpl. by rewrite (Hchild Hpush). }
      split; [done|]. constructor; [|done]. intros _. rewrite Hpre, Hn. auto.
    + destruct IH as [IH1 IH2].
      { rewrite Hc. simpl in Hch. by apply andb_true_iff in Hch as [_ ?]. }
      split; [done|]. constructor; [|done]. by rewrite Ho.
Qed.

(** X4: a scan does not touch the stack of embedded modes; only the
    dispatcher pushes and pops sub-mode states.  (The hooks are assumed not
    to assign [state.stateContext].) *)
Theorem createLayers_keeps_modes fuel cfg st line offset ls st' :
  hooksKeepModes cfg ->
  createLayers fuel cfg st line offset = Done (ls, st') ->
  stateContext st' = stateContext st.
Proof.
  intros (HbE & HaE & HbX & HaX) H. apply createLayers_scans in H.
  induction H as [offset m st Hge
                 |fuel' offset m st P s st1 Hlt HP Hs Hf
                 |fuel' offset m st P s st1 layer st2 ls st' Hlt HP Hs Hf Ht Hscan IH].
  - done.
  - apply search_same in Hs. apply (f_equal stateContext) in Hs. simpl in *. congruence.
  - apply search_same in Hs. apply (f_equal stateContext) in Hs. simpl in Hs.
    rewrite IH, Hs. clear IH Hscan Hs. unfold transition in Ht.
    destruct (found s); [| |done]; simpl in Ht.
    + inversion Ht; subst. cbn [stateContext set_textBefore]. rewrite HaE.
      cbn [stateContext pushPatternContext set_patternContext]. by rewrite HbE.
    + apply bind_Done in Ht as [[n st3] [Hp Ht]]. inversion Ht; subst.
      apply bind_Done in Hp as [st4 [Hp Hq]].
      apply bind_Done in Hq as [n' [_ Hq]]. inversion Hq; subst.
      cbn [stateContext set_textBefore]. rewrite HaX.
      unfold popPatternContext in Hp.
      destruct (patternContext _); [done|]. inversion Hp; subst.
      cbn [stateContext set_patternContext]. by rewrite HbX.
Qed.

(** ** Placement of the layers (index.ts 227, 250, 281) *)

Lemma search_done_advances fuel arena line offset P matched0 st s st1 :
  literalGrammar arena ->
  search fuel arena line offset P matched0 st = Done (s, st1) ->
  advances line offset s.
Proof.
  intros Hg H.
  apply (search_mono fuel (fuel + String.length line + 2)) in H; [|lia].
  destruct (search_advances (fuel + String.length line + 2) arena line offset P
              matched0 st Hg) as (s' & Hs' & Hadv); [lia|].
  congruence.
Qed.

(** X5: with a grammar of literal strings the layers of a line lie in the
    line, in order and without overlap: each starts at or after the end of
    the one before (the first at or after the offset of the scan), covers at
    least one character and ends within the line. *)
Theorem createLayers_placed fuel cfg st line offset ls st' :
  literalGrammar (arena cfg) ->
  createLayers fuel cfg st line offset = Done (ls, st') ->
  placed line offset ls = true.
Proof.
  intros Hg H. apply createLayers_scans in H.
  induction H as [offset m st Hge
                 |fuel' offset m st P s st1 Hlt HP Hs Hf
                 |fuel' offset m st P s st1 layer st2 ls st' Hlt HP Hs Hf Ht Hscan IH].
  - done.
  - done.
  - apply (search_done_advances _ _ _ _ _ _ _ _ _ Hg) in Hs as [?|(Hle & Hlen & Hend)];
      [done|].
    pose proof (transition_layer _ _ _ _ _ _ _ _ Ht) as (Hpos & Hm & _ & _).
    apply transition_textBefore in Ht as [_ Hlayer].
    simpl. rewrite Hlayer, IH, Hpos, Hm.
    destruct (Z.leb_spec offset (pos s)); [|lia].
    destruct (Z.ltb_spec 0 (matchedLength (matched s))); [|lia].
    destruct (Z.leb_spec (pos s + matchedLength (matched s)) (strlen line)); [done|lia].
Qed.

(** ** What a layer sits on (index.ts 237-257) *)

Lemma literalOf_fmap (e : option string) : literalOf (PString <$> e) = e.
Proof. by destruct e. Qed.

Lemma searchClose_on fuel arena line offset P s st :
  literalGrammar arena -> (String.length line + 1 < fuel)%nat ->
  foundOn arena line P s ->
  exists s',
    searchClose fuel line offset (close (arena P)) (escape (arena P)) s st = Done (s', st) /\
    foundOn arena line P s'.
Proof.
  intros Hg Hfuel Hs. unfold searchClose.
  destruct (Hg P) as (_ & Hc & He). destruct (literalSpec_option _ He) as [e Hesc].
  destruct (present (close (arena P))) as [c|] eqn:Hp; [|by exists s].
  pose proof (present_Some _ _ Hp) as Hc'. rewrite Hc' in Hc.
  destruct c as [pat|r|f]; try done.
  rewrite Hesc.
  destruct (matchWithEscape_literal fuel line offset pat e st (present_literal _ _ Hp) Hfuel)
    as (r & -> & Hres). simpl.
  destruct (Z.leb_spec 0 r); [|by exists s].
  eexists. split; [done|]. unfold foundOn. simpl. exists pat.
  destruct Hres as [?|(_ & Hocc & Hfree)]; [lia|].
  destruct (Z.eqb_spec r (-1)); [lia|].
  by rewrite Hp, Hesc, literalOf_fmap.
Qed.

Lemma searchChildren_on fuel arena line offset P children :
  literalGrammar arena -> (String.length line + 1 < fuel)%nat ->
  forall s st,
    foundOn arena line P s ->
    exists s',
      searchChildren fuel arena line offset (escape (arena P)) children s st
      = Done (s', st) /\
      foundOn arena line P s'.
Proof.
  intros Hg Hfuel. destruct (Hg P) as (_ & _ & He).
  destruct (literalSpec_option _ He) as [e Hesc].
  induction children as [|child children IH]; intros s st Hs; simpl; [by exists s|].
  destruct (present (open (arena child))) as [o|] eqn:Hp; simpl; [|by apply IH].
  pose proof (present_Some _ _ Hp) as Ho.
  destruct (Hg child) as (Hlit & _ & _). rewrite Ho in Hlit.
  destruct o as [pat|r|f]; try done.
  rewrite Hesc.
  destruct (matchWithEscape_literal fuel line offset pat e st (present_literal _ _ Hp) Hfuel)
    as (r & -> & Hres). simpl.
  destruct ((0 <=? r) && _) eqn:E; simpl;
    [|by rewrite <- Hesc; apply IH].
  rewrite <- Hesc. apply IH. unfold foundOn. simpl. exists pat.
  apply andb_true_iff in E as [E _]. apply Z.leb_le in E.
  destruct Hres as [?|(_ & Hocc & Hfree)]; [lia|].
  destruct (Z.eqb_spec r (-1)); [lia|].
  by rewrite Hp, Hesc, literalOf_fmap.
Qed.

Lemma search_done_on fuel arena line offset P matched0 st s st1 :
  literalGrammar arena ->
  search fuel arena line offset P matched0 st = Done (s, st1) ->
  foundOn arena line P s.
Proof.
  intros Hg H.
  apply (search_mono fuel (fuel + String.length line + 2)) in H; [|lia].
  rewrite search_unfold in H.
  destruct (searchClose_on (fuel + String.length line + 2) arena line offset P
              {| found := NoneFound; pos := -1; matched := matched0; nextPattern := P |}
              st Hg) as (s1 & Hs1 & Hon1); [lia | done |].
  rewrite Hs1 in H. simpl in H.
  destruct (searchChildren_on (fuel + String.length line + 2) arena line offset P
              (childList (arena P)) Hg ltac:(lia) s1 st Hon1) as (s2 & Hs2 & Hon2).
  congruence.
Qed.

Lemma transition_next cfg line offset P s st layer st' :
  found s = PUSH ->
  transition cfg line offset P s st = Done (layer, st') ->
  l_nextPattern layer = nextPattern s.
Proof.
  unfold transition. intros -> H. simpl in H. by inversion H.
Qed.

(** X30: with a grammar of literal strings every layer sits on its
    delimiter: the text recorded in the layer is the opener of the pattern
    it enters, or the closer of the pattern it leaves, that text occurs in
    the line at the position of the layer, and the occurrence is not
    escaped by the escape of the pattern that the layer leaves. *)
Theorem createLayers_on_delimiters fuel cfg st line offset ls st' :
  literalGrammar (arena cfg) ->
  createLayers fuel cfg st line offset = Done (ls, st') ->
  Forall (onDelimiter (arena cfg) line) ls.
Proof.
  intros Hg H. apply createLayers_scans in H.
  induction H as [offset m st Hge
                 |fuel' offset m st P s st1 Hlt HP Hs Hf
                 |fuel' offset m st P s st1 layer st2 ls st' Hlt HP Hs Hf Ht Hscan IH].
  - constructor.
  - constructor.
  - constructor; [|exact IH].
    apply (search_done_on _ _ _ _ _ _ _ _ _ Hg) in Hs.
    pose proof (transition_layer _ _ _ _ _ _ _ _ Ht) as (Hpos & Hm & Hpre & Hopen).
    unfold foundOn in Hs. unfold onDelimiter. rewrite Hpos, Hm, Hpre, Hopen.
    destruct (found s) eqn:E; [| |done].
    + rewrite (transition_next _ _ _ _ _ _ _ _ E Ht). exact Hs.
    + exact Hs.
Qed.

End ScanInvariants.

(** * Further properties of the matcher *)

Section MatcherFacts.

Context {engine : RegExpEngine}.

(** X7: a forward search for a literal finds its leftmost occurrence at or
    after the position, and reports the literal itself as the matched text;
    without such an occurrence it reports [-1] and [null].  The state is not
    touched. *)
Theorem match_literal_leftmost line position pat st :
  pat <> "" ->
  exists i m,
    match_ line position DEFAULT (PString pat) st = ((i, m), st) /\
    ((i = -1 /\ m = None /\ forall j, position <= j -> ~ occursAt line pat j) \/
     (m = Some pat /\ position <= i /\ occursAt line pat i /\
      forall j, position <= j < i -> ~ occursAt line pat j)).
Proof.
  intros Hne. rewrite match_literal_forward.
  eexists _, _. split; [reflexivity|].
  destruct (indexOf_cases line pat position) as [Hi|Hi].
  - left. rewrite Hi. split; [done|]. split; [done|]. by apply indexOf_absent.
  - right. destruct (Z.leb_spec 0 (indexOf line pat position)); [|lia].
    split; [done|].
    destruct (indexOf_found line pat position _ Hne eq_refl Hi) as (Ho & Hle & Hmin).
    done.
Qed.

(** X8: the suffix check for a literal, at a position within the line,
    succeeds exactly when the literal occurs in the line ending at that
    position; it then reports the index where the literal starts. *)
Theorem match_literal_suffix line position pat st :
  pat <> "" -> 0 <= position <= strlen line ->
  exists i m,
    match_ line position PREFIX (PString pat) st = ((i, m), st) /\
    ((i = -1 /\ m = None /\ ~ occursAt line pat (position - strlen pat)) \/
     (i = position - strlen pat /\ m = Some pat /\ occursAt line pat i)).
Proof.
  intros Hne Hpos. simpl. unfold endsWith, clamp.
  replace (Z.max 0 (Z.min position (strlen line))) with position by lia.
  destruct (Z.ltb_spec (position - strlen pat) 0) as [Hneg|Hok].
  - eexists _, _. split; [reflexivity|]. left. split; [done|]. split; [done|].
    intros [H0 _]. lia.
  - destruct (String.eqb_spec
                (String.substring (Z.to_nat (position - strlen pat)) (String.length pat) line)
                pat) as [Heq|Hneq].
    + eexists _, _. split; [reflexivity|]. right. by repeat split.
    + eexists _, _. split; [reflexivity|]. left. split; [done|]. split; [done|].
      by intros [_ H].
Qed.

(** X9: a match of width zero that is escaped is searched for again at the
    same position, for ever: when a callback reports the position it was
    asked about, with no text, and the line before that position ends with
    the literal escape, [matchWithEscape] does not return. *)
Theorem matchWithEscape_escaped_zero_width fuel line position f m E st :
  E <> "" -> strlen E <= position ->
  endsWith line E position = true ->
  f line position st = (position, m) -> matchedLength m = 0 ->
  matchWithEscape fuel line position (PFunction f) (Some (PString E)) st = Timeout.
Proof.
  intros HE Hpos Hends Hf Hm. unfold matchWithEscape. simpl. rewrite Hf.
  assert (Hloop : forall e,
    matchWithEscape_loop fuel line (PFunction f) (Some (PString E)) position m e st
    = Timeout).
  { induction fuel as [|fuel IH]; intros e; [done|]. simpl.
    assert (0 <= strlen E) by (unfold strlen; lia).
    destruct (Z.eqb_spec position (-1)); [lia|].
    unfold checkEscape. destruct E as [|c E]; [done|]. simpl.
    rewrite Hends. destruct (Z.leb_spec 0 (position - strlen (String c E))); [|lia].
    simpl. rewrite Hm, Z.add_0_r, Hf. apply IH. }
  by rewrite Hloop.
Qed.

(** The loop of [matchWithEscape] on a literal whose occurrences do not
    overlap: it stops on the first occurrence that is not escaped. *)
Lemma matchWithEscape_loop_leftmost line pat (e : option string) st lo :
  pat <> "" -> apart line pat ->
  forall fuel pos escaped,
    occursAt line pat pos -> lo <= pos ->
    (forall k, lo <= k < pos -> occursAt line pat k -> escapedLit line e k = true) ->
    (Z.to_nat (strlen line - pos) + 1 < fuel)%nat ->
    exists r escaped',
      matchWithEscape_loop fuel line (PString pat) (PString <$> e) pos (Some pat) escaped st
      = Done (r, (if r =? -1 then None else Some pat), escaped', st)
      /\ (escaped' = true -> r = -1)
      /\ ((r = -1 /\
           forall k, lo <= k -> occursAt line pat k -> escapedLit line e k = true) \/
          (pos <= r /\ occursAt line pat r /\ escapedLit line e r = false /\
           forall k, lo <= k < r -> occursAt line pat k -> escapedLit line e k = true)).
Proof.
  intros Hne Hapart.
  induction fuel as [|fuel IH]; intros pos escaped Hocc Hlo Hbefore Hfuel; [lia|].
  simpl. pose proof Hocc as [Hpos _].
  destruct (Z.eqb_spec pos (-1)); [lia|].
  rewrite checkEscape_literal.
  destruct (escapedLit line e pos) eqn:Hesc; simpl.
  - assert (Hgap : forall k, lo <= k < pos + strlen pat -> occursAt line pat k ->
                             escapedLit line e k = true).
    { intros k Hk Hok. destruct (Z.lt_trichotomy k pos) as [Hlt|[->|Hgt]].
      - apply Hbefore; [lia | done].
      - done.
      - pose proof (Hapart pos k Hocc Hok Hgt). lia. }
    pose proof (indexOf_cases line pat (pos + strlen pat)) as [Hi|Hi].
    + rewrite Hi. simpl. destruct fuel as [|fuel]; [lia|]. simpl.
      exists (-1), true. split; [done|]. split; [done|]. left. split; [done|].
      intros k Hk Hok.
      destruct (Z.lt_ge_cases k (pos + strlen pat)) as [Hlt|Hge]; [by apply Hgap; [lia|]|].
      by destruct (indexOf_absent line pat _ Hne Hi k Hge).
    + destruct (occursAt_bound _ _ _ Hocc) as [Hb|]; [|done].
      assert (0 < strlen pat) by (unfold strlen; destruct pat; [done | simpl; lia]).
      destruct (indexOf_found line pat _ _ Hne eq_refl Hi) as (Hocc' & Hle & Hmin).
      destruct (Z.leb_spec 0 (indexOf line pat (pos + strlen pat))); [|lia].
      destruct (IH (indexOf line pat (pos + strlen pat)) true Hocc')
        as (r & e' & Hr & He' & Hres); [lia | | lia |].
      { intros k Hk Hok.
        destruct (Z.lt_ge_cases k (pos + strlen pat)) as [Hlt|Hge];
          [by apply Hgap; [lia|]|].
        by destruct (Hmin k ltac:(lia)). }
      exists r, e'. split; [done|]. split; [done|].
      destruct Hres as [?|(? & ? & ? & ?)]; [by left|right]. split; [lia | done].
  - exists pos, false. destruct (Z.eqb_spec pos (-1)); [lia|].
    split; [done|]. split; [done|]. right. split; [lia|]. done.
Qed.

(** X28: for a literal whose occurrences in the line do not overlap (a
    delimiter of one character, for one), [matchWithEscape] returns the
    leftmost occurrence at or after the position that is not escaped, and
    [-1] exactly when every occurrence from the position on is escaped. *)
Theorem matchWithEscape_leftmost_unescaped fuel line position pat (e : option string) st :
  pat <> "" -> apart line pat -> (String.length line + 1 < fuel)%nat ->
  exists r,
    matchWithEscape fuel line position (PString pat) (PString <$> e) st
    = Done (r, (if r =? -1 then None else Some pat), st) /\
    ((r = -1 /\
      forall k, position <= k -> occursAt line pat k -> escapedLit line e k = true) \/
     (position <= r /\ occursAt line pat r /\ escapedLit line e r = false /\
      forall k, position <= k < r -> occursAt line pat k -> escapedLit line e k = true)).
Proof.
  intros Hne Hapart Hfuel. unfold matchWithEscape. rewrite match_literal_forward.
  pose proof (indexOf_cases line pat position) as [Hi|Hi].
  - rewrite Hi. simpl. destruct fuel as [|fuel]; [lia|]. simpl.
    exists (-1). split; [done|]. left. split; [done|].
    intros k Hk Hok. by destruct (indexOf_absent line pat _ Hne Hi k Hk).
  - destruct (indexOf_found line pat _ _ Hne eq_refl Hi) as (Hocc & Hle & Hmin).
    destruct (Z.leb_spec 0 (indexOf line pat position)); [|lia].
    destruct (matchWithEscape_loop_leftmost line pat e st position Hne Hapart fuel
                (indexOf line pat position) false Hocc Hle)
      as (r & e' & Hr & He' & Hres).
    { intros k Hk Hok. by destruct (Hmin k Hk). }
    { pose proof Hocc as [? _]. unfold strlen. lia. }
    rewrite Hr. simpl. exists r.
    destruct e'.
    + rewrite (He' eq_refl) in *. simpl. split; [done|].
      destruct Hres as [?|(? & [? _] & _)]; [by left | lia].
    + split; [by destruct (r =? -1)|].
      destruct Hres as [?|(? & ? & ? & ?)]; [by left|right]. split; [lia | done].
Qed.

(** X29: after an escaped match the search goes on behind the end of that
    match, so an occurrence that starts inside it is never looked at: when
    the leftmost occurrence of the literal is escaped and no occurrence
    starts at or after its end, the result is [-1], whether or not an
    occurrence that overlaps the escaped one is escaped itself. *)
Theorem matchWithEscape_skips_overlap fuel line position pat E st :
  pat <> "" -> E <> "" -> (2 <= fuel)%nat ->
  0 <= indexOf line pat position ->
  endsWith line E (indexOf line pat position) = true ->
  indexOf line pat (indexOf line pat position + strlen pat) = -1 ->
  matchWithEscape fuel line position (PString pat) (Some (PString E)) st
  = Done (-1, None, st).
Proof.
  intros Hne HE Hfuel Hi Hesc Hnext.
  unfold matchWithEscape. rewrite match_literal_forward.
  destruct (Z.leb_spec 0 (indexOf line pat position)); [|lia].
  destruct fuel as [|[|fuel]]; [lia | lia |].
  cbn [matchWithEscape_loop].
  destruct (Z.eqb_spec (indexOf line pat position) (-1)); [lia|].
  rewrite (checkEscape_literal st line _ (Some E)). cbn [escapedLit].
  destruct (String.eqb_spec E ""); [done|]. rewrite Hesc. cbn [negb andb].
  cbn [matchedLength]. rewrite match_literal_forward, Hnext. reflexivity.
Qed.

End MatcherFacts.

(** * Further properties of the regular-expression cache *)

Section CacheMore.

Context {engine : RegExpEngine}.

Lemma prefix_empty (s : string) : String.prefix "" s = true.
Proof. by destruct s. Qed.

Lemma substring_all (s : string) : String.substring 0 (String.length s) s = s.
Proof. induction s as [|c s IH]; simpl; [done | by rewrite IH]. Qed.

Lemma startsWith_caret (s : string) : startsWith ("^" +:+ s) "^" = true.
Proof.
  unfold startsWith. change ("^" +:+ s) with (String "^" s).
  change (String.prefix "^" (String "^" s))
    with (if ascii_dec "^"%char "^"%char then String.prefix "" s else false).
  destruct (ascii_dec "^"%char "^"%char); [apply prefix_empty | done].
Qed.

Lemma slice_drop_first (s : string) : slice ("^" +:+ s) 1 None = s.
Proof.
  change ("^" +:+ s) with (String "^" s).
  unfold slice, relIndex, strlen. simpl String.length.
  change (1 <? 0) with false. cbv iota.
  replace (Z.to_nat (Z.min 1 (Z.of_nat (S (String.length s))))) with 1%nat by lia.
  replace (Z.to_nat (Z.of_nat (S (String.length s)) - Z.min 1 (Z.of_nat (S (String.length s)))))
    with (String.length s) by lia.
  simpl. apply substring_all.
Qed.

(** X10: asking for an anchor gives a source that carries it, and asking
    again changes nothing. *)
Theorem makeSureAnchor_present source start :
  anchored (makeSureAnchor source start true) start = true /\
  makeSureAnchor (makeSureAnchor source start true) start true
  = makeSureAnchor source start true.
Proof.
  assert (H : anchored (makeSureAnchor source start true) start = true).
  { unfold makeSureAnchor, anchored. destruct start; simpl.
    - destruct (startsWith source "^") eqn:E; simpl; [done | apply startsWith_caret].
    - destruct (endsWith source "$" (strlen source)) eqn:E; simpl;
        [done | apply endsWith_dollar]. }
  split; [done|].
  set (r := makeSureAnchor source start true) in *. clearbody r.
  unfold anchored in H. unfold makeSureAnchor.
  destruct start; rewrite H; reflexivity.
Qed.

(** X11: adding an anchor to a source that has none and removing it again
    gives the source back. *)
Theorem makeSureAnchor_round_trip source start :
  anchored source start = false ->
  makeSureAnchor (makeSureAnchor source start true) start false = source.
Proof.
  unfold anchored. intros H. destruct start.
  - replace (makeSureAnchor source true true) with ("^" +:+ source)
      by (unfold makeSureAnchor; by rewrite H).
    unfold makeSureAnchor. rewrite startsWith_caret. cbn [andb negb].
    apply slice_drop_first.
  - replace (makeSureAnchor source false true) with (source +:+ "$")
      by (unfold makeSureAnchor; by rewrite H).
    apply makeSureAnchor_strip_end.
Qed.

(** X12: a lookup leaves the expression in the cache under its key: the
    same lookup again returns the same object and changes nothing; entries
    that were in the cache stay, and no other field of the state changes. *)
Theorem getCachedRegExp_idempotent st regExp anchor global :
  let '(key, cached, st1) := getCachedRegExp st regExp anchor global in
  regExpCache st1 !! key = Some cached /\
  getCachedRegExp st1 regExp anchor global = (key, cached, st1) /\
  regExpCache st ⊆ regExpCache st1 /\
  sameButCache st st1.
Proof.
  unfold getCachedRegExp.
  destruct (regExpCache st !! _) as [cached|] eqn:E.
  - by rewrite E.
  - cbn [regExpCache set_regExpCache]. rewrite lookup_insert_eq.
    split; [done|]. split; [done|]. split; [by apply insert_subseteq | done].
Qed.

Lemma index_removeChar (f : string) : String.index 0 "g" (removeChar "g" f) = None.
Proof.
  induction f as [|c f IH]; [done|]. simpl removeChar.
  destruct (Ascii.eqb_spec c "g") as [->|Hc]; [done|].
  change (String.index 0 "g" (String c (removeChar "g" f)))
    with (if String.prefix "g" (String c (removeChar "g" f)) then Some 0%nat
          else match String.index 0 "g" (removeChar "g" f) with
               | Some n => Some (S n)
               | None => None
               end).
  rewrite IH.
  change (String.prefix "g" (String c (removeChar "g" f)))
    with (if ascii_dec "g"%char c then String.prefix "" (removeChar "g" f) else false).
  by destruct (ascii_dec "g"%char c); [congruence|].
Qed.

Lemma index_append_g (f : string) : String.index 0 "g" (f +:+ "g") <> None.
Proof.
  induction f as [|c f IH]; [done|].
  change (String c f +:+ "g") with (String c (f +:+ "g")).
  change (String.index 0 "g" (String c (f +:+ "g")))
    with (if String.prefix "g" (String c (f +:+ "g")) then Some 0%nat
          else match String.index 0 "g" (f +:+ "g") with
               | Some n => Some (S n)
               | None => None
               end).
  destruct (String.prefix "g" (String c (f +:+ "g"))); [done|].
  by destruct (String.index 0 "g" (f +:+ "g")).
Qed.

Lemma indexOf_from_0 (f pat : string) :
  indexOf f pat 0 = match String.index 0 pat f with Some k => Z.of_nat k | None => -1 end.
Proof.
  unfold indexOf, clamp.
  replace (Z.to_nat (Z.max 0 (Z.min 0 (strlen f)))) with 0%nat; [done|].
  unfold strlen. lia.
Qed.

(** The normalized flags hold [g] exactly when a global expression is asked
    for. *)
Lemma normalizeFlags_global (f : string) (global : bool) :
  negb (indexOf (normalizeFlags f global) "g" 0 =? -1) = global.
Proof.
  unfold normalizeFlags.
  destruct (indexOf f "g" 0 =? -1) eqn:E; destruct global; simpl.
  - rewrite indexOf_from_0. pose proof (index_append_g f).
    destruct (String.index 0 "g" (f +:+ "g")); [|done].
    by destruct (Z.eqb_spec (Z.of_nat n) (-1)); [lia|].
  - by rewrite E.
  - by rewrite E.
  - by rewrite indexOf_from_0, index_removeChar.
Qed.

(** X13: with a cache in which every entry lives under the key of its own
    source and flags, the expression that a lookup returns has the
    normalized source and the normalized flags, whether it was cached or is
    new; it is global exactly when a global expression was asked for, and the
    cache stays as described. *)
Theorem getCachedRegExp_normalized st regExp anchor global key cached st1 :
  coherent (regExpCache st) -> validFlags (flags regExp) = true ->
  getCachedRegExp st regExp anchor global = (key, cached, st1) ->
  source cached = normalizeSource (source regExp) anchor /\
  flags cached = normalizeFlags (flags regExp) global /\
  hasFlag "g" cached = global /\
  coherent (regExpCache st1).
Proof.
  intros Hco Hv H.
  destruct (getCachedRegExp_coherent st regExp anchor global Hco Hv)
    as (cached' & st' & Hg & Hs & Hf & _).
  rewrite Hg in H. inversion H; subst.
  split; [done|]. split; [done|].
  split; [unfold hasFlag; rewrite Hf; apply normalizeFlags_global|].
  unfold getCachedRegExp in Hg.
  destruct (regExpCache st !! _) as [c|] eqn:E; inversion Hg; subst; [done|].
  cbn [regExpCache set_regExpCache].
  apply (coherent_insert _ {| source := normalizeSource (source regExp) anchor;
                              flags := normalizeFlags (flags regExp) global;
                              lastIndex := 0 |}); [done|].
  by apply validFlags_normalize.
Qed.

(** X14: two expressions share a slot of the cache only if they have the
    same source and the same flags: the key, which joins source and flags
    with a fixed separator, is injective on expressions whose flags are
    flags of JavaScript. *)
Theorem cacheKey_injective source1 flags1 source2 flags2 :
  validFlags flags1 = true -> validFlags flags2 = true ->
  cacheKey source1 flags1 = cacheKey source2 flags2 ->
  source1 = source2 /\ flags1 = flags2.
Proof. apply cacheKey_inj. Qed.

Lemma match_regex_forward line position (r : RegExp) st :
  coherent (regExpCache st) -> validFlags (flags r) = true ->
  (match_ line position DEFAULT (PRegExp r) st).1
  = (if strlen line <? position then noMatch
     else execResult (regExpMatch (normalizeSource (source r) NONE)
                        (normalizeFlags (flags r) true) position line)).
Proof.
  intros Hco Hv.
  rewrite (match_regex line position DEFAULT r st Hco Hv). cbn [fst].
  unfold exec. cbn [source flags lastIndex].
  unfold hasFlag at 1. cbn [flags]. rewrite normalizeFlags_global. simpl.
  by destruct (strlen line <? position).
Qed.

(** X15: what a match on a regular expression computes does not depend on
    what the cache holds.  A forward search is one run of the engine on the
    source without anchors and with the [g] flag, from the position on (and
    nothing beyond the end of the line); the suffix check is one run on the
    text before the position of the source with the end anchor and without
    [g]. *)
Theorem match_regex_runs_engine line position (r : RegExp) st :
  coherent (regExpCache st) -> validFlags (flags r) = true ->
  (match_ line position DEFAULT (PRegExp r) st).1
  = (if strlen line <? position then noMatch
     else execResult (regExpMatch (normalizeSource (source r) NONE)
                        (normalizeFlags (flags r) true) position line)) /\
  (match_ line position PREFIX (PRegExp r) st).1
  = execResult (regExpMatch (normalizeSource (source r) END)
                  (normalizeFlags (flags r) false) 0 (substring line 0 position)).
Proof.
  intros Hco Hv. split; [by apply match_regex_forward|].
  - rewrite (match_regex line position PREFIX r st Hco Hv). cbn [fst].
    unfold exec. cbn [source flags lastIndex].
    destruct (hasFlag "g" _ || hasFlag "y" _); [|done]. cbn [fst].
    assert (Hlen : (strlen (substring line 0 position) <? 0) = false).
    { apply Z.ltb_ge. unfold strlen. lia. }
    by rewrite Hlen.
Qed.

End CacheMore.

(** * Further properties of the token dispatcher *)

Section DispatcherMore.

Context {engine : RegExpEngine} {host : Host}.

Lemma matchedLength_nonneg (m : option string) : 0 <= matchedLength m.
Proof. destruct m; unfold matchedLength, strlen; lia. Qed.

Lemma set_pos_same (stream : StringStream) : set_pos (ss_pos stream) stream = stream.
Proof. by destruct stream. Qed.

Lemma setLocalState_layers v st : layers (setLocalState v st) = layers st.
Proof. unfold setLocalState. by destruct (stateContext st). Qed.

Lemma syncState_layers arena st stream layer st' :
  syncState arena st stream layer = Done st' -> layers st' = layers st.
Proof.
  unfold syncState, popStateContext.
  destruct (l_open layer && _); [by intros [= <-]|].
  destruct (negb (l_open layer) && _); [|by intros [= <-]].
  destruct (stateContext st); [done | by intros [= <-]].
Qed.

Lemma newlineAtEol_modes stream st :
  stateContext (newlineAtEol stream st) = stateContext st.
Proof. unfold newlineAtEol. by destruct (eol stream). Qed.

Lemma newlineAtEol_layers stream st : layers (newlineAtEol stream st) = layers st.
Proof. unfold newlineAtEol. by destruct (eol stream). Qed.

(** What [tokenUntil] does to the stream and to the layers: the cursor does
    not pass [until]; a layer is taken off only when [shift] is set and the
    cursor has reached [until]. *)
Lemma tokenUntil_cursor arena stream st until shift sync style stream' st' :
  tokenUntil arena stream st until shift sync = Done (style, stream', st') ->
  ss_pos stream' <= until /\
  (layers st' = layers st \/
   (shift = true /\ ss_pos stream' = until /\
    exists layer rest, layers st = Some (layer :: rest) /\ layers st' = Some rest)).
Proof.
  unfold tokenUntil.
  destruct (match getLocalMode st ≫= modeToken with Some _ => _ | None => _ end)
    as [[style0 stream0] st0] eqn:E.
  assert (H0 : ss_pos stream0 <= until /\ layers st0 = layers st).
  { destruct (getLocalMode st ≫= modeToken) as [tok|].
    - destruct (tok stream (getLocalState st)) as [[a b] c]. inversion E; subst.
      split; [|apply setLocalState_layers].
      destruct (Z.ltb_spec until (ss_pos b)); simpl; lia.
    - inversion E; subst. simpl. split; [lia | done]. }
  destruct H0 as [Hpos Hl].
  intros H. apply bind_Done in H as [st1 [Hs H]]. inversion H; subst.
  split; [done|]. rewrite newlineAtEol_layers, <- Hl.
  unfold firstLayer in Hs.
  destruct (layers st0) as [[|layer rest]|] eqn:El;
    [inversion Hs; subst; by left | | inversion Hs; subst; by left].
  destruct (Z.eqb_spec (ss_pos stream') until) as [Heq|Hne];
    [|inversion Hs; subst; left; congruence].
  apply bind_Done in Hs as [st2 [Hs Hd]].
  assert (Hl2 : layers st2 = Some (layer :: rest)).
  { destruct sync; [apply syncState_layers in Hs; congruence | inversion Hs; congruence]. }
  inversion Hd; subst. destruct shift; [|left; congruence].
  right. split; [done|]. split; [done|]. exists layer, rest. split; [done|].
  unfold shiftLayers. by rewrite Hl2.
Qed.

Lemma tokenPattern_cursor arena stream st style stream' st' :
  tokenPattern arena stream st = Done (style, stream', st') ->
  exists layer rest, layers st = Some (layer :: rest) /\ layers st' = Some rest /\
                     ss_pos stream' = layerEnd layer.
Proof.
  unfold tokenPattern, firstLayer.
  destruct (layers st) as [[|layer rest]|] eqn:El; [done| |done].
  destruct (patternStyles _) as [[o c]|]; [|done].
  destruct (negb _); [done|]. intros H.
  apply bind_Done in H as [st1 [Hs H]]. apply syncState_layers in Hs.
  inversion H; subst. exists layer, rest. split; [done|].
  rewrite newlineAtEol_layers. unfold shiftLayers. rewrite Hs. simpl.
  by rewrite El.
Qed.

(** The branches of [dispatch] for a first layer: every one of them hands
    the stream to [tokenUntil] or to [tokenPattern] in a state with the same
    layers. *)
Lemma dispatch_layer arena stream st layer style stream' st' :
  firstLayer st = Some layer ->
  dispatch arena stream st = Done (style, stream', st') ->
  (ss_start stream < l_pos layer /\
   tokenUntil arena stream st (l_pos layer) false false = Done (style, stream', st')) \/
  (l_pos layer <= ss_start stream < l_pos layer + Z.max 1 (matchedLength (l_matched layer)) /\
   ((ss_start stream = l_pos layer /\
     tokenPattern arena stream st = Done (style, stream', st')) \/
    exists st0 sync, layers st0 = layers st /\
      tokenUntil arena stream st0 (layerEnd layer) true sync = Done (style, stream', st'))).
Proof.
  intros Hl. unfold dispatch. rewrite Hl.
  pose proof (matchedLength_nonneg (l_matched layer)) as Hm.
  destruct (Z.ltb_spec (ss_start stream) (l_pos layer)) as [Hlt|Hge]; [by left|].
  destruct (Z.eqb_spec (ss_start stream) (l_pos layer)) as [Heq|Hne].
  - intros H. right. split; [lia|].
    destruct (patternStyles _); [by left|]. right.
    destruct (l_open layer && _).
    { eexists _, false. split; [|exact H]. by destruct (truthy _). }
    destruct (negb (l_open layer) && _); [|by eexists st, true].
    apply bind_Done in H as [st1 [Hp H]].
    exists st1, false. split; [|done].
    destruct (truthy _); [|by inversion Hp].
    unfold popStateContext in Hp. destruct (stateContext st); [done|].
    by inversion Hp.
  - destruct (Z.ltb_spec (ss_start stream) (l_pos layer + matchedLength (l_matched layer)))
      as [Hlt|Hge']; [|done].
    intros H. right. split; [lia|]. right. by eexists st, true.
Qed.

(** X16: a token never crosses a boundary.  While a layer is pending, the
    call leaves the cursor at or before the end of that layer's delimiter,
    and at or before its start when the token began before it, however far
    the tokenizer of the sub-mode has read. *)
Theorem token_stops_at_boundary fuel cfg stream st st1 layer style stream' st' :
  scanLine fuel cfg stream st = Done st1 ->
  firstLayer st1 = Some layer ->
  token fuel cfg stream st = Done (style, stream', st') ->
  ss_pos stream' <= layerEnd layer /\
  (ss_start stream < l_pos layer -> ss_pos stream' <= l_pos layer).
Proof.
  intros Hscan Hl. unfold token. rewrite Hscan. simpl. intros H.
  pose proof (matchedLength_nonneg (l_matched layer)) as Hm.
  destruct (dispatch_layer _ _ _ _ _ _ _ Hl H)
    as [[Hlt Ht]|[Hin [[Heq Ht]|(st0 & sync & Hl0 & Ht)]]].
  - apply tokenUntil_cursor in Ht as [Hpos _]. unfold layerEnd. lia.
  - apply tokenPattern_cursor in Ht as (layer' & rest & Hl' & _ & Hpos).
    unfold firstLayer in Hl. rewrite Hl' in Hl. inversion Hl; subst. lia.
  - apply tokenUntil_cursor in Ht as [Hpos _]. lia.
Qed.

Lemma tokenUntil_advances arena stream st until shift sync style stream' st' :
  advancing ->
  ss_pos stream < strlen (ss_string stream) -> ss_pos stream < until ->
  tokenUntil arena stream st until shift sync = Done (style, stream', st') ->
  ss_pos stream < ss_pos stream'.
Proof.
  intros Hadv Hlen Hlt. unfold tokenUntil.
  destruct (match getLocalMode st ≫= modeToken with Some _ => _ | None => _ end)
    as [[style0 stream0] st0] eqn:E.
  assert (H0 : ss_pos stream < ss_pos stream0).
  { destruct (getLocalMode st) as [mode|] eqn:Em; simpl in E.
    - destruct (modeToken mode) as [tok|] eqn:Et.
      + pose proof (Hadv mode tok stream (getLocalState st) Et Hlen) as Hp.
        destruct (tok stream (getLocalState st)) as [[a b] c]. inversion E; subst.
        simpl in Hp. destruct (Z.ltb_spec until (ss_pos b)); simpl; lia.
      + by inversion E; subst.
    - by inversion E; subst. }
  intros H. apply bind_Done in H as [st1 [_ H]]. by inversion H; subst.
Qed.

(** X17: a call of [token] consumes at least one character, when the
    tokenizers of the sub-modes do and the delimiter of a layer at the cursor
    is not empty.  (The host calls [token] with the cursor at the start of
    the token, before the end of the line.) *)
Theorem token_advances fuel cfg stream st st1 style stream' st' :
  advancing ->
  scanLine fuel cfg stream st = Done st1 ->
  ss_pos stream = ss_start stream ->
  ss_start stream < strlen (ss_string stream) ->
  (forall layer, firstLayer st1 = Some layer -> ss_start stream = l_pos layer ->
                 0 < matchedLength (l_matched layer)) ->
  token fuel cfg stream st = Done (style, stream', st') ->
  ss_start stream < ss_pos stream'.
Proof.
  intros Hadv Hscan Hpos Hlen Hwidth. unfold token. rewrite Hscan. simpl. intros H.
  destruct (firstLayer st1) as [layer|] eqn:Hl.
  - pose proof (matchedLength_nonneg (l_matched layer)) as Hm.
    destruct (dispatch_layer _ _ _ _ _ _ _ Hl H)
      as [[Hlt Ht]|[Hin [[Heq Ht]|(st0 & sync & Hl0 & Ht)]]].
    + rewrite <- Hpos. eapply tokenUntil_advances; [done | lia | | exact Ht]. lia.
    + apply tokenPattern_cursor in Ht as (layer' & rest & Hl' & _ & Hp).
      unfold firstLayer in Hl. rewrite Hl' in Hl. inversion Hl; subst.
      specialize (Hwidth layer eq_refl Heq). unfold layerEnd in Hp. lia.
    + rewrite <- Hpos. eapply tokenUntil_advances; [done | lia | | exact Ht].
      unfold layerEnd.
      destruct (Z.eq_dec (ss_start stream) (l_pos layer)) as [Heq|Hne];
        [specialize (Hwidth layer eq_refl Heq)|]; lia.
  - unfold dispatch in H. rewrite Hl in H.
    destruct (getLocalMode st1) as [mode|] eqn:Em; simpl in H.
    + destruct (modeToken mode) as [tok|] eqn:Et.
      * assert (Hlen' : ss_pos stream < strlen (ss_string stream)) by lia.
        pose proof (Hadv mode tok stream (getLocalState st1) Et Hlen') as Hp.
        destruct (tok stream (getLocalState st1)) as [[a b] c].
        inversion H; subst. simpl in Hp. lia.
      * by inversion H; subst.
    + by inversion H; subst.
Qed.

(** The fields of the state that the dispatcher leaves alone. *)
Lemma dispatch_frame_push st mode stream :
  dispatcherFrame st (pushStateContext st mode stream).
Proof. done. Qed.

Lemma dispatcherFrame_trans a b c :
  dispatcherFrame a b -> dispatcherFrame b c -> dispatcherFrame a c.
Proof. unfold dispatcherFrame. intros (?&?&?&?) (?&?&?&?). repeat split; congruence. Qed.

Lemma dispatcherFrame_refl a : dispatcherFrame a a.
Proof. done. Qed.

Lemma popStateContext_frame st st' :
  popStateContext st = Done st' -> dispatcherFrame st st'.
Proof.
  unfold popStateContext. destruct (stateContext st); [done|]. by intros [= <-].
Qed.

Lemma syncState_frame arena st stream layer st' :
  syncState arena st stream layer = Done st' -> dispatcherFrame st st'.
Proof.
  unfold syncState.
  destruct (l_open layer && _); [by intros [= <-]|].
  destruct (negb (l_open layer) && _); [apply popStateContext_frame | by intros [= <-]].
Qed.

Lemma setLocalState_frame v st : dispatcherFrame st (setLocalState v st).
Proof. unfold setLocalState. by destruct (stateContext st). Qed.

Lemma shiftLayers_frame st : dispatcherFrame st (shiftLayers st).
Proof. unfold shiftLayers. by destruct (layers st) as [[|? ?]|]. Qed.

Lemma newlineAtEol_frame stream st : dispatcherFrame st (newlineAtEol stream st).
Proof. unfold newlineAtEol. by destruct (eol stream). Qed.

Lemma tokenUntil_frame arena stream st until shift sync style stream' st' :
  tokenUntil arena stream st until shift sync = Done (style, stream', st') ->
  dispatcherFrame st st'.
Proof.
  unfold tokenUntil.
  destruct (match getLocalMode st ≫= modeToken with Some _ => _ | None => _ end)
    as [[style0 stream0] st0] eqn:E.
  assert (H0 : dispatcherFrame st st0).
  { destruct (getLocalMode st ≫= modeToken) as [tok|]; [|by inversion E].
    destruct (tok stream (getLocalState st)) as [[a b] c].
    inversion E; subst. apply setLocalState_frame. }
  intros H. apply bind_Done in H as [st1 [Hs H]]. inversion H; subst.
  eapply dispatcherFrame_trans; [exact H0|].
  eapply dispatcherFrame_trans; [|apply newlineAtEol_frame].
  destruct (firstLayer st0) as [layer|]; [|by inversion Hs].
  destruct (ss_pos stream' =? until); [|by inversion Hs].
  apply bind_Done in Hs as [st2 [Hs Hd]].
  assert (dispatcherFrame st0 st2).
  { destruct sync; [by eapply syncState_frame | by inversion Hs]. }
  inversion Hd; subst.
  destruct shift; [|done].
  eapply dispatcherFrame_trans; [eassumption | apply shiftLayers_frame].
Qed.

Lemma tokenPattern_frame arena stream st style stream' st' :
  tokenPattern arena stream st = Done (style, stream', st') ->
  dispatcherFrame st st'.
Proof.
  unfold tokenPattern. destruct (firstLayer st) as [layer|]; [|done].
  destruct (patternStyles _) as [[o c]|]; [|done].
  destruct (negb _); [done|]. intros H.
  apply bind_Done in H as [st1 [Hs H]]. apply syncState_frame in Hs.
  inversion H; subst.
  eapply dispatcherFrame_trans; [|apply newlineAtEol_frame].
  eapply dispatcherFrame_trans; [|apply shiftLayers_frame].
  eapply dispatcherFrame_trans; [|exact Hs]. done.
Qed.

Lemma dispatch_frame arena stream st style stream' st' :
  dispatch arena stream st = Done (style, stream', st') ->
  dispatcherFrame st st'.
Proof.
  unfold dispatch. destruct (firstLayer st) as [layer|].
  - destruct (ss_start stream <? l_pos layer); [by apply tokenUntil_frame|].
    destruct (ss_start stream =? l_pos layer).
    + destruct (patternStyles _); [by apply tokenPattern_frame|].
      destruct (l_open layer && _).
      { intros H. apply tokenUntil_frame in H.
        eapply dispatcherFrame_trans; [|exact H]. by destruct (truthy _). }
      destruct (negb (l_open layer) && _); [|by apply tokenUntil_frame].
      intros H. apply bind_Done in H as [st1 [Hp H]]. apply tokenUntil_frame in H.
      eapply dispatcherFrame_trans; [|exact H].
      destruct (truthy _); [by apply popStateContext_frame | by inversion Hp].
    + destruct (ss_start stream <? _); [by apply tokenUntil_frame | done].
  - destruct (getLocalMode st ≫= modeToken) as [tok|].
    + destruct (tok stream (getLocalState st)) as [[a b] c]. intros H.
      inversion H; subst. apply setLocalState_frame.
    + intros H. by inversion H; subst.
Qed.

(** X18: the dispatcher works through the layers in order.  A call leaves
    the layers as they are or takes the first one off, and it takes it off
    only with the cursor at the end of that layer's delimiter; the pattern
    stack, [customs], the cache of expressions and [start] are not
    touched. *)
Theorem dispatch_consumes_in_order arena stream st style stream' st' :
  dispatch arena stream st = Done (style, stream', st') ->
  dispatcherFrame st st' /\
  (layers st' = layers st \/
   exists layer rest, layers st = Some (layer :: rest) /\ layers st' = Some rest /\
                      ss_pos stream' = layerEnd layer).
Proof.
  intros H. split; [by eapply dispatch_frame|].
  destruct (firstLayer st) as [layer|] eqn:Hl.
  - assert (Hls : exists rest, layers st = Some (layer :: rest)).
    { unfold firstLayer in Hl. destruct (layers st) as [[|l rest]|]; try done.
      inversion Hl; subst. by exists rest. }
    destruct Hls as [rest Hls].
    destruct (dispatch_layer _ _ _ _ _ _ _ Hl H)
      as [[Hlt Ht]|[Hin [[Heq Ht]|(st0 & sync & Hl0 & Ht)]]].
    + apply tokenUntil_cursor in Ht as [_ [?|(? & _)]]; [by left | done].
    + apply tokenPattern_cursor in Ht as (layer' & rest' & Hl' & Hl'' & Hp).
      right. exists layer', rest'. done.
    + apply tokenUntil_cursor in Ht as [_ [Hsame|(_ & Hp & l' & rest' & Hl' & Hl'')]].
      * left. congruence.
      * right. exists layer, rest. rewrite Hl0, Hls in Hl'. inversion Hl'; subst.
        done.
  - unfold dispatch in H. rewrite Hl in H.
    destruct (getLocalMode st ≫= modeToken) as [tok|].
    + destruct (tok stream (getLocalState st)) as [[a b] c]. inversion H; subst.
      left. apply setLocalState_layers.
    + inversion H; subst. by left.
Qed.

(** X19: an opening delimiter that belongs to the sub-mode is entered twice
    when the sub-mode reads it in two tokens.  For an opening layer of a
    pattern with a mode, with [includePattern] and without [patternStyles],
    the first call pushes the sub-mode before it hands the delimiter to it;
    when that token ends inside the delimiter, the next call, which reaches
    the end of the delimiter, synchronizes on the same layer and pushes the
    sub-mode a second time. *)
Theorem included_opener_pushes_twice arena stream st l rest tok q :
  layers st = Some (l :: rest) -> l_open l = true ->
  patternStyles (arena (l_nextPattern l)) = None ->
  includePattern (arena (l_nextPattern l)) = Some true ->
  truthy (mode (arena (l_nextPattern l))) = true ->
  modeToken (mode (arena (l_nextPattern l))) = Some tok ->
  ss_start stream = l_pos l -> l_pos l < q < layerEnd l ->
  (forall s, exists style s', tok stream s = (style, set_pos q stream, s')) ->
  (forall s, exists style stream2 s',
      tok (startAt q (set_pos q stream)) s = (style, stream2, s') /\
      layerEnd l <= ss_pos stream2) ->
  exists style1 st1 style2 stream2 st2,
    dispatch arena stream st = Done (style1, set_pos q stream, st1) /\
    dispatch arena (startAt q (set_pos q stream)) st1 = Done (style2, stream2, st2) /\
    layers st2 = Some rest /\
    modesOf st2
    = mode (arena (l_nextPattern l)) :: mode (arena (l_nextPattern l)) :: modesOf st.
Proof.
  intros Hl Ho Hst Hinc Hmode Htok Hstart Hq H1 H2.
  pose proof (matchedLength_nonneg (l_matched l)) as Hm. unfold layerEnd in Hq.
  set (M := mode (arena (l_nextPattern l))) in *.
  (* the first call *)
  set (a := pushStateContext st M stream).
  destruct (H1 (getLocalState a)) as (style1 & s1 & Ht1).
  set (st1 := newlineAtEol (set_pos q stream) (setLocalState s1 a)).
  assert (Hd1 : dispatch arena stream st = Done (style1, set_pos q stream, st1)).
  { unfold dispatch, firstLayer. rewrite Hl, Hstart, Z.ltb_irrefl, Z.eqb_refl, Ho, Hst, Hinc.
    fold M. rewrite Hmode. simpl. fold a. unfold tokenUntil.
    change (getLocalMode a) with (Some M). simpl. rewrite Htok, Ht1.
    cbn [ss_pos set_pos].
    destruct (Z.ltb_spec (l_pos l + matchedLength (l_matched l)) q); [lia|].
    replace (firstLayer (setLocalState s1 a)) with (Some l)
      by (unfold firstLayer; by rewrite setLocalState_layers; simpl; rewrite Hl).
    cbn [ss_pos set_pos].
    by destruct (Z.eqb_spec q (l_pos l + matchedLength (l_matched l))); [lia|]. }
  assert (Hl1 : layers st1 = Some (l :: rest)).
  { unfold st1. by rewrite newlineAtEol_layers, setLocalState_layers. }
  assert (Hc1 : exists c1, stateContext st1 = c1 :: stateContext st /\ sc_mode c1 = M).
  { unfold st1, newlineAtEol, setLocalState. simpl.
    destruct (eol _); simpl; by eexists. }
  destruct Hc1 as (c1 & Hc1 & Hm1).
  (* the second call *)
  set (stream1 := startAt q (set_pos q stream)).
  destruct (H2 (getLocalState st1)) as (style2 & stream2 & s2 & Ht2 & Hend).
  unfold layerEnd in Hend.
  set (stream3 := if l_pos l + matchedLength (l_matched l) <? ss_pos stream2
                  then backUp (ss_pos stream2 - (l_pos l + matchedLength (l_matched l))) stream2
                  else stream2).
  assert (Hp3 : ss_pos stream3 = l_pos l + matchedLength (l_matched l)).
  { unfold stream3, backUp.
    destruct (Z.ltb_spec (l_pos l + matchedLength (l_matched l)) (ss_pos stream2));
      simpl; lia. }
  exists style1, st1, style2, stream3.
  eexists. split; [exact Hd1|]. split.
  { unfold dispatch, firstLayer. rewrite Hl1. cbn [ss_start stream1 startAt].
    destruct (Z.ltb_spec q (l_pos l)); [lia|].
    destruct (Z.eqb_spec q (l_pos l)); [lia|].
    destruct (Z.ltb_spec q (l_pos l + matchedLength (l_matched l))); [|lia].
    unfold tokenUntil. unfold getLocalMode at 1. rewrite Hc1, Hm1. simpl.
    rewrite Htok. fold stream1 in Ht2. rewrite Ht2. fold stream3.
    replace (firstLayer (setLocalState s2 st1)) with (Some l)
      by (unfold firstLayer; by rewrite setLocalState_layers, Hl1).
    rewrite Hp3, Z.eqb_refl. unfold syncState. rewrite Ho. fold M. rewrite Hmode.
    simpl. reflexivity. }
  assert (Hx : layers (pushStateContext (setLocalState s2 st1) M stream3)
               = Some (l :: rest)).
  { cbn [layers pushStateContext set_stateContext].
    by rewrite setLocalState_layers, Hl1. }
  split.
  - rewrite newlineAtEol_layers. unfold shiftLayers. by rewrite Hx.
  - unfold modesOf. rewrite newlineAtEol_modes. unfold shiftLayers. rewrite Hx.
    cbn [stateContext set_layers pushStateContext set_stateContext].
    unfold setLocalState. rewrite Hc1. simpl. by rewrite Hm1.
Qed.

(** X20: leaving a pattern undoes what entering it did to the stack of
    embedded modes.  When the dispatcher synchronizes on the opening layer of
    a pattern and later on the closing layer of the same pattern, the state
    is again what it was: a pattern with a mode pushes a new sub-mode state
    and pops it, a pattern without a mode does neither. *)
Theorem syncState_round_trip arena st stream stream' opening closing :
  l_open opening = true -> l_open closing = false ->
  l_nextPattern opening = l_prePattern closing ->
  exists st1,
    syncState arena st stream opening = Done st1 /\
    syncState arena st1 stream' closing = Done st.
Proof.
  intros Ho Hc Hp. unfold syncState. rewrite Ho, Hc, Hp. simpl.
  destruct (truthy (mode (arena (l_prePattern closing)))).
  - eexists. split; [reflexivity|]. by destruct st.
  - by exists st.
Qed.

End DispatcherMore.

(** * The flag sub-mode *)

Section FlagMode.

Lemma get_none (s : string) (n : nat) :
  (String.length s <= n)%nat -> String.get n s = None.
Proof.
  revert n. induction s as [|c s IH]; intros n H; [by destruct n|].
  destruct n as [|n]; simpl in *; [lia | apply IH; lia].
Qed.

Lemma get_some (s : string) (n : nat) (c : ascii) :
  String.get n s = Some c -> (n < String.length s)%nat.
Proof.
  intros H. destruct (Nat.lt_ge_cases n (String.length s)) as [|Hge]; [done|].
  by rewrite (get_none s n Hge) in H.
Qed.

Lemma get_substring_0 (s : string) (n m : nat) :
  (0 < m)%nat -> String.get 0 (String.substring n m s) = String.get n s.
Proof.
  revert n. induction s as [|c s IH]; intros n Hm; [by destruct n, m|].
  destruct n as [|n]; simpl.
  - destruct m; [lia | done].
  - by apply IH.
Qed.

Lemma charAt_Some (s : string) (i : Z) (c : ascii) :
  charAt s i = Some c -> 0 <= i < strlen s.
Proof.
  unfold charAt. destruct (Z.ltb_spec i 0) as [Hneg|Hge]; [done|]. intros H.
  apply get_some in H. unfold strlen. lia.
Qed.

Lemma set_pos_twice (p q : Z) (stream : StringStream) :
  set_pos p (set_pos q stream) = set_pos p stream.
Proof. done. Qed.

Lemma eat_cases (test : ascii -> bool) (stream : StringStream) :
  (exists c, eat test stream = (Some c, set_pos (ss_pos stream + 1) stream) /\
             charAt (ss_string stream) (ss_pos stream) = Some c /\ test c = true) \/
  (eat test stream = (None, stream) /\
   match charAt (ss_string stream) (ss_pos stream) with
   | Some c => test c = false
   | None => True
   end).
Proof.
  unfold eat. destruct (charAt _ _) as [c|]; [|by right].
  destruct (test c) eqn:E; [left; by exists c | by right].
Qed.

(** The loop of [eatWhile] moves the cursor forward over characters that
    pass the test, within the string. *)
Lemma eatWhile_loop_spec (test : ascii -> bool) :
  forall n stream,
    exists p,
      eatWhile_loop n test stream = set_pos p stream /\
      ss_pos stream <= p /\
      (ss_pos stream <= strlen (ss_string stream) -> p <= strlen (ss_string stream)) /\
      forall j, ss_pos stream <= j < p ->
        exists c, charAt (ss_string stream) j = Some c /\ test c = true.
Proof.
  induction n as [|n IH]; intros stream.
  - exists (ss_pos stream). split; [by rewrite set_pos_same|]. split; [lia|].
    split; [done|]. intros j Hj. lia.
  - simpl. destruct (eat_cases test stream) as [(c & -> & Hc & Ht)|[-> _]].
    + destruct (IH (set_pos (ss_pos stream + 1) stream)) as (p & -> & Hle & Hhi & Hall).
      simpl in *. exists p. split; [done|]. split; [lia|].
      apply charAt_Some in Hc as Hc'.
      split; [intros _; apply Hhi; lia|].
      intros j Hj. destruct (Z.eq_dec j (ss_pos stream)) as [->|Hne]; [by exists c|].
      apply Hall. lia.
    + exists (ss_pos stream). split; [by rewrite set_pos_same|]. split; [lia|].
      split; [done|]. intros j Hj. lia.
Qed.

(** With as many iterations as the string has characters the loop ends
    because [eat] fails. *)
Lemma eatWhile_loop_stops (test : ascii -> bool) :
  forall n stream,
    0 <= ss_pos stream ->
    (Z.to_nat (strlen (ss_string stream) - ss_pos stream) <= n)%nat ->
    match charAt (ss_string stream) (ss_pos (eatWhile_loop n test stream)) with
    | Some c => test c = false
    | None => True
    end.
Proof.
  induction n as [|n IH]; intros stream H0 Hn.
  - simpl. unfold charAt. destruct (Z.ltb_spec (ss_pos stream) 0); [done|].
    rewrite get_none; [done|]. unfold strlen in Hn. lia.
  - simpl. destruct (eat_cases test stream) as [(c & -> & Hc & Ht)|[-> Hstop]]; [|done].
    apply (IH (set_pos (ss_pos stream + 1) stream)); simpl; lia.
Qed.

Lemma slice_window (s : string) (a b : Z) :
  0 <= a <= b -> b <= strlen s ->
  slice s a (Some b) = String.substring (Z.to_nat a) (Z.to_nat (b - a)) s.
Proof.
  intros Ha Hb. unfold slice, relIndex.
  destruct (Z.ltb_spec a 0); [lia|]. destruct (Z.ltb_spec b 0); [lia|].
  by rewrite !Z.min_l by lia.
Qed.

(** X21: the tokenizer of the flag mode consumes at least one character of
    a stream that is not at its end, and stays within the line; it moves
    nothing but the cursor. *)
Theorem flagToken_advances stream :
  0 <= ss_pos stream < strlen (ss_string stream) ->
  ss_pos stream < ss_pos (flagToken stream).2 <= strlen (ss_string stream) /\
  ss_string (flagToken stream).2 = ss_string stream /\
  ss_start (flagToken stream).2 = ss_start stream.
Proof.
  intros Hpos. unfold flagToken, eatSpace, eatWhile.
  destruct (eatWhile_loop_spec MiniRegExp.isSpace (String.length (ss_string stream)) stream)
    as (p & -> & Hle & Hhi & _).
  cbn [ss_pos set_pos].
  destruct (Z.ltb_spec (ss_pos stream) p) as [Hlt|Hge].
  { simpl. split; [lia | done]. }
  replace p with (ss_pos stream) by lia. rewrite set_pos_same.
  destruct (eatWhile_loop_spec MiniRegExp.isWord (String.length (ss_string stream)) stream)
    as (q & -> & Hle' & Hhi' & _).
  cbn [ss_pos set_pos].
  destruct (Z.ltb_spec (ss_pos stream) q) as [Hlt|Hge'].
  { simpl. split; [lia | done]. }
  replace q with (ss_pos stream) by lia. rewrite set_pos_same.
  unfold next. destruct (Z.ltb_spec (ss_pos stream) (strlen (ss_string stream))); [|lia].
  simpl. split; [lia | done].
Qed.

(** X22: the flag mode styles the keyword [if] and nothing else.  A token
    gets the keyword style exactly when its text is [if]; such a token is a
    whole run of word characters: the character after it is not one. *)
Theorem flagToken_keyword stream :
  0 <= ss_pos stream <= strlen (ss_string stream) -> ss_start stream = ss_pos stream ->
  (flagToken stream).1
  = (if String.eqb (current (flagToken stream).2) "if"
     then Some (flagKeywordStyle "if") else None) /\
  ((flagToken stream).1 <> None ->
   match charAt (ss_string stream) (ss_pos (flagToken stream).2) with
   | Some c => MiniRegExp.isWord c = false
   | None => True
   end).
Proof.
  intros Hpos Hstart. unfold flagToken, eatSpace, eatWhile.
  destruct (eatWhile_loop_spec MiniRegExp.isSpace (String.length (ss_string stream)) stream)
    as (p & -> & Hle & Hhi & Hspace).
  cbn [ss_pos set_pos].
  destruct (Z.ltb_spec (ss_pos stream) p) as [Hlt|Hge].
  { cbn [fst snd]. split; [|done].
    unfold current. cbn [ss_string ss_start ss_pos set_pos]. rewrite Hstart.
    rewrite slice_window by lia.
    destruct (String.eqb_spec
                (String.substring (Z.to_nat (ss_pos stream)) (Z.to_nat (p - ss_pos stream))
                   (ss_string stream)) "if") as [Heq|]; [|done].
    exfalso. destruct (Hspace (ss_pos stream)) as (c & Hc & Hs); [lia|].
    apply (f_equal (String.get 0)) in Heq. rewrite get_substring_0 in Heq by lia.
    unfold charAt in Hc. destruct (Z.ltb_spec (ss_pos stream) 0); [lia|].
    rewrite Hc in Heq. simpl in Heq. inversion Heq; subst. discriminate Hs. }
  replace p with (ss_pos stream) by lia. rewrite set_pos_same.
  pose proof (eatWhile_loop_stops MiniRegExp.isWord (String.length (ss_string stream)) stream)
    as Hstop.
  destruct (eatWhile_loop_spec MiniRegExp.isWord (String.length (ss_string stream)) stream)
    as (q & Hq & Hle' & Hhi' & Hword).
  rewrite Hq in *. cbn [ss_pos set_pos] in *.
  destruct (Z.ltb_spec (ss_pos stream) q) as [Hlt|Hge'].
  { cbn [fst snd ss_pos set_pos]. split.
    - unfold current. cbn [ss_string ss_start ss_pos set_pos].
      unfold FLAG_KEYWORDS, arrayIndexOf.
      set (w := slice (ss_string stream) (ss_start stream) (Some q)).
      destruct (String.eqb_spec w "if") as [->|Hne]; [done|].
      destruct (String.eqb_spec "if" w) as [Heq|_]; [by destruct Hne | done].
    - intros _. apply Hstop; [lia|]. unfold strlen. lia. }
  replace q with (ss_pos stream) by lia. rewrite set_pos_same.
  unfold next. cbn [fst snd]. split; [|done].
  unfold current.
  destruct (Z.ltb_spec (ss_pos stream) (strlen (ss_string stream))) as [Hin|Hout];
    cbn [snd ss_string ss_start ss_pos set_pos]; rewrite Hstart.
  - rewrite slice_window by lia.
    destruct (String.eqb_spec
                (String.substring (Z.to_nat (ss_pos stream))
                   (Z.to_nat (ss_pos stream + 1 - ss_pos stream)) (ss_string stream))
                "if") as [Heq|]; [|done].
    apply (f_equal String.length) in Heq. rewrite length_substring in Heq.
    simpl String.length in Heq. lia.
  - rewrite slice_window by lia.
    replace (Z.to_nat (ss_pos stream - ss_pos stream)) with 0%nat by lia.
    by rewrite substring_none.
Qed.

(** The flag mode is a tokenizer that advances. *)
Lemma flagToken_moves stream :
  ss_pos stream < strlen (ss_string stream) ->
  ss_pos stream < ss_pos (flagToken stream).2.
Proof.
  intros Hpos. unfold flagToken, eatSpace, eatWhile.
  destruct (eatWhile_loop_spec MiniRegExp.isSpace (String.length (ss_string stream)) stream)
    as (p & -> & Hle & _).
  cbn [ss_pos set_pos].
  destruct (Z.ltb_spec (ss_pos stream) p) as [Hlt|Hge]; [done|].
  replace p with (ss_pos stream) by lia. rewrite set_pos_same.
  destruct (eatWhile_loop_spec MiniRegExp.isWord (String.length (ss_string stream)) stream)
    as (q & -> & Hle' & _).
  cbn [ss_pos set_pos].
  destruct (Z.ltb_spec (ss_pos stream) q) as [Hlt|Hge']; [done|].
  replace q with (ss_pos stream) by lia. rewrite set_pos_same.
  unfold next. destruct (Z.ltb_spec (ss_pos stream) (strlen (ss_string stream))); [|lia].
  simpl. lia.
Qed.

Lemma flagHost_advancing : @advancing flagHost.
Proof.
  intros mode tok stream s Hm Hpos. destruct mode as [| | | |name|]; try done.
  simpl in Hm. destruct (String.eqb name "cxj-template-flag"); [|done].
  inversion Hm; subst. pose proof (flagToken_moves stream Hpos) as H.
  by destruct (flagToken stream) as [style stream'].
Qed.

Lemma flagHost_cursorOnly : @cursorOnly flagHost.
Proof.
  intros mode tok stream s Hm. destruct mode as [| | | |name|]; try done.
  simpl in Hm. destruct (String.eqb name "cxj-template-flag"); [|done].
  inversion Hm; subst. clear Hm.
  assert (H : exists p, (flagToken stream).2 = set_pos p stream).
  { unfold flagToken, eatSpace, eatWhile.
    destruct (eatWhile_loop_spec MiniRegExp.isSpace (String.length (ss_string stream)) stream)
      as (p & -> & Hle & _).
    cbn [ss_pos set_pos].
    destruct (Z.ltb_spec (ss_pos stream) p) as [Hlt|Hge]; [by exists p|].
    replace p with (ss_pos stream) by lia. rewrite set_pos_same.
    destruct (eatWhile_loop_spec MiniRegExp.isWord (String.length (ss_string stream)) stream)
      as (q & -> & Hle' & _).
    cbn [ss_pos set_pos].
    destruct (Z.ltb_spec (ss_pos stream) q) as [Hlt|Hge']; [by exists q|].
    replace q with (ss_pos stream) by lia. rewrite set_pos_same.
    unfold next. destruct (ss_pos stream <? strlen (ss_string stream)); simpl.
    - by eexists.
    - exists (ss_pos stream). by rewrite set_pos_same. }
  destruct H as [p Hp]. exists p.
  by destruct (flagToken stream) as [style stream'].
Qed.

End FlagMode.

(** * What a copy shares with the original *)

Section HeapMore.

Context {host : Host}.

Import Heap.

#[local] Set Warnings "-clear-no-such-hyp".

(** X23: a copy shares the cache of expressions with the original: its
    [regExpCache] field holds the same object, so an expression that one of
    the two states compiles is found by the other.  The layer array of the
    copy is a new array with the layers of the original (empty when the
    original has none), and the scalar fields are copied. *)
Theorem copyState_shares_cache h s F v :
  owns h s F v ->
  exists s' h' st st' la,
    copyState (length (v_patterns v) + length (v_modes v)) s h = Done (s', h') /\
    h !! s = Some (OState st) /\ h' !! s' = Some (OState st') /\
    regExpCache st' = regExpCache st /\
    textBefore st' = textBefore st /\ useRoot st' = useRoot st /\
    start st' = start st /\
    layers st' = Some la /\ ¬ (la ∈ dom h) /\
    h' !! la = Some (OLayers (spreadLayers (layers st) h)).
Proof.
  intros (st & Fp & Fs & Hs & Hp & Hss & Hc & ->).
  unfold copyState. rewrite Hs.
  destruct (alloc (OLayers _) h) as [la h0] eqn:Ea.
  apply alloc_spec in Ea as [Hla ->].
  set (h0 := <[la := _]> h).
  assert (Hold0 : forall l, l ∈ dom h -> h0 !! l = h !! l)
    by (intros; by apply lookup_alloc_old).
  assert (Hd0 : dom h0 = {[la]} ∪ dom h) by apply dom_insert_L.
  assert (Hla0 : h0 !! la = Some (OLayers (spreadLayers (layers st) h)))
    by apply lookup_insert_eq.
  pose proof (pstack_dom _ _ _ _ Hp) as HFp.
  pose proof (sstack_dom _ _ _ _ Hss) as HFs.
  assert (Hp0 : pstack h0 (patternContext st) Fp (v_patterns v)).
  { eapply pstack_frame; [done|]. intros; apply Hold0; set_solver. }
  destruct (copyPatternContext_spec _ _ _ _ Hp0
              (length (v_patterns v) + length (v_modes v)))
    as (pc & h1 & Fp' & -> & Hp1 & Hdp & Hsub1 & Hold1); [lia|].
  simpl.
  assert (Hss1 : sstack h1 (stateContext st) Fs (v_modes v)).
  { eapply sstack_frame; [done|]. intros k Hk.
    rewrite Hold1 by set_solver. apply Hold0. set_solver. }
  destruct (copyStateContext_spec _ _ _ _ Hss1
              (length (v_patterns v) + length (v_modes v)))
    as (sc & h2 & Fs' & -> & Hs2 & Hds & Hsub2 & Hold2); [lia|].
  simpl. unfold cloneDeep.
  assert (Hcd : customs st ∈ dom h) by (apply elem_of_dom; eauto).
  rewrite Hold2, Hold1, Hold0, Hc by set_solver.
  destruct (alloc (OCustoms _) h2) as [cu h3] eqn:Eb.
  apply alloc_spec in Eb as [Hcu ->]. simpl.
  destruct (alloc (OState _) _) as [s' h4] eqn:Ec.
  apply alloc_spec in Ec as [Hs' ->]. rewrite dom_insert_L in Hs'.
  assert (Hla2 : la ∈ dom h2) by set_solver.
  clearbody h0.
  eexists s', _, st, _, la. split; [done|]. split; [done|].
  split; [apply lookup_insert_eq|]. simpl.
  repeat (split; [done|]).
  rewrite !lookup_insert_ne by set_solver.
  rewrite Hold2, Hold1 by set_solver. done.
Qed.

(** ** The initial states share the state of the base mode *)

Lemma alloc_lookup (o : object) (h : heap) l h' :
  alloc o h = (l, h') ->
  ¬ (l ∈ dom h) /\ dom h' = {[l]} ∪ dom h /\ h' !! l = Some o /\
  forall k, k ∈ dom h -> h' !! k = h !! k.
Proof.
  intros H. apply alloc_spec in H as [Hl ->]. split; [done|].
  split; [apply dom_insert_L|]. split; [apply lookup_insert_eq|].
  intros k Hk. by apply lookup_alloc_old.
Qed.

Lemma heapStartState_spec root init h s h' :
  heapStartState root init h = (s, h') ->
  exists pc cache cu,
    h' !! s = Some (OState {| textBefore := ""; patternContext := Some pc;
                              stateContext := init; useRoot := false; start := false;
                              layers := None; regExpCache := cache; customs := cu |}) /\
    h' !! pc = Some (OPatternContext None root) /\
    h' !! cu = Some (OCustoms ∅) /\
    ¬ (s ∈ dom h) /\ ¬ (pc ∈ dom h) /\ ¬ (cu ∈ dom h) /\
    s ∈ dom h' /\ pc ∈ dom h' /\ cu ∈ dom h' /\
    dom h ⊆ dom h' /\
    forall k, k ∈ dom h -> h' !! k = h !! k.
Proof.
  unfold heapStartState.
  destruct (alloc (OPatternContext None root) h) as [pc hb] eqn:E1.
  destruct (alloc (ORegExpCache ∅) hb) as [cache hc] eqn:E2.
  destruct (alloc (OCustoms ∅) hc) as [cu hd] eqn:E3.
  intros E4.
  apply alloc_lookup in E1 as (N1 & D1 & L1 & O1).
  apply alloc_lookup in E2 as (N2 & D2 & L2 & O2).
  apply alloc_lookup in E3 as (N3 & D3 & L3 & O3).
  apply alloc_lookup in E4 as (N4 & D4 & L4 & O4).
  assert (Hpc : pc ∈ dom hb) by (rewrite D1; set_solver).
  assert (Hpc' : pc ∈ dom hc) by (rewrite D2; set_solver).
  assert (Hpc'' : pc ∈ dom hd) by (rewrite D3; set_solver).
  assert (Hcu : cu ∈ dom hd) by (rewrite D3; set_solver).
  assert (Hsub : dom h ⊆ dom hd) by (rewrite D3, D2, D1; set_solver).
  exists pc, cache, cu. split; [done|].
  split; [by rewrite O4, O3, O2|].
  split; [by rewrite O4|].
  split; [intros Hs; apply N4; by apply Hsub|].
  split; [done|].
  split; [intros Hc; apply N3; rewrite D2, D1; set_solver|].
  split; [rewrite D4; set_solver|].
  split; [rewrite D4; set_solver|].
  split; [rewrite D4; set_solver|].
  split; [rewrite D4; set_solver|].
  intros k Hk.
  rewrite O4 by (by apply Hsub).
  rewrite O3 by (rewrite D2, D1; set_solver).
  rewrite O2 by (rewrite D1; set_solver).
  by apply O1.
Qed.

(** X24: the states that [startState] returns are not independent: they
    all hold the one [initialStateContext] link that the factory of the mode
    has built, and with it the one state object of the base mode.  Two
    initial states are different objects with their own pattern link and
    their own [customs], but what the tokenizer of the base mode writes to
    its state through one of them is what the other one holds afterwards. *)
Theorem startState_shares_base_mode baseMode root h :
  truthy baseMode = true ->
  exists init h0 s1 h1 s2 h2 F1 F2,
    newInitialStateContext baseMode h = (init, h0) /\
    heapStartState root init h0 = (s1, h1) /\
    heapStartState root init h1 = (s2, h2) /\
    s1 <> s2 /\
    owns h2 s1 F1 (startView root baseMode (modeStartState baseMode None)) /\
    owns h2 s2 F2 (startView root baseMode (modeStartState baseMode None)) /\
    forall v, exists h3,
      perform s1 (SetLocalState v) h2 = Done h3 /\
      owns h3 s2 F2 (startView root baseMode v).
Proof.
  intros Hmode. unfold newInitialStateContext. rewrite Hmode.
  destruct (alloc (OModeState (modeStartState baseMode None)) h) as [ls ha] eqn:Ea.
  destruct (alloc (OStateContext None baseMode ls) ha) as [l h0] eqn:Eb.
  destruct (heapStartState root (Some l) h0) as [s1 h1] eqn:E1.
  destruct (heapStartState root (Some l) h1) as [s2 h2] eqn:E2.
  apply alloc_lookup in Ea as (Na & Da & La & Oa).
  apply alloc_lookup in Eb as (Nb & Db & Lb & Ob).
  pose proof (heapStartState_spec _ _ _ _ _ E1)
    as (pc1 & cache1 & cu1 & Ls1 & Lp1 & Lc1 & Ns1 & Np1 & Nc1 & Is1 & Ip1 & Ic1 & Sub1 & O1).
  pose proof (heapStartState_spec _ _ _ _ _ E2)
    as (pc2 & cache2 & cu2 & Ls2 & Lp2 & Lc2 & Ns2 & Np2 & Nc2 & Is2 & Ip2 & Ic2 & Sub2 & O2).
  assert (Hls0 : ls ∈ dom h0) by (rewrite Db, Da; set_solver).
  assert (Hl0 : l ∈ dom h0) by (rewrite Db; set_solver).
  assert (Hls_l : ls <> l) by (intros ->; apply Nb; rewrite Da; set_solver).
  assert (Lls0 : h0 !! ls = Some (OModeState (modeStartState baseMode None)))
    by (rewrite Ob, La; [done | rewrite Da; set_solver]).
  assert (Ll2 : h2 !! l = Some (OStateContext None baseMode ls)).
  { rewrite O2 by (by apply Sub1). by rewrite O1. }
  assert (Lls2 : h2 !! ls = Some (OModeState (modeStartState baseMode None))).
  { rewrite O2 by (by apply Sub1). by rewrite O1. }
  clear Oa Ob La Lb Da Db Na Nb.
  eexists (Some l), h0, s1, h1, s2, h2, _, _.
  split; [done|]. split; [done|]. split; [done|].
  split; [intros ->; by apply Ns2|].
  split.
  { eexists _, ({[pc1]} ∪ ∅), ({[l; ls]} ∪ ∅). split; [by rewrite O2|]. simpl.
    split; [econstructor; [by rewrite O2 | constructor]|].
    split; [econstructor; [exact Ll2 | exact Lls2 | set_solver | set_solver | constructor]|].
    split; [by rewrite O2 | reflexivity]. }
  split.
  { eexists _, ({[pc2]} ∪ ∅), ({[l; ls]} ∪ ∅). split; [exact Ls2|]. simpl.
    split; [econstructor; [exact Lp2 | constructor]|].
    split; [econstructor; [exact Ll2 | exact Lls2 | set_solver | set_solver | constructor]|].
    split; [exact Lc2 | reflexivity]. }
  intros v. eexists. split.
  { unfold perform. rewrite O2, Ls1 by done. simpl. rewrite Ll2. reflexivity. }
  assert (Hs2 : s2 <> ls) by (intros ->; apply Ns2; by apply Sub1).
  assert (Hp2 : pc2 <> ls) by (intros ->; apply Np2; by apply Sub1).
  assert (Hc2 : cu2 <> ls) by (intros ->; apply Nc2; by apply Sub1).
  eexists _, ({[pc2]} ∪ ∅), ({[l; ls]} ∪ ∅).
  split; [rewrite lookup_insert_ne by done; exact Ls2|]. simpl.
  split; [econstructor; [rewrite lookup_insert_ne by done; exact Lp2 | constructor]|].
  split.
  { econstructor; [rewrite lookup_insert_ne by done; exact Ll2 | apply lookup_insert_eq
                  | set_solver | set_solver | constructor]. }
  split; [rewrite lookup_insert_ne by done; exact Lc2 | reflexivity].
Qed.

End HeapMore.

(** * Termination of the scan for grammars whose matches advance *)

Section Productive.

Context {engine : RegExpEngine}.

Lemma self_paired st : coherent (regExpCache st) -> paired st st.
Proof. intros H. split; [done|]. by split. Qed.

Lemma match_coherent line position mode pattern st :
  wfSpec (Some pattern) /\ blindSpec (Some pattern) ->
  coherent (regExpCache st) ->
  coherent (regExpCache (match_ line position mode pattern st).2).
Proof.
  intros [Hwf Hbl] Hco.
  pose proof (match_simulates line position mode pattern st st (self_paired _ Hco) Hwf Hbl)
    as H.
  destruct (match_ line position mode pattern st) as [[p m] st1].
  by destruct H as [_ (_ & ? & _)].
Qed.

Lemma checkEscape_coherent st line k escape :
  wfSpec escape /\ blindSpec escape ->
  coherent (regExpCache st) ->
  coherent (regExpCache (checkEscape st line k escape).2).
Proof.
  intros [Hwf Hbl] Hco.
  pose proof (checkEscape_simulates line k escape st st (self_paired _ Hco) Hwf Hbl) as H.
  destruct (checkEscape st line k escape) as [e st1].
  by destruct H as [_ (_ & ? & _)].
Qed.

Section Specs.

Variables (line : string) (pattern : PatternLike) (escape : option PatternLike).
Hypothesis Hpattern : wfSpec (Some pattern) /\ blindSpec (Some pattern).
Hypothesis Hescape : wfSpec escape /\ blindSpec escape.
Hypothesis Hprod : productiveMatch pattern.

(** The loop of [matchWithEscape] on a match that advances: every further
    search starts after the match before, so the loop ends within the
    line. *)
Lemma matchWithEscape_loop_productive :
  forall fuel pos m e st,
    coherent (regExpCache st) ->
    0 <= pos -> 0 < matchedLength m -> pos + matchedLength m <= strlen line ->
    (Z.to_nat (strlen line - pos) < fuel)%nat ->
    exists r m' e' st',
      matchWithEscape_loop fuel line pattern escape pos m e st = Done (r, m', e', st') /\
      coherent (regExpCache st') /\
      (r = -1 \/
       (e' = false /\ pos <= r /\ 0 < matchedLength m' /\
        r + matchedLength m' <= strlen line)).
Proof.
  induction fuel as [|fuel IH]; intros pos m e st Hco Hpos Hm Hend Hfuel; [lia|].
  simpl. destruct (Z.eqb_spec pos (-1)); [lia|].
  pose proof (checkEscape_coherent st line pos escape Hescape Hco) as Hco1.
  destruct (checkEscape st line pos escape) as [e1 st1]. simpl in Hco1.
  destruct e1; simpl.
  - pose proof (match_coherent line (pos + matchedLength m) DEFAULT pattern st1
                  Hpattern Hco1) as Hco2.
    pose proof (Hprod line (pos + matchedLength m) st1 Hco1) as Hp.
    destruct (match_ line (pos + matchedLength m) DEFAULT pattern st1) as [[p' m'] st2].
    simpl in Hco2, Hp. destruct Hp as [->|(Hle & Hm' & Hend')]; [lia| |].
    + destruct fuel as [|fuel]; [lia|]. simpl.
      eexists _, _, _, _. split; [reflexivity|]. split; [done | by left].
    + destruct (IH p' m' true st2 Hco2) as (r & m2 & e2 & st3 & Hr & Hco3 & Hres);
        [lia | done | done | lia |].
      exists r, m2, e2, st3. split; [done|]. split; [done|].
      destruct Hres as [?|(? & ? & ? & ?)]; [by left|right].
      repeat split; first [done | lia].
  - eexists _, _, _, _. split; [reflexivity|]. split; [done|]. right.
    repeat split; first [done | lia].
Qed.

Lemma matchWithEscape_productive fuel position st :
  coherent (regExpCache st) -> 0 <= position ->
  (String.length line + 1 < fuel)%nat ->
  exists r m st',
    matchWithEscape fuel line position pattern escape st = Done (r, m, st') /\
    coherent (regExpCache st') /\
    (r = -1 \/
     (position <= r /\ 0 < matchedLength m /\ r + matchedLength m <= strlen line)).
Proof.
  intros Hco Hpos Hfuel. unfold matchWithEscape.
  pose proof (match_coherent line position DEFAULT pattern st Hpattern Hco) as Hco1.
  pose proof (Hprod line position st Hco Hpos) as Hp.
  destruct (match_ line position DEFAULT pattern st) as [[p m] st1].
  simpl in Hco1, Hp. destruct Hp as [->|(Hle & Hm & Hend)].
  - destruct fuel as [|fuel]; [lia|]. simpl.
    eexists _, _, _. split; [reflexivity|]. split; [done | by left].
  - destruct (matchWithEscape_loop_productive fuel p m false st1 Hco1)
      as (r & m' & e' & st2 & -> & Hco2 & Hres); [lia | done | done | |].
    { unfold strlen in *. lia. }
    simpl. destruct Hres as [->|(-> & Hle' & Hm' & Hend')].
    + exists (-1), None, st2. split; [by destruct e'|]. split; [done | by left].
    + exists r, m', st2. destruct (Z.eqb_spec r (-1)); [lia|].
      split; [done|]. split; [done|]. right. repeat split; first [done | lia].
Qed.

End Specs.

Lemma searchClose_productive fuel line offset close escape s st :
  wfSpec close /\ blindSpec close -> wfSpec escape /\ blindSpec escape ->
  productiveSpec close ->
  coherent (regExpCache st) -> 0 <= offset ->
  (String.length line + 1 < fuel)%nat ->
  advances line offset s ->
  exists s' st',
    searchClose fuel line offset close escape s st = Done (s', st') /\
    coherent (regExpCache st') /\ advances line offset s'.
Proof.
  intros Hc He Hprod Hco Hoff Hfuel Hs. unfold searchClose.
  unfold productiveSpec in Hprod.
  destruct (present close) as [c|] eqn:Hp; [|by exists s, st].
  pose proof (present_Some _ _ Hp) as ->.
  destruct (matchWithEscape_productive line c escape Hc He Hprod fuel offset st
              Hco Hoff Hfuel) as (r & m & st1 & -> & Hco1 & Hres).
  simpl. destruct (Z.leb_spec 0 r); [|by exists s, st1].
  eexists _, st1. split; [done|]. split; [done|]. right. simpl.
  destruct Hres as [?|(? & ? & ?)]; [lia | done].
Qed.

Lemma searchChildren_productive fuel arena line offset escape children :
  specsBlind arena -> productive arena ->
  wfSpec escape /\ blindSpec escape ->
  0 <= offset -> (String.length line + 1 < fuel)%nat ->
  forall s st,
    coherent (regExpCache st) -> advances line offset s ->
    exists s' st',
      searchChildren fuel arena line offset escape children s st = Done (s', st') /\
      coherent (regExpCache st') /\ advances line offset s'.
Proof.
  intros Hspecs Hprod He Hoff Hfuel.
  induction children as [|child children IH]; intros s st Hco Hs; simpl;
    [by exists s, st|].
  destruct (present (open (arena child))) as [o|] eqn:Hp; simpl; [|by apply IH].
  pose proof (present_Some _ _ Hp) as Ho.
  destruct (Hspecs child) as [(Hwo & _ & _) (Hbo & _ & _)]. rewrite Ho in Hwo, Hbo.
  destruct (Hprod child) as [Hpo _]. unfold productiveSpec in Hpo. rewrite Hp in Hpo.
  destruct (matchWithEscape_productive line o escape (conj Hwo Hbo) He Hpo fuel offset st
              Hco Hoff Hfuel) as (r & m & st1 & -> & Hco1 & Hres).
  simpl. destruct ((0 <=? r) && _) eqn:E; simpl; [|by apply IH].
  apply IH; [done|]. right. simpl. apply andb_true_iff in E as [E _].
  destruct Hres as [?|(? & ? & ?)]; [lia | done].
Qed.

Lemma search_productive fuel arena line offset P matched0 st :
  specsBlind arena -> productive arena ->
  coherent (regExpCache st) -> 0 <= offset ->
  (String.length line + 1 < fuel)%nat ->
  exists s st',
    search fuel arena line offset P matched0 st = Done (s, st') /\
    coherent (regExpCache st') /\ advances line offset s.
Proof.
  intros Hspecs Hprod Hco Hoff Hfuel. rewrite search_unfold.
  destruct (Hspecs P) as [(_ & Hwc & Hwe) (_ & Hbc & Hbe)].
  destruct (Hprod P) as [_ Hpc].
  destruct (searchClose_productive fuel line offset (close (arena P)) (escape (arena P))
              {| found := NoneFound; pos := -1; matched := matched0; nextPattern := P |}
              st (conj Hwc Hbc) (conj Hwe Hbe) Hpc Hco Hoff Hfuel)
    as (s1 & st1 & -> & Hco1 & Hs1); [by left|].
  simpl. by apply searchChildren_productive.
Qed.

Lemma search_done_productive fuel arena line offset P matched0 st s st1 :
  specsBlind arena -> productive arena ->
  coherent (regExpCache st) -> 0 <= offset ->
  search fuel arena line offset P matched0 st = Done (s, st1) ->
  coherent (regExpCache st1) /\ advances line offset s.
Proof.
  intros Hspecs Hprod Hco Hoff H.
  apply (search_mono fuel (fuel + String.length line + 2)) in H; [|lia].
  destruct (search_productive (fuel + String.length line + 2) arena line offset P
              matched0 st Hspecs Hprod Hco Hoff) as (s' & st' & Hs' & Hco' & Hadv); [lia|].
  rewrite Hs' in H. by inversion H; subst.
Qed.

Lemma transition_coherent cfg line offset P s st layer st' :
  cacheBlind cfg -> coherent (regExpCache st) ->
  transition cfg line offset P s st = Done (layer, st') ->
  coherent (regExpCache st').
Proof.
  intros (_ & HbE & HaE & HbX & HaX) Hco H.
  pose proof (transition_simulates cfg line offset P s st st HbE HaE HbX HaX
                (self_paired _ Hco)) as Hsim.
  rewrite H in Hsim. by destruct Hsim as [_ (_ & ? & _)].
Qed.

Lemma createLayers_loop_productive cfg line :
  cacheBlind cfg -> productive (arena cfg) ->
  forall fuel offset matched0 acc st,
    coherent (regExpCache st) -> 0 <= offset ->
    (Z.to_nat (strlen line - offset) + String.length line + 2 < fuel)%nat ->
    createLayers_loop fuel cfg line offset matched0 acc st <> Timeout.
Proof.
  intros Hcfg Hprod. pose proof Hcfg as (Hspecs & _).
  induction fuel as [|fuel IH]; intros offset matched0 acc st Hco Hoff Hfuel; [lia|].
  simpl. destruct (Z.ltb_spec offset (strlen line)); [|done].
  unfold getCurrentPattern. destruct (patternContext st) as [|P rest]; [done|]. simpl.
  destruct (search_productive fuel (arena cfg) line offset P matched0 st Hspecs Hprod
              Hco Hoff) as (s & st1 & -> & Hco1 & Hadv); [unfold strlen in *; lia|].
  simpl. destruct Hadv as [->|(Hle & Hlen & Hend)]; [done|].
  assert (Hgo : (let* (layer, st0) := transition cfg line offset P s st1 in
                 createLayers_loop fuel cfg line (pos s + matchedLength (matched s))
                   (matched s) (acc ++ [layer]) st0) <> Timeout).
  { pose proof (transition_finishes cfg line offset P s st1) as Ht.
    destruct (transition cfg line offset P s st1) as [[layer st2]| |] eqn:Et;
      simpl; try done.
    apply IH; [by eapply transition_coherent | lia |]. unfold strlen in *. lia. }
  by destruct (found s).
Qed.

Lemma scans_placed cfg line offset matched0 st ls st' :
  cacheBlind cfg -> productive (arena cfg) ->
  scans cfg line offset matched0 st ls st' ->
  coherent (regExpCache st) -> 0 <= offset ->
  placed line offset ls = true.
Proof.
  intros Hcfg Hprod H. pose proof Hcfg as (Hspecs & _).
  induction H as [offset m st Hge
                 |fuel' offset m st P s st1 Hlt HP Hs Hf
                 |fuel' offset m st P s st1 layer st2 ls st' Hlt HP Hs Hf Ht Hscan IH];
    intros Hco Hoff; [done | done |].
  destruct (search_done_productive _ _ _ _ _ _ _ _ _ Hspecs Hprod Hco Hoff Hs)
    as [Hco1 [?|(Hle & Hlen & Hend)]]; [done|].
  pose proof (transition_layer _ _ _ _ _ _ _ _ Ht) as (Hpos & Hm & _ & _).
  pose proof (transition_coherent _ _ _ _ _ _ _ _ Hcfg Hco1 Ht) as Hco2.
  apply transition_textBefore in Ht as [_ Hlayer].
  simpl. rewrite Hlayer, IH, Hpos, Hm by (done || lia).
  destruct (Z.leb_spec offset (pos s)); [|lia].
  destruct (Z.ltb_spec 0 (matchedLength (matched s))); [|lia].
  destruct (Z.leb_spec (pos s + matchedLength (matched s)) (strlen line)); [done|lia].
Qed.

(** X25: the scan of a line terminates when every match of an opener or a
    closer advances.  With a cache as the scanner leaves it, and callbacks and
    hooks that leave the cache alone, [createLayers] returns or throws within
    [2 * length line + 2] units of fuel, and the layers it returns lie in the
    line in order, without overlap, each over at least one character. *)
Theorem createLayers_productive fuel cfg st line offset :
  cacheBlind cfg -> productive (arena cfg) ->
  coherent (regExpCache st) -> 0 <= offset ->
  (2 * String.length line + 2 < fuel)%nat ->
  createLayers fuel cfg st line offset <> Timeout /\
  forall ls st', createLayers fuel cfg st line offset = Done (ls, st') ->
                 placed line offset ls = true.
Proof.
  intros Hcfg Hprod Hco Hoff Hfuel. split.
  - unfold createLayers. apply createLayers_loop_productive; try done.
    unfold strlen. lia.
  - intros ls st' H. apply createLayers_scans in H.
    by eapply scans_placed.
Qed.

(** ** Literal specs advance *)

Lemma productiveMatch_literal (pat : string) : pat <> "" -> productiveMatch (PString pat).
Proof.
  intros Hne line position st _ _. rewrite match_literal_forward. cbn [fst snd].
  destruct (indexOf_cases line pat position) as [Hi|Hi]; [by left|right].
  destruct (indexOf_found line pat position _ Hne eq_refl Hi) as (Ho & Hle & _).
  destruct (Z.leb_spec 0 (indexOf line pat position)); [|lia].
  assert (0 < strlen pat) by (unfold strlen; destruct pat; [done | simpl; lia]).
  destruct (occursAt_bound _ _ _ Ho) as [Hb|]; [|done].
  simpl. lia.
Qed.

Lemma productiveSpec_literal spec : literalSpec spec -> productiveSpec spec.
Proof.
  intros Hl. unfold productiveSpec.
  destruct (present spec) as [p|] eqn:Hp; [|done].
  pose proof (present_Some _ _ Hp) as ->. destruct p as [pat|r|f]; try done.
  apply productiveMatch_literal. by apply present_literal in Hp.
Qed.

End Productive.

(** * The preset grammar *)

Section Preset.

Context {engine : RegExpEngine} {host : Host}.

Lemma templateOpen_productive : productiveMatch (PFunction templateOpen).
Proof.
  intros line position st _ _. simpl. unfold templateOpen.
  destruct (negb _ || _); simpl; [by left|].
  destruct (Z.leb_spec 0 (indexOf line "[" position)) as [Hi|Hi]; simpl; [|by left].
  right.
  destruct (indexOf_found line "[" position _ ltac:(done) eq_refl Hi) as (Ho & Hle & _).
  destruct (occursAt_bound _ _ _ Ho) as [Hb|]; [|done].
  change (strlen "[") with 1 in *. lia.
Qed.

Lemma codeOpener_productive :
  boundedEngine -> nonEmptyMatches codeOpener ->
  productiveMatch (PRegExp {| source := codeOpener; flags := ""; lastIndex := 0 |}).
Proof.
  intros Hb Hn line position st Hco Hpos.
  rewrite match_regex_forward by done. cbn [source flags].
  change (normalizeSource codeOpener NONE) with codeOpener.
  change (normalizeFlags "" true) with "g".
  destruct (Z.ltb_spec (strlen line) position); [by left|].
  destruct (regExpMatch codeOpener "g" position line) as [[i m]|] eqn:E; [|by left].
  right. simpl.
  destruct (Hb codeOpener "g" position line i m) as [Hle Hend]; [lia | exact E |].
  pose proof (Hn _ _ _ _ _ E). done.
Qed.

Lemma preset_productive parserConfig :
  boundedEngine -> nonEmptyMatches codeOpener ->
  productive (arena parserConfig) ->
  productive (arena (finalParserConfig parserConfig)).
Proof.
  intros Hb Hn Hprod id. unfold finalParserConfig. cbn [arena].
  do 9 (destruct id as [|id];
        [split; unfold productiveSpec; simpl;
         first [done
               | by apply productiveMatch_literal
               | apply templateOpen_productive
               | by apply codeOpener_productive]|]).
  apply Hprod.
Qed.



End Preset.

(** * The engine of the examples *)

Section MiniEngine.

Import MiniRegExp.

Lemma searchFrom_range (re : list item) (s : string) :
  forall i index n,
    searchFrom re i s = Some (index, n) ->
    (i <= index <= i + String.length s)%nat.
Proof.
  induction s as [|c s IH]; intros i index n; simpl.
  - destruct (matchHere re i ""); [|done]. intros [= <- _]. lia.
  - destruct (matchHere re i (String c s)); [intros [= <- _]; lia|].
    intros H. apply IH in H. lia.
Qed.

Lemma searchFrom_one (a : atom) (re : list item) (s : string) :
  forall i index n,
    searchFrom (IAtom a One :: re) i s = Some (index, n) ->
    (index < i + String.length s)%nat /\ (0 < n)%nat.
Proof.
  induction s as [|c s IH]; intros i index n; [done|].
  cbn [searchFrom]. destruct (matchHere (IAtom a One :: re) i (String c s)) as [k|] eqn:E.
  - intros [= <- <-]. split; [simpl; lia|].
    simpl in E. destruct (atomMatches a c); [|done].
    destruct (matchHere re (S i) s); [|done]. inversion E. lia.
  - intros H. apply IH in H. simpl. lia.
Qed.

Lemma miniEngine_bounded : @boundedEngine miniEngine.
Proof.
  intros source flags from input i m Hfrom.
  change (run source flags from input = Some (i, m) ->
          from <= i /\ i + strlen m <= strlen input).
  unfold run. destruct (supportedFlags flags); [|done].
  destruct (parse _ source) as [re|]; [|done].
  destruct (searchFrom re _ _) as [[index n]|] eqn:E; [|done].
  intros [= <- <-]. apply searchFrom_range in E.
  rewrite length_substring in E. unfold strlen, clamp in *.
  rewrite length_substring. lia.
Qed.

Lemma miniEngine_codeOpener : @nonEmptyMatches miniEngine codeOpener.
Proof.
  intros flags from input i m.
  change (run codeOpener flags from input = Some (i, m) -> 0 < strlen m).
  unfold run. destruct (supportedFlags flags); [|done].
  change (parse (S (String.length codeOpener)) codeOpener)
    with (Some [IAtom (AChar "#") One; IAtom (AChar "{") One;
                IAtom (ASpace false) Star; IAtom (AChar ":") Opt]).
  cbv iota beta.
  destruct (searchFrom _ _ _) as [[index n]|] eqn:E; [|done].
  intros [= <- <-]. apply searchFrom_one in E as [Hlt Hn].
  rewrite length_substring in Hlt. unfold strlen, clamp in *.
  rewrite length_substring. lia.
Qed.

End MiniEngine.

(** * A whole line *)

Section WholeLine.

Context {engine : RegExpEngine} {host : Host}.

Lemma placed_ahead line c ls : placed line c ls = true -> ahead line c ls = true.
Proof.
  destruct ls as [|l ls]; [done|]. simpl. intros H.
  apply andb_true_iff in H as [H H4]. apply andb_true_iff in H as [H H3].
  apply andb_true_iff in H as [H1 H2]. rewrite H2, H3, H4.
  apply Z.leb_le in H1. apply Z.ltb_lt in H2. unfold layerEnd.
  destruct (Z.ltb_spec c (l_pos l + matchedLength (l_matched l))); [done | lia].
Qed.

Lemma ahead_first line c l ls :
  ahead line c (l :: ls) = true ->
  c < layerEnd l /\ 0 < matchedLength (l_matched l) /\ layerEnd l <= strlen line /\
  ahead line (layerEnd l) ls = true.
Proof.
  simpl. intros H.
  apply andb_true_iff in H as [H H4]. apply andb_true_iff in H as [H H3].
  apply andb_true_iff in H as [H1 H2].
  apply Z.ltb_lt in H1. apply Z.ltb_lt in H2. apply Z.leb_le in H3.
  repeat split; try done. by apply placed_ahead.
Qed.

Lemma ahead_move line c p l ls :
  ahead line c (l :: ls) = true -> p < layerEnd l -> ahead line p (l :: ls) = true.
Proof.
  simpl. intros H Hp.
  apply andb_true_iff in H as [H H4]. apply andb_true_iff in H as [H H3].
  apply andb_true_iff in H as [H1 H2]. rewrite H2, H3, H4.
  by destruct (Z.ltb_spec p (layerEnd l)); [|lia].
Qed.

Lemma tokenUntil_exact arena stream st until shift sync style stream' st' l rest :
  cursorOnly -> layers st = Some (l :: rest) ->
  tokenUntil arena stream st until shift sync = Done (style, stream', st') ->
  exists p, stream' = set_pos p stream /\ p <= until /\
            layers st' = Some (if (p =? until) && shift then rest else l :: rest).
Proof.
  intros Hcur Hl. unfold tokenUntil.
  destruct (match getLocalMode st ≫= modeToken with Some _ => _ | None => _ end)
    as [[style0 stream0] st0] eqn:E.
  assert (H0 : (exists p, stream0 = set_pos p stream /\ p <= until) /\
               layers st0 = Some (l :: rest)).
  { destruct (getLocalMode st) as [mode|] eqn:Em; simpl in E.
    - destruct (modeToken mode) as [tok|] eqn:Et.
      + destruct (Hcur mode tok stream (getLocalState st) Et) as [q Hq].
        destruct (tok stream (getLocalState st)) as [[a b] c]. simpl in Hq. subst b.
        inversion E; subst. split; [|by rewrite setLocalState_layers].
        cbn [ss_pos set_pos]. destruct (Z.ltb_spec until q).
        * exists until. split; [|lia]. unfold backUp. cbn [ss_pos set_pos].
          rewrite set_pos_twice. f_equal. lia.
        * exists q. split; [done | lia].
      + inversion E; subst. split; [|done]. exists until. split; [done | lia].
    - inversion E; subst. split; [|done]. exists until. split; [done | lia]. }
  destruct H0 as [(p & -> & Hp) Hl0].
  intros H. apply bind_Done in H as [st1 [Hs H]]. inversion H; subst.
  exists p. split; [done|]. split; [done|]. rewrite newlineAtEol_layers.
  unfold firstLayer in Hs. rewrite Hl0 in Hs. cbn [ss_pos set_pos] in Hs.
  destruct (p =? until); [|inversion Hs; by subst].
  apply bind_Done in Hs as [st2 [Hs Hd]].
  assert (Hl2 : layers st2 = Some (l :: rest)).
  { destruct sync; [apply syncState_layers in Hs; congruence | inversion Hs; congruence]. }
  inversion Hd; subst. destruct shift; [|done].
  unfold shiftLayers. by rewrite Hl2.
Qed.

Lemma tokenPattern_not_impossible arena stream st l rest o c :
  layers st = Some (l :: rest) -> ss_pos stream = l_pos l ->
  patternStyles (arena (if l_open l then l_nextPattern l else l_prePattern l))
  = Some (o, c) ->
  tokenPattern arena stream st <> Throws Impossible.
Proof.
  intros Hl Hpos Hst. unfold tokenPattern, firstLayer. rewrite Hl, Hst, Hpos, Z.eqb_refl.
  simpl.
  match goal with |- context [syncState ?a ?s ?t ?y] =>
    pose proof (syncState_not_impossible a s t y) as Hs;
    destruct (syncState a s t y) as [?|[]|] end; done.
Qed.

(** One call of the dispatcher with the pending layers ahead of the cursor:
    it does not fail with the internal-invariant error, it moves the cursor
    forward, and the layers that remain are ahead of the new cursor. *)
Lemma dispatch_step arena stream st rest :
  advancing -> cursorOnly ->
  ss_pos stream = ss_start stream ->
  ss_pos stream < strlen (ss_string stream) ->
  layers st = Some rest ->
  ahead (ss_string stream) (ss_pos stream) rest = true ->
  dispatch arena stream st <> Throws Impossible /\
  forall style stream' st',
    dispatch arena stream st = Done (style, stream', st') ->
    exists p rest',
      stream' = set_pos p stream /\ ss_pos stream < p /\
      layers st' = Some rest' /\ ahead (ss_string stream) p rest' = true /\
      start st' = start st.
Proof.
  intros Hadv Hcur Hpos Hlen Hl Hahead.
  assert (Hstart : forall style stream' st',
            dispatch arena stream st = Done (style, stream', st') -> start st' = start st).
  { intros style stream' st' H. apply dispatch_frame in H as (_ & _ & _ & H). done. }
  destruct rest as [|l rest].
  - (* no layer is pending *)
    unfold dispatch, firstLayer. rewrite Hl.
    destruct (getLocalMode st) as [mode|] eqn:Em; simpl.
    + destruct (modeToken mode) as [tok|] eqn:Et.
      * pose proof (Hadv mode tok stream (getLocalState st) Et Hlen) as Hp.
        destruct (Hcur mode tok stream (getLocalState st) Et) as [q Hq].
        destruct (tok stream (getLocalState st)) as [[a b] c]. simpl in Hp, Hq. subst b.
        split; [done|]. intros style stream' st' [= <- <- <-].
        exists q, []. split; [done|]. split; [done|].
        split; [by rewrite setLocalState_layers|]. split; [done|].
        unfold setLocalState. by destruct (stateContext st).
      * split; [done|]. intros style stream' st' [= <- <- <-].
        exists (strlen (ss_string stream)), []. done.
    + split; [done|]. intros style stream' st' [= <- <- <-].
      exists (strlen (ss_string stream)), []. done.
  - pose proof (ahead_first _ _ _ _ Hahead) as (Hc & Hw & Hend & Hrest).
    assert (Hfirst : firstLayer st = Some l) by (unfold firstLayer; by rewrite Hl).
    split.
    + unfold dispatch. rewrite Hfirst.
      destruct (ss_start stream <? l_pos l); [apply tokenUntil_not_impossible|].
      destruct (Z.eqb_spec (ss_start stream) (l_pos l)) as [Heq|Hne].
      * destruct (patternStyles _) as [[o c]|] eqn:Est.
        { eapply tokenPattern_not_impossible; [exact Hl | congruence | exact Est]. }
        destruct (l_open l && _); [apply tokenUntil_not_impossible|].
        destruct (negb (l_open l) && _); [|apply tokenUntil_not_impossible].
        destruct (truthy _); simpl; [|apply tokenUntil_not_impossible].
        unfold popStateContext. destruct (stateContext st); simpl;
          [done | apply tokenUntil_not_impossible].
      * destruct (Z.ltb_spec (ss_start stream) (l_pos l + matchedLength (l_matched l)));
          [apply tokenUntil_not_impossible|].
        unfold layerEnd in Hc. lia.
    + intros style stream' st' H. specialize (Hstart _ _ _ H).
      destruct (dispatch_layer _ _ _ _ _ _ _ Hfirst H)
        as [[Hlt Ht]|[Hin [[Heq Ht]|(st0 & sync & Hl0 & Ht)]]].
      * assert (Hu : ss_pos stream < l_pos l) by lia.
        pose proof (tokenUntil_advances _ _ _ _ _ _ _ _ _ Hadv Hlen Hu Ht) as Hgo.
        destruct (tokenUntil_exact _ _ _ _ _ _ _ _ _ _ _ Hcur Hl Ht) as (p & -> & Hp & Hl').
        cbn [ss_pos set_pos] in Hgo. rewrite andb_false_r in Hl'.
        exists p, (l :: rest). split; [done|]. split; [done|]. split; [done|].
        split; [|done]. eapply ahead_move; [exact Hahead|]. unfold layerEnd. lia.
      * apply tokenPattern_cursor in Ht as Hc'.
        destruct Hc' as (l' & rest' & Hl' & Hl'' & Hp).
        rewrite Hl in Hl'. inversion Hl'; subst l' rest'.
        assert (Hs' : exists q, stream' = set_pos q stream).
        { unfold tokenPattern in Ht. rewrite Hfirst in Ht.
          destruct (patternStyles _) as [[o c]|]; [|done].
          destruct (negb _); [done|].
          apply bind_Done in Ht as [st1 [_ Ht]]. inversion Ht; subst. by eexists. }
        destruct Hs' as [q ->]. cbn [ss_pos set_pos] in Hp. subst q.
        exists (layerEnd l), rest. split; [done|]. split; [lia|]. done.
      * assert (Hl0' : layers st0 = Some (l :: rest)) by congruence.
        assert (Hu : ss_pos stream < layerEnd l) by lia.
        pose proof (tokenUntil_advances _ _ _ _ _ _ _ _ _ Hadv Hlen Hu Ht) as Hgo.
        destruct (tokenUntil_exact _ _ _ _ _ _ _ _ _ _ _ Hcur Hl0' Ht)
          as (p & -> & Hp & Hl').
        cbn [ss_pos set_pos] in Hgo. rewrite andb_true_r in Hl'.
        destruct (Z.eqb_spec p (layerEnd l)) as [->|Hne].
        -- exists (layerEnd l), rest. done.
        -- exists p, (l :: rest). split; [done|]. split; [done|]. split; [done|].
           split; [|done]. eapply ahead_move; [exact Hahead|]. lia.
Qed.

Lemma append_cons (c : ascii) (a b : string) : String c a +:+ b = String c (a +:+ b).
Proof. done. Qed.

Lemma substring_split (s : string) :
  forall n i j,
    String.substring n i s +:+ String.substring (n + i) j s
    = String.substring n (i + j) s.
Proof.
  induction s as [|c s IH]; intros n i j.
  - by destruct n, i, j.
  - destruct n as [|n]; [|apply IH].
    destruct i as [|i]; [done|].
    simpl. rewrite append_cons. f_equal. apply (IH 0%nat).
Qed.

Lemma slice_split (s : string) (a b : Z) :
  0 <= a <= b ->
  slice s a (Some b) +:+ slice s b None = slice s a None.
Proof.
  intros H. unfold slice, relIndex.
  assert (0 <= strlen s) by (unfold strlen; lia).
  destruct (Z.ltb_spec a 0); [lia|]. destruct (Z.ltb_spec b 0); [lia|].
  set (len := strlen s) in *.
  replace (Z.to_nat (Z.min b len))
    with (Z.to_nat (Z.min a len) + Z.to_nat (Z.min b len - Z.min a len))%nat by lia.
  rewrite substring_split. f_equal. lia.
Qed.

Lemma slice_all (s : string) : slice s 0 None = s.
Proof.
  unfold slice, relIndex. simpl.
  replace (Z.to_nat (Z.min 0 (strlen s))) with 0%nat by (unfold strlen; lia).
  replace (Z.to_nat (strlen s - Z.min 0 (strlen s))) with (String.length s)
    by (unfold strlen; lia).
  apply substring_all.
Qed.

(** The loop of the host from a cursor inside the line. *)
Lemma tokenize_mid cfg fuel :
  advancing -> cursorOnly ->
  forall n stream st rest,
    start st = true -> ss_lineStart stream < ss_pos stream -> 0 <= ss_pos stream ->
    ss_pos stream = ss_start stream ->
    layers st = Some rest ->
    ahead (ss_string stream) (ss_pos stream) rest = true ->
    tokenize n fuel cfg stream st <> Throws Impossible /\
    forall toks st',
      (Z.to_nat (strlen (ss_string stream) - ss_pos stream) <= n)%nat ->
      tokenize n fuel cfg stream st = Done (toks, st') ->
      joined (map snd toks) = slice (ss_string stream) (ss_pos stream) None /\
      firstLayer st' = None.
Proof.
  intros Hadv Hcur.
  assert (Hend : forall (stream : StringStream) st rest,
            layers st = Some rest ->
            ahead (ss_string stream) (ss_pos stream) rest = true ->
            strlen (ss_string stream) <= ss_pos stream ->
            slice (ss_string stream) (ss_pos stream) None = "" /\ firstLayer st = None).
  { intros stream st rest Hl Ha Hge. split; [by apply slice_past_end|].
    unfold firstLayer. rewrite Hl. destruct rest as [|l rest]; [done|].
    apply ahead_first in Ha as (? & _ & ? & _). lia. }
  induction n as [|n IH]; intros stream st rest Hst Hsol H0 Hpos Hl Ha.
  - split; [done|]. intros toks st' Hn [= <- <-]. simpl.
    destruct (Hend stream st rest Hl Ha) as [-> ?]; [lia | done].
  - cbn [tokenize]. unfold eol.
    destruct (Z.leb_spec (strlen (ss_string stream)) (ss_pos stream)) as [Hge|Hlt].
    { split; [done|]. intros toks st' Hn [= <- <-]. simpl.
      by destruct (Hend stream st rest Hl Ha Hge) as [-> ?]. }
    assert (Hscan : scanLine fuel cfg stream st = Done st).
    { unfold scanLine, sol. rewrite Hst.
      by destruct (Z.eqb_spec (ss_pos stream) (ss_lineStart stream)); [lia|]. }
    unfold token. rewrite Hscan. cbn [bind].
    destruct (dispatch_step (arena cfg) stream st rest Hadv Hcur Hpos Hlt Hl Ha)
      as [Hnot Hdone].
    destruct (dispatch (arena cfg) stream st) as [[[style stream'] st1]|e|] eqn:Ed;
      cbn [bind]; [|split; [congruence | done]|split; done].
    destruct (Hdone _ _ _ eq_refl) as (p & rest' & -> & Hp & Hl' & Ha' & Hst').
    set (stream2 := startAt (ss_pos (set_pos p stream)) (set_pos p stream)).
    destruct (IH stream2 st1 rest') as [IH1 IH2];
      [congruence | simpl; lia | simpl; lia | reflexivity | exact Hl' | exact Ha' |].
    destruct (tokenize n fuel cfg stream2 st1) as [[toks' st2]|e|]; cbn [bind];
      [|split; [congruence | done]|split; done].
    split; [done|]. intros toks st' Hn [= <- <-].
    destruct (IH2 toks' st2) as [Hj Hf]; [simpl in *; lia | done |].
    split; [|done]. simpl in *. rewrite Hj. unfold current. simpl.
    rewrite <- Hpos. apply slice_split. lia.
Qed.

Lemma transition_not_impossible cfg line offset P s st :
  transition cfg line offset P s st <> Throws Impossible.
Proof.
  unfold transition. destruct (found s); simpl; try done;
    (unfold popPatternContext; destruct (patternContext _); simpl; [done|];
     unfold getCurrentPattern; destruct (patternContext _); simpl; done).
Qed.

Lemma createLayers_loop_not_impossible cfg line :
  forall fuel offset matched0 acc st,
    createLayers_loop fuel cfg line offset matched0 acc st <> Throws Impossible.
Proof.
  induction fuel as [|fuel IH]; intros offset matched0 acc st; [done|].
  simpl. destruct (offset <? strlen line); [|done].
  unfold getCurrentPattern. destruct (patternContext st) as [|P rest]; [done|]. simpl.
  pose proof (search_frame fuel (arena cfg) line offset P matched0 st) as Hs.
  destruct (search fuel (arena cfg) line offset P matched0 st) as [[s st1]| |];
    simpl; try done.
  assert (Hgo : (let* (layer, st0) := transition cfg line offset P s st1 in
                 createLayers_loop fuel cfg line (pos s + matchedLength (matched s))
                   (matched s) (acc ++ [layer]) st0) <> Throws Impossible).
  { pose proof (transition_not_impossible cfg line offset P s st1) as Ht.
    destruct (transition cfg line offset P s st1) as [[layer st2]|e|]; simpl;
      [apply IH | congruence | done]. }
  by destruct (found s).
Qed.

Lemma scans_keeps_start cfg line offset matched0 st ls st' :
  hooksKeepStart cfg ->
  scans cfg line offset matched0 st ls st' -> start st' = start st.
Proof.
  intros (HbE & HaE & HbX & HaX) H.
  induction H as [offset m st Hge
                 |fuel' offset m st P s st1 Hlt HP Hs Hf
                 |fuel' offset m st P s st1 layer st2 ls st' Hlt HP Hs Hf Ht Hscan IH].
  - done.
  - apply search_same in Hs. apply (f_equal start) in Hs. simpl in *. congruence.
  - apply search_same in Hs. apply (f_equal start) in Hs. simpl in Hs.
    rewrite IH, Hs. clear IH Hscan Hs. unfold transition in Ht.
    destruct (found s); [| |done]; simpl in Ht.
    + inversion Ht; subst. cbn [start set_textBefore]. rewrite HaE.
      cbn [start pushPatternContext set_patternContext]. by rewrite HbE.
    + apply bind_Done in Ht as [[n st3] [Hp Ht]]. inversion Ht; subst.
      apply bind_Done in Hp as [st4 [Hp Hq]].
      apply bind_Done in Hq as [n' [_ Hq]]. inversion Hq; subst.
      cbn [start set_textBefore]. rewrite HaX.
      unfold popPatternContext in Hp.
      destruct (patternContext _); [done|]. inversion Hp; subst.
      cbn [start set_patternContext]. by rewrite HbX.
Qed.

(** X27: the tokens of a line.  When the host asks for the tokens of a line
    from its start, with a grammar whose matches advance and sub-mode
    tokenizers that advance and move only the cursor, no call fails with the
    internal-invariant error; and when the calls return, the texts of the
    tokens, one after the other, are the line, and no layer is left
    pending.  (The cache is as the scanner leaves it, and callbacks and hooks
    leave the cache and [state.start] alone.) *)
Theorem tokenize_partitions_line n fuel cfg line st :
  cacheBlind cfg -> productive (arena cfg) -> hooksKeepStart cfg ->
  coherent (regExpCache st) ->
  advancing -> cursorOnly ->
  tokenize n fuel cfg (streamOf line) st <> Throws Impossible /\
  forall toks st',
    (String.length line <= n)%nat ->
    tokenize n fuel cfg (streamOf line) st = Done (toks, st') ->
    joined (map snd toks) = line /\ (line <> "" -> firstLayer st' = None).
Proof.
  intros Hcfg Hprod Hstart Hco Hadv Hcur.
  destruct n as [|n].
  { split; [done|]. intros toks st' Hn [= <- <-].
    destruct line; [done | simpl in Hn; lia]. }
  cbn [tokenize]. unfold eol. cbn [ss_string ss_pos streamOf].
  destruct (Z.leb_spec (strlen line) 0) as [Hempty|Hlt].
  { split; [done|]. intros toks st' Hn [= <- <-].
    destruct line; [done | unfold strlen in Hempty; simpl in Hempty; lia]. }
  unfold token, scanLine, sol. cbn [ss_pos ss_lineStart streamOf].
  rewrite Z.eqb_refl, orb_true_r. unfold createLayers. cbn [ss_string ss_start streamOf].
  set (st0 := set_useRoot false (set_start true st)).
  pose proof (createLayers_loop_not_impossible cfg line fuel 0 None [] st0) as Hni.
  destruct (createLayers_loop fuel cfg line 0 None [] st0) as [[ls st1]|e|] eqn:Ec;
    cbn [bind]; [|split; [congruence | done]|split; done].
  apply createLayers_loop_scans in Ec as (new & Hnew & Hscan). simpl in Hnew. subst new.
  pose proof (scans_placed _ _ _ _ _ _ _ Hcfg Hprod Hscan Hco ltac:(lia)) as Hpl.
  pose proof (scans_keeps_start _ _ _ _ _ _ _ Hstart Hscan) as Hs1.
  destruct (dispatch_step (arena cfg) (streamOf line) (set_layers (Some ls) st1) ls
              Hadv Hcur eq_refl Hlt eq_refl (placed_ahead _ _ _ Hpl)) as [Hnot Hdone].
  destruct (dispatch (arena cfg) (streamOf line) (set_layers (Some ls) st1))
    as [[[style stream'] st2]|e|] eqn:Ed;
    cbn [bind]; [|split; [congruence | done]|split; done].
  destruct (Hdone _ _ _ eq_refl) as (p & rest' & -> & Hp & Hl' & Ha' & Hst').
  cbn [ss_pos set_pos streamOf] in Hp.
  set (stream2 := startAt (ss_pos (set_pos p (streamOf line))) (set_pos p (streamOf line))).
  destruct (tokenize_mid cfg fuel Hadv Hcur n stream2 st2 rest') as [IH1 IH2];
    [by rewrite Hst' | simpl; lia | simpl; lia | reflexivity | exact Hl' | exact Ha' |].
  destruct (tokenize n fuel cfg stream2 st2) as [[toks' st3]|e|]; cbn [bind];
    [|split; [congruence | done]|split; done].
  split; [done|]. intros toks st' Hn [= <- <-].
  destruct (IH2 toks' st3) as [Hj Hf]; [simpl; unfold strlen; lia | done |].
  split; [|done]. simpl in *. rewrite Hj. unfold current. simpl.
  rewrite slice_split by lia. apply slice_all.
Qed.

End WholeLine.

(** * Escape exhaustion for every kind of spec *)

Section Exhaustion.

Context {engine : RegExpEngine}.



Section OneSpec.

Variables (line : string) (offset : Z) (st0 : ITemplateState).
Variables (pattern : PatternLike) (escape : option PatternLike).
Hypothesis Hpattern : wfSpec (Some pattern).
Hypothesis Hescape : wfSpec escape.
Hypothesis Hoffset : 0 <= offset.
Hypothesis Hall :
  forall position st,
    offset <= position -> sameButCache st0 st -> coherent (regExpCache st) ->
    let r := match_ line position DEFAULT pattern st in
    r.1.1 = -1 \/
    (position <= r.1.1 /\ 0 < matchedLength r.1.2 /\
     r.1.1 + matchedLength r.1.2 <= strlen line /\
     (checkEscape r.2 line r.1.1 escape).1 = true).



End OneSpec.



(** A literal all of whose occurrences from [offset] on are escaped is such
    a spec. *)
Lemma allEscaped_literal line offset st0 (e : option string) spec :
  exhausted line offset e spec ->
  allEscaped line offset st0 (PString <$> e) spec.
Proof.
  unfold exhausted, allEscaped.
  destruct (present spec) as [[pat|r|f]|] eqn:Hp; try done.
  apply present_literal in Hp.
  intros Hex position st Hpos _ _. rewrite match_literal_forward. cbn [fst snd].
  destruct (indexOf_cases line pat position) as [Hi|Hi]; [by left|right].
  destruct (indexOf_found line pat position _ Hp eq_refl Hi) as (Hocc & Hle & _).
  destruct (Z.leb_spec 0 (indexOf line pat position)); [|lia].
  assert (0 < strlen pat) by (unfold strlen; destruct pat; [done | simpl; lia]).
  destruct (occursAt_bound _ _ _ Hocc) as [Hb|]; [|done].
  rewrite checkEscape_literal. cbn [fst matchedLength].
  split; [done|]. split; [done|]. split; [done|]. apply Hex; [lia | done].
Qed.


(** ** An escaped match without text *)



End Exhaustion.

(** * The theorems at concrete inputs *)

(** The line of the demonstration page: a flag header, a template with a
    code region, and two more templates; the stack is back at the root. *)
Example preset_scans_templates :
  summary (@createLayers miniEngine 100 demoConfig demoStart
             "where #[if][#{x==1}][a=1][a=0]" 0)
  = Some ([(6, Some "#[", true); (10, Some "]", false);
           (11, Some "[", true); (12, Some "#{", true);
           (18, Some "}", false); (19, Some "]", false);
           (20, Some "[", true); (24, Some "]", false);
           (25, Some "[", true); (29, Some "]", false)], [0%nat]).
Proof. vm_compute. reflexivity. Qed.

(** Nested brackets inside a code region open and close in order. *)
Example preset_scans_nesting :
  summary (@createLayers miniEngine 100 demoConfig demoStart "#{(a[b{c}]d)}" 0)
  = Some ([(0, Some "#{", true); (2, Some "(", true); (4, Some "[", true);
           (6, Some "{", true); (8, Some "}", false); (9, Some "]", false);
           (11, Some ")", false); (12, Some "}", false)], [0%nat]).
Proof. vm_compute. reflexivity. Qed.

(** An escaped quote does not close the string. *)
Example preset_scans_escaped_quote :
  summary (@createLayers miniEngine 100 demoConfig demoStart "a 'b\'c' d" 0)
  = Some ([(2, Some "'", true); (7, Some "'", false)], [0%nat]).
Proof. vm_compute. reflexivity. Qed.


(** C2: the closing quote of [a\\'] is preceded by an escaped escape, and it
    is skipped all the same: the search for the closer finds nothing. *)
Lemma escaped_escape_is_skipped :
  occursAt "a\\'" "'" 3 /\
  String.substring 1 2 "a\\'" = "\" +:+ "\" /\
  @matchWithEscape miniEngine 10 "a\\'" 0 (PString "'") (Some (PString "\"))
    (stateIn [singleQuote; 0%nat])
  = Done (-1, None, stateIn [singleQuote; 0%nat]).
Proof. split; [split; [lia | reflexivity]|]. split; reflexivity. Qed.

Lemma matchWithEscape_single_lookback_witness :
  exists r,
    @matchWithEscape miniEngine 10 "a\\'" 0 (PString "'") (Some (PString "\"))
      (stateIn [singleQuote; 0%nat])
    = Done (r, (if r =? -1 then None else Some "'"), stateIn [singleQuote; 0%nat]) /\
    r <> 3.
Proof.
  destruct (@matchWithEscape_single_lookback miniEngine 10 "a\\'" 0 "'" "\"
              (stateIn [singleQuote; 0%nat]))
    as (r & Hr & _ & _ & Hee); [done | done | simpl; lia |].
  exists r. split; [exact Hr|]. exact (Hee "a" "" eq_refl).
Defined.

(** C3: the closer [/x$/] matches the [x] in the middle of [xa]. *)
Lemma end_anchor_matches_mid_line :
  (@match_ miniEngine "xa" 0 DEFAULT
     (PRegExp {| source := "x$"; flags := ""; lastIndex := 0 |}) (stateIn [0%nat])).1
  = (0, Some "x") /\
  0 + strlen "x" < strlen "xa".
Proof. split; [vm_compute; reflexivity | reflexivity]. Qed.

Lemma forward_search_drops_end_anchor_witness :
  normalizeSource ("x" +:+ "$") NONE = "x" /\
  normalizeSource ("x" +:+ "$") END = "x" +:+ "$" /\
  @match_ miniEngine "xa" 0 DEFAULT
    (PRegExp {| source := "x" +:+ "$"; flags := ""; lastIndex := 0 |}) (stateIn [0%nat])
  = @match_ miniEngine "xa" 0 DEFAULT
      (PRegExp {| source := "x"; flags := ""; lastIndex := 0 |}) (stateIn [0%nat]).
Proof.
  apply (@forward_search_drops_end_anchor miniEngine "x" "" 0 "xa" 0 (stateIn [0%nat]));
    [done | reflexivity | reflexivity].
Defined.

Lemma patternContext_never_empty_witness :
  patternContext demoStart <> [] /\
  returns (fun r => patternContext r.2 <> [] /\
             forall l, l ∈ r.1 -> l_open l = false ->
               present (close (arena demoConfig (l_prePattern l))) <> None /\
               l_prePattern l <> self demoConfig)
    (@createLayers miniEngine 40 demoConfig demoStart "where #[if][a=1]" 0).
Proof.
  destruct (@patternContext_never_empty miniEngine plainHost demoOptions demoStart)
    as [Hne Hall].
  - repeat split; intros st info; reflexivity.
  - apply reach_start.
  - split; [exact Hne|]. apply Hall.
Defined.

Example escape_exhaustion_literal_quote :
  @createLayers miniEngine 8 demoConfig (stateIn [singleQuote; 0%nat]) "a\'b" 0
  = Done ([], set_textBefore "a\'b" (stateIn [singleQuote; 0%nat])).
Proof.
  refine (proj2 (@escape_exhaustion_literal miniEngine 8 demoConfig "a\'b" 0
                   (stateIn [singleQuote; 0%nat]) singleQuote [0%nat] (Some "\")
                   _ _ _ _ _ _)).
  - simpl. lia.
  - reflexivity.
  - reflexivity.
  - reflexivity.
  - intros k Hk [_ Hocc].
    assert (Hcase : (Z.to_nat k = 0 \/ Z.to_nat k = 1 \/ Z.to_nat k = 2
                     \/ Z.to_nat k = 3 \/ 4 <= Z.to_nat k)%nat) by lia.
    destruct Hcase as [H|[H|[H|[H|H]]]].
    + rewrite H in Hocc. discriminate Hocc.
    + rewrite H in Hocc. discriminate Hocc.
    + replace k with 2 by lia. reflexivity.
    + rewrite H in Hocc. discriminate Hocc.
    + apply (f_equal String.length) in Hocc. rewrite length_substring in Hocc.
      simpl String.length in Hocc. lia.
  - intros c Hc. apply elem_of_nil in Hc. destruct Hc.
Qed.

Lemma openers_use_parent_escape_witness :
  @search miniEngine 8 (escapingBracket (arena demoConfig)) "a[b" 0 parenthesis None
    (stateIn [parenthesis; code; 0%nat])
  = @search miniEngine 8 (arena demoConfig) "a[b" 0 parenthesis None
      (stateIn [parenthesis; code; 0%nat]).
Proof.
  apply (proj1 (@openers_use_parent_escape miniEngine 8 (arena demoConfig) "a[b" 0
                  parenthesis None (stateIn [parenthesis; code; 0%nat])));
    [reflexivity|].
  intros c Hc.
  repeat (apply elem_of_cons in Hc as [->|Hc]; [reflexivity|]).
  apply elem_of_nil in Hc. destruct Hc.
Defined.




Lemma demoOptions_cacheBlind : cacheBlind demoOptions.
Proof.
  split; [|split; [|split; [|split]]; apply blindHook_None].
  intros id. by repeat split.
Qed.

Lemma coherent_empty : coherent ∅.
Proof. intros key r H. by rewrite lookup_empty in H. Qed.

(** A second scan of the line, from the saved state but with the cache that
    the first scan has filled, gives the same layers and the same state. *)
Lemma createLayers_deterministic_witness :
  match @createLayers miniEngine 40 demoConfig demoStart "where #[if][#{x==1}]" 0 with
  | Done (layers, st') =>
      @createLayers miniEngine 40 demoConfig
        (set_regExpCache (regExpCache st') demoStart) "where #[if][#{x==1}]" 0
      = Done (layers, st')
  | _ => False
  end.
Proof.
  destruct (@createLayers miniEngine 40 demoConfig demoStart "where #[if][#{x==1}]" 0)
    as [[layers st']| |] eqn:E;
    [|vm_compute in E; discriminate E|vm_compute in E; discriminate E].
  assert (Hblind : cacheBlind demoConfig)
    by apply finalParserConfig_cacheBlind, demoOptions_cacheBlind.
  refine (proj2 (proj2 (@createLayers_deterministic miniEngine 40 demoConfig
                          "where #[if][#{x==1}]" 0 demoStart
                          (set_regExpCache (regExpCache st') demoStart) Hblind _))
            layers st' E eq_refl).
  split; [reflexivity|]. split; [apply coherent_empty|].
  exact (@createLayers_coherent miniEngine 40 demoConfig "where #[if][#{x==1}]" 0
           demoStart layers st' Hblind coherent_empty E).
Defined.

Lemma initialHeap_owns :
  Heap.owns Heap.initialHeap 1%positive
    ({[1%positive; 2%positive]} ∪ ({[4%positive]} ∪ ∅) ∪ ∅) Heap.initialView.
Proof.
  eexists _, _, _. split; [reflexivity|]. simpl.
  split; [econstructor; [reflexivity | constructor]|].
  split; [constructor|]. split; reflexivity.
Qed.


(** * The further properties at concrete inputs *)

(** The preset grammar on its own: no hook of the integrator. *)
Lemma demoOptions_hooksKeepContext : hooksKeepContext demoOptions.
Proof. repeat split; intros st info; reflexivity. Qed.

Lemma demoConfig_hooksKeepContext : hooksKeepContext demoConfig.
Proof. apply finalParserConfig_hooks, demoOptions_hooksKeepContext. Qed.

Lemma demoConfig_hooksKeepModes : hooksKeepModes demoConfig.
Proof.
  repeat split; intros st info; try reflexivity.
  simpl. unfold defaultAfterExit. destruct (i_pattern info); [|done].
  by destruct (_ || _).
Qed.

Lemma demoConfig_cacheBlind : cacheBlind demoConfig.
Proof. apply finalParserConfig_cacheBlind, demoOptions_cacheBlind. Qed.

Lemma demoOptions_productive : @productive miniEngine (arena demoOptions).
Proof. intros id. by split. Qed.

Lemma tieArena_literal : literalGrammar tieArena.
Proof. intros id. do 4 (destruct id as [|id]; [by repeat split|]). by repeat split. Qed.

Lemma createLayers_textBefore_witness :
  match @createLayers miniEngine 20 demoConfig demoStart "a 'b' c" 0 with
  | Done (ls, st') =>
      textBefore st'
      = (match ls with [] => textBefore demoStart | _ => "" end)
        +:+ slice "a 'b' c" (lastEnd 0 ls) None
  | _ => False
  end.
Proof.
  destruct (@createLayers miniEngine 20 demoConfig demoStart "a 'b' c" 0)
    as [[ls st']| |] eqn:E;
    [|vm_compute in E; discriminate E|vm_compute in E; discriminate E].
  exact (@createLayers_textBefore miniEngine 20 demoConfig demoStart "a 'b' c" 0 ls st' E).
Defined.

Lemma createLayers_replay_witness :
  match @createLayers miniEngine 20 demoConfig demoStart "#{(a" 0 with
  | Done (ls, st') =>
      replay (patternContext demoStart) ls = Some (patternContext st') /\
      Z.of_nat (length (patternContext st'))
      = Z.of_nat (length (patternContext demoStart)) + balance ls
  | _ => False
  end.
Proof.
  destruct (@createLayers miniEngine 20 demoConfig demoStart "#{(a" 0)
    as [[ls st']| |] eqn:E;
    [|vm_compute in E; discriminate E|vm_compute in E; discriminate E].
  exact (@createLayers_replay miniEngine 20 demoConfig demoStart "#{(a" 0 ls st'
           demoConfig_hooksKeepContext E).
Defined.

Lemma createLayers_chain_witness :
  match @createLayers miniEngine 20 demoConfig demoStart "#{(a" 0 with
  | Done (ls, st') =>
      chain (arena demoConfig) (patternContext st') = true /\
      Forall (fun l => l_open l = true ->
                hasChild (arena demoConfig) (l_prePattern l) (l_nextPattern l) = true) ls
  | _ => False
  end.
Proof.
  destruct (@createLayers miniEngine 20 demoConfig demoStart "#{(a" 0)
    as [[ls st']| |] eqn:E;
    [|vm_compute in E; discriminate E|vm_compute in E; discriminate E].
  exact (@createLayers_chain miniEngine 20 demoConfig demoStart "#{(a" 0 ls st'
           demoConfig_hooksKeepContext eq_refl E).
Defined.

Lemma createLayers_keeps_modes_witness :
  match @createLayers miniEngine 20 demoConfig demoStart "#{(a" 0 with
  | Done (ls, st') => stateContext st' = stateContext demoStart
  | _ => False
  end.
Proof.
  destruct (@createLayers miniEngine 20 demoConfig demoStart "#{(a" 0)
    as [[ls st']| |] eqn:E;
    [|vm_compute in E; discriminate E|vm_compute in E; discriminate E].
  exact (@createLayers_keeps_modes miniEngine 20 demoConfig demoStart "#{(a" 0 ls st'
           demoConfig_hooksKeepModes E).
Defined.

Lemma createLayers_placed_witness :
  match @createLayers miniEngine 20 (noHooks tieArena) (stateIn [0%nat]) "x[a]]" 0 with
  | Done (ls, st') => placed "x[a]]" 0 ls = true
  | _ => False
  end.
Proof.
  destruct (@createLayers miniEngine 20 (noHooks tieArena) (stateIn [0%nat]) "x[a]]" 0)
    as [[ls st']| |] eqn:E;
    [|vm_compute in E; discriminate E|vm_compute in E; discriminate E].
  exact (@createLayers_placed miniEngine 20 (noHooks tieArena) (stateIn [0%nat])
           "x[a]]" 0 ls st' tieArena_literal E).
Defined.

Lemma createLayers_terminates_literal_witness :
  match @createLayers miniEngine 20 (noHooks tieArena) (stateIn [0%nat]) "x[a]]" 0 with
  | Timeout => False
  | _ => True
  end.
Proof.
  pose proof (@createLayers_terminates_literal miniEngine 20 (noHooks tieArena)
                (stateIn [0%nat]) "x[a]]" 0 tieArena_literal ltac:(lia)
                ltac:(simpl; lia)) as H.
  by destruct (@createLayers miniEngine 20 (noHooks tieArena) (stateIn [0%nat]) "x[a]]" 0).
Defined.

Lemma match_literal_leftmost_witness :
  exists i m,
    @match_ miniEngine "a]b]" 2 DEFAULT (PString "]") (stateIn [0%nat])
    = ((i, m), stateIn [0%nat]) /\
    ((i = -1 /\ m = None /\ forall j, 2 <= j -> ~ occursAt "a]b]" "]" j) \/
     (m = Some "]" /\ 2 <= i /\ occursAt "a]b]" "]" i /\
      forall j, 2 <= j < i -> ~ occursAt "a]b]" "]" j)).
Proof.
  apply (@match_literal_leftmost miniEngine "a]b]" 2 "]" (stateIn [0%nat])). done.
Defined.

Lemma match_literal_suffix_witness :
  exists i m,
    @match_ miniEngine "a\'" 2 PREFIX (PString "\") (stateIn [0%nat])
    = ((i, m), stateIn [0%nat]) /\
    ((i = -1 /\ m = None /\ ~ occursAt "a\'" "\" (2 - strlen "\")) \/
     (i = 2 - strlen "\" /\ m = Some "\" /\ occursAt "a\'" "\" i)).
Proof.
  apply (@match_literal_suffix miniEngine "a\'" 2 "\" (stateIn [0%nat]));
    [done | change (strlen "a\'") with 3; lia].
Defined.

Lemma matchWithEscape_escaped_zero_width_witness :
  @matchWithEscape miniEngine 1000 "a\b" 2 (PFunction openHere) (Some (PString "\"))
    (stateIn [0%nat])
  = Timeout.
Proof.
  apply (@matchWithEscape_escaped_zero_width miniEngine 1000 "a\b" 2 openHere None "\"
           (stateIn [0%nat]));
    [done | change (strlen "\") with 1; lia | reflexivity | reflexivity | reflexivity].
Defined.

Lemma makeSureAnchor_round_trip_witness :
  makeSureAnchor (makeSureAnchor "a+" false true) false false = "a+".
Proof. apply (makeSureAnchor_round_trip "a+" false). reflexivity. Defined.

Lemma getCachedRegExp_normalized_witness :
  let r := {| source := "^x$"; flags := "gi"; lastIndex := 3 |} in
  let '(key, cached, st1) := getCachedRegExp (stateIn [0%nat]) r NONE false in
  source cached = normalizeSource (source r) NONE /\
  flags cached = normalizeFlags (flags r) false /\
  hasFlag "g" cached = false /\
  coherent (regExpCache st1).
Proof.
  intros r.
  destruct (getCachedRegExp (stateIn [0%nat]) r NONE false) as [[key cached] st1] eqn:E.
  exact (getCachedRegExp_normalized (stateIn [0%nat]) r NONE false key cached st1
           coherent_empty eq_refl E).
Defined.

Lemma cacheKey_injective_witness : "x" = "x" /\ "g" = "g".
Proof. apply (cacheKey_injective "x" "g" "x" "g"); reflexivity. Defined.

Lemma match_regex_runs_engine_witness :
  let r := {| source := "x$"; flags := ""; lastIndex := 0 |} in
  (@match_ miniEngine "axb" 2 DEFAULT (PRegExp r) (stateIn [0%nat])).1
  = (if strlen "axb" <? 2 then noMatch
     else execResult (@regExpMatch miniEngine (normalizeSource (source r) NONE)
                        (normalizeFlags (flags r) true) 2 "axb")) /\
  (@match_ miniEngine "axb" 2 PREFIX (PRegExp r) (stateIn [0%nat])).1
  = execResult (@regExpMatch miniEngine (normalizeSource (source r) END)
                  (normalizeFlags (flags r) false) 0 (substring "axb" 0 2)).
Proof.
  intros r.
  exact (@match_regex_runs_engine miniEngine "axb" 2 r (stateIn [0%nat])
           coherent_empty eq_refl).
Defined.

(** The first token of [a'b'], with the preset grammar and no sub-mode
    tokenizer: the layers of the line and the token before the quote. *)
Lemma text_before_quote :
  exists st1 layer style stream' st',
    @scanLine miniEngine 10 demoConfig (streamOf "a'b'") demoStart = Done st1 /\
    firstLayer st1 = Some layer /\
    @token miniEngine plainHost 10 demoConfig (streamOf "a'b'") demoStart
    = Done (style, stream', st') /\
    @dispatch plainHost (arena demoConfig) (streamOf "a'b'") st1
    = Done (style, stream', st').
Proof.
  eexists _, _, _, _, _. split; [vm_compute; reflexivity|].
  split; [reflexivity|]. split; vm_compute; reflexivity.
Defined.

Lemma token_stops_at_boundary_witness :
  exists st1 layer style stream' st',
    @scanLine miniEngine 10 demoConfig (streamOf "a'b'") demoStart = Done st1 /\
    firstLayer st1 = Some layer /\
    @token miniEngine plainHost 10 demoConfig (streamOf "a'b'") demoStart
    = Done (style, stream', st') /\
    ss_pos stream' <= layerEnd layer /\
    (ss_start (streamOf "a'b'") < l_pos layer -> ss_pos stream' <= l_pos layer).
Proof.
  destruct text_before_quote as (st1 & layer & style & stream' & st' & H1 & H2 & H3 & _).
  exists st1, layer, style, stream', st'.
  split; [exact H1|]. split; [exact H2|]. split; [exact H3|].
  exact (@token_stops_at_boundary miniEngine plainHost 10 demoConfig (streamOf "a'b'")
           demoStart st1 layer style stream' st' H1 H2 H3).
Defined.

(** The second token of [#[if]], with the flag mode as the tokenizer of the
    header: the word [if] between the delimiters. *)
Lemma flag_word_in_header :
  exists stream2 st2 st3 layer style stream' st',
    @afterFirstToken miniEngine flagHost 10 demoConfig "#[if]" demoStart
    = Some (stream2, st2) /\
    @scanLine miniEngine 10 demoConfig stream2 st2 = Done st3 /\
    ss_pos stream2 = ss_start stream2 /\
    ss_start stream2 < strlen (ss_string stream2) /\
    firstLayer st3 = Some layer /\ ss_start stream2 < l_pos layer /\
    @token miniEngine flagHost 10 demoConfig stream2 st2 = Done (style, stream', st') /\
    style = Some (flagKeywordStyle "if").
Proof.
  eexists _, _, _, _, _, _, _. split; [vm_compute; reflexivity|].
  split; [vm_compute; reflexivity|]. split; [reflexivity|]. split; [reflexivity|].
  split; [reflexivity|]. split; [reflexivity|]. split; vm_compute; reflexivity.
Defined.

Lemma token_advances_witness :
  exists stream2 st2 style stream' st',
    @afterFirstToken miniEngine flagHost 10 demoConfig "#[if]" demoStart
    = Some (stream2, st2) /\
    @token miniEngine flagHost 10 demoConfig stream2 st2 = Done (style, stream', st') /\
    ss_start stream2 < ss_pos stream'.
Proof.
  destruct flag_word_in_header
    as (stream2 & st2 & st3 & layer & style & stream' & st'
        & H1 & H2 & H3 & H4 & H5 & H6 & H7 & _).
  exists stream2, st2, style, stream', st'. split; [exact H1|]. split; [exact H7|].
  refine (@token_advances miniEngine flagHost 10 demoConfig stream2 st2 st3 style stream'
            st' flagHost_advancing H2 H3 H4 _ H7).
  intros layer' Hl Heq. rewrite H5 in Hl. inversion Hl; subst. lia.
Defined.

Lemma dispatch_consumes_in_order_witness :
  exists st1 style stream' st',
    @scanLine miniEngine 10 demoConfig (streamOf "a'b'") demoStart = Done st1 /\
    @dispatch plainHost (arena demoConfig) (streamOf "a'b'") st1
    = Done (style, stream', st') /\
    dispatcherFrame st1 st' /\
    (layers st' = layers st1 \/
     exists layer rest, layers st1 = Some (layer :: rest) /\ layers st' = Some rest /\
                        ss_pos stream' = layerEnd layer).
Proof.
  destruct text_before_quote as (st1 & layer & style & stream' & st' & H1 & _ & _ & H4).
  exists st1, style, stream', st'. split; [exact H1|]. split; [exact H4|].
  exact (@dispatch_consumes_in_order plainHost (arena demoConfig) (streamOf "a'b'") st1
           style stream' st' H4).
Defined.

Lemma syncState_round_trip_witness :
  exists st1,
    @syncState plainHost (arena demoConfig) demoStart (streamOf "#{a}")
      {| l_pos := 0; l_matched := Some "#{"; l_open := true;
         l_prePattern := 0%nat; l_nextPattern := code |}
    = Done st1 /\
    @syncState plainHost (arena demoConfig) st1 (streamOf "#{a}")
      {| l_pos := 3; l_matched := Some "}"; l_open := false;
         l_prePattern := code; l_nextPattern := 0%nat |}
    = Done demoStart.
Proof.
  apply (@syncState_round_trip plainHost (arena demoConfig) demoStart
           (streamOf "#{a}") (streamOf "#{a}")); reflexivity.
Defined.

Lemma flagToken_advances_witness :
  ss_pos (streamOf "if x") < ss_pos (flagToken (streamOf "if x")).2
  <= strlen (ss_string (streamOf "if x")) /\
  ss_string (flagToken (streamOf "if x")).2 = ss_string (streamOf "if x") /\
  ss_start (flagToken (streamOf "if x")).2 = ss_start (streamOf "if x").
Proof.
  apply (flagToken_advances (streamOf "if x")).
  change (0 <= 0 < 4). lia.
Defined.

Lemma flagToken_keyword_witness :
  (flagToken (streamOf "if x")).1
  = (if String.eqb (current (flagToken (streamOf "if x")).2) "if"
     then Some (flagKeywordStyle "if") else None) /\
  ((flagToken (streamOf "if x")).1 <> None ->
   match charAt (ss_string (streamOf "if x")) (ss_pos (flagToken (streamOf "if x")).2) with
   | Some c => MiniRegExp.isWord c = false
   | None => True
   end).
Proof.
  apply (flagToken_keyword (streamOf "if x")); [|reflexivity].
  change (0 <= 0 <= 4). lia.
Defined.

Lemma copyState_shares_cache_witness :
  exists s' h' st st' la,
    @Heap.copyState plainHost 1 1%positive Heap.initialHeap = Done (s', h') /\
    Heap.initialHeap !! 1%positive = Some (Heap.OState st) /\
    h' !! s' = Some (Heap.OState st') /\
    Heap.regExpCache st' = Heap.regExpCache st /\
    Heap.textBefore st' = Heap.textBefore st /\
    Heap.useRoot st' = Heap.useRoot st /\
    Heap.start st' = Heap.start st /\
    Heap.layers st' = Some la /\ ¬ (la ∈ dom Heap.initialHeap) /\
    h' !! la = Some (Heap.OLayers (Heap.spreadLayers (Heap.layers st) Heap.initialHeap)).
Proof.
  exact (@copyState_shares_cache plainHost Heap.initialHeap 1%positive _ _
           initialHeap_owns).
Defined.

Lemma demoConfig_productive : @productive miniEngine (arena demoConfig).
Proof.
  apply preset_productive;
    [apply miniEngine_bounded | apply miniEngine_codeOpener | apply demoOptions_productive].
Qed.

Lemma createLayers_productive_witness :
  @createLayers miniEngine 20 demoConfig demoStart "a #{b" 0 <> Timeout /\
  forall ls st',
    @createLayers miniEngine 20 demoConfig demoStart "a #{b" 0 = Done (ls, st') ->
    placed "a #{b" 0 ls = true.
Proof.
  apply (@createLayers_productive miniEngine 20 demoConfig demoStart "a #{b" 0);
    [apply demoConfig_cacheBlind | apply demoConfig_productive | apply coherent_empty
    | lia | simpl; lia].
Defined.


Lemma demoConfig_hooksKeepStart : hooksKeepStart demoConfig.
Proof.
  repeat split; intros st info; try reflexivity.
  simpl. unfold defaultAfterExit. destruct (i_pattern info); [|done].
  by destruct (_ || _).
Qed.

Lemma tokenize_partitions_line_witness :
  @tokenize miniEngine flagHost 10 20 demoConfig (streamOf "#[if x]") demoStart
  <> Throws Impossible /\
  forall toks st',
    (String.length "#[if x]" <= 10)%nat ->
    @tokenize miniEngine flagHost 10 20 demoConfig (streamOf "#[if x]") demoStart
    = Done (toks, st') ->
    joined (map snd toks) = "#[if x]" /\ ("#[if x]" <> "" -> firstLayer st' = None).
Proof.
  apply (@tokenize_partitions_line miniEngine flagHost 10 20 demoConfig "#[if x]" demoStart);
    [apply demoConfig_cacheBlind | apply demoConfig_productive
    | apply demoConfig_hooksKeepStart | apply coherent_empty
    | apply flagHost_advancing | apply flagHost_cursorOnly].
Defined.

(** The tokens of a line of the demonstration page, with the flag mode as
    the only tokenizer. *)
Example preset_tokens :
  tokensOf (@tokenize miniEngine flagHost 20 40 demoConfig
              (streamOf "#[if x] [a #{b}]") demoStart)
  = Some [(Some "bracket cxj-template cxj-template-flag open", "#[");
          (Some "keyword cxj-template-flag-keyword cxj-template-flag-keyword-if", "if");
          (None, " "); (None, "x");
          (Some "bracket cxj-template cxj-template-flag close", "]");
          (None, " "); (Some "bracket cxj-template open", "[");
          (None, "a "); (Some "bracket cxj-code open", "#{");
          (None, "b"); (Some "bracket cxj-code close", "}");
          (Some "bracket cxj-template close", "]")].
Proof. vm_compute. reflexivity. Qed.

(** A quoted string with an escaped quote: the delimiters are tokens of
    their own. *)
Example preset_tokens_quote :
  tokensOf (@tokenize miniEngine plainHost 20 40 demoConfig (streamOf "a 'b\'c' d") demoStart)
  = Some [(None, "a "); (None, "'"); (None, "b\'c"); (None, "'"); (None, " d")].
Proof. vm_compute. reflexivity. Qed.

(** The scan of [<%x%>] with the grammar of the included region. *)
Lemma included_scan :
  exists st1 rest,
    @scanLine miniEngine 10 (noHooks includedArena) (streamOf "<%x%>") (stateIn [0%nat])
    = Done st1 /\
    layers st1
    = Some ({| l_pos := 0; l_matched := Some "<%"; l_open := true;
               l_prePattern := 0%nat; l_nextPattern := 1%nat |} :: rest) /\
    modesOf st1 = [].
Proof.
  eexists _, _. split; [vm_compute; reflexivity|]. split; reflexivity.
Defined.

Lemma included_opener_pushes_twice_witness :
  exists st1 style1 st2 style2 stream2 st3,
    @scanLine miniEngine 10 (noHooks includedArena) (streamOf "<%x%>") (stateIn [0%nat])
    = Done st1 /\
    @dispatch charHost includedArena (streamOf "<%x%>") st1
    = Done (style1, set_pos 1 (streamOf "<%x%>"), st2) /\
    @dispatch charHost includedArena (startAt 1 (set_pos 1 (streamOf "<%x%>"))) st2
    = Done (style2, stream2, st3) /\
    modesOf st3 = [JStr "inner"; JStr "inner"].
Proof.
  destruct included_scan as (st1 & rest & Hscan & Hl & Hm).
  destruct (@included_opener_pushes_twice charHost includedArena (streamOf "<%x%>") st1
              _ rest (fun stream s => (None, set_pos (ss_pos stream + 1) stream, s)) 1 Hl)
    as (style1 & st2 & style2 & stream2 & st3 & H1 & H2 & _ & H4);
    try reflexivity.
  - change (0 < 1 < 2). lia.
  - intros s. by eexists _, _.
  - intros s. eexists _, _, _. split; [reflexivity|]. change (2 <= 2). lia.
  - exists st1, style1, st2, style2, stream2, st3.
    split; [exact Hscan|]. split; [exact H1|]. split; [exact H2|].
    rewrite H4, Hm. reflexivity.
Defined.

(** With a sub-mode that reads one character at a time, the mode of the
    included region is still on the stack when the region has been closed;
    with a sub-mode that reads the delimiters whole, the stack is empty
    again. *)
Example included_region_leaves_a_mode :
  (fun r => match r with Done (_, st) => Some (modesOf st) | _ => None end)
    (@tokenize miniEngine charHost 20 40 (noHooks includedArena) (streamOf "<%x%>")
       (stateIn [0%nat]))
  = Some [JStr "inner"] /\
  (fun r => match r with Done (_, st) => Some (modesOf st) | _ => None end)
    (@tokenize miniEngine plainHost 20 40 (noHooks includedArena) (streamOf "<%x%>")
       (stateIn [0%nat]))
  = Some [].
Proof. split; vm_compute; reflexivity. Qed.

Lemma startState_shares_base_mode_witness :
  exists init h0 s1 h1 s2 h2 F1 F2,
    @newInitialStateContext plainHost (JStr "sql") ∅ = (init, h0) /\
    heapStartState 0%nat init h0 = (s1, h1) /\
    heapStartState 0%nat init h1 = (s2, h2) /\
    s1 <> s2 /\
    Heap.owns h2 s1 F1 (startView 0%nat (JStr "sql") (JBool true)) /\
    Heap.owns h2 s2 F2 (startView 0%nat (JStr "sql") (JBool true)) /\
    forall v, exists h3,
      Heap.perform s1 (Heap.SetLocalState v) h2 = Done h3 /\
      Heap.owns h3 s2 F2 (startView 0%nat (JStr "sql") v).
Proof.
  exact (@startState_shares_base_mode plainHost (JStr "sql") 0%nat ∅ eq_refl).
Defined.

Lemma matchWithEscape_leftmost_unescaped_witness :
  exists r,
    @matchWithEscape miniEngine 10 "a\'b'" 0 (PString "'") (PString <$> Some "\")
      (stateIn [0%nat])
    = Done (r, (if r =? -1 then None else Some "'"), stateIn [0%nat]) /\
    ((r = -1 /\
      forall k, 0 <= k -> occursAt "a\'b'" "'" k ->
                escapedLit "a\'b'" (Some "\") k = true) \/
     (0 <= r /\ occursAt "a\'b'" "'" r /\ escapedLit "a\'b'" (Some "\") r = false /\
      forall k, 0 <= k < r -> occursAt "a\'b'" "'" k ->
                escapedLit "a\'b'" (Some "\") k = true)).
Proof.
  apply (@matchWithEscape_leftmost_unescaped miniEngine 10 "a\'b'" 0 "'" (Some "\")
           (stateIn [0%nat])); [done | | simpl; lia].
  intros i j _ _ Hij. change (strlen "'") with 1. lia.
Defined.

(** A closer of two brackets behind an escaped bracket: the occurrence at
    index 2 is not escaped, and it is not found. *)
Lemma matchWithEscape_skips_overlap_witness :
  @matchWithEscape miniEngine 5 "\]]]" 0 (PString "]]") (Some (PString "\"))
    (stateIn [0%nat])
  = Done (-1, None, stateIn [0%nat]) /\
  occursAt "\]]]" "]]" 2 /\ escapedLit "\]]]" (Some "\") 2 = false.
Proof.
  split; [|split; [split; [lia | reflexivity] | reflexivity]].
  apply (@matchWithEscape_skips_overlap miniEngine 5 "\]]]" 0 "]]" "\" (stateIn [0%nat]));
    [done | done | lia | vm_compute; discriminate | reflexivity | reflexivity].
Defined.

Lemma createLayers_on_delimiters_witness :
  match @createLayers miniEngine 20 (noHooks tieArena) (stateIn [0%nat]) "x[a]]" 0 with
  | Done (ls, st') => Forall (onDelimiter tieArena "x[a]]") ls
  | _ => False
  end.
Proof.
  destruct (@createLayers miniEngine 20 (noHooks tieArena) (stateIn [0%nat]) "x[a]]" 0)
    as [[ls st']| |] eqn:E;
    [|vm_compute in E; discriminate E|vm_compute in E; discriminate E].
  exact (@createLayers_on_delimiters miniEngine 20 (noHooks tieArena) (stateIn [0%nat])
           "x[a]]" 0 ls st' tieArena_literal E).
Defined.



Lemma midHeap_owns :
  Heap.owns midHeap 1%positive
    ({[1%positive; 2%positive]} ∪ ({[5%positive]} ∪ ({[4%positive]} ∪ ∅))
     ∪ ({[6%positive; 7%positive]} ∪ ∅)) midView.
Proof.
  eexists _, _, _. split; [reflexivity|]. simpl.
  split; [econstructor; [reflexivity | econstructor; [reflexivity | constructor]]|].
  split; [eapply Heap.sstack_cons with (F := ∅);
            [reflexivity | reflexivity | apply not_elem_of_empty | apply not_elem_of_empty
            | constructor]|].
  split; reflexivity.
Qed.

(** The copy of a state in the middle of a document, and what the two
    states denote after each has gone its own way. *)
Lemma copyState_independent_witness :
  exists s' h' F',
    @Heap.copyState plainHost 3 1%positive midHeap = Done (s', h') /\
    Heap.owns h' s' F' midView /\
    (forall l, l ∈ F' -> l ∉ dom midHeap) /\
    exists h2 F1 F2,
      Heap.performAll 1%positive s' midWrites h' = Done h2 /\
      Heap.owns h2 1%positive F1
        {| Heap.v_patterns := [0%nat]; Heap.v_modes := [];
           Heap.v_customs := {["justExitTemplate" := JBool false]} |} /\
      Heap.owns h2 s' F2
        {| Heap.v_patterns := [code; singleQuote; 0%nat];
           Heap.v_modes := [(JStr "js", JStr "x"); (JStr "sql", JBool true)];
           Heap.v_customs := {["justExitTemplate" := JBool true]} |} /\
      F1 ## F2.
Proof.
  destruct (@copyState_independent plainHost midHeap 1%positive _ midView midHeap_owns)
    as (s' & h' & F' & Hc & _ & _ & Ho' & Hfresh & Hind).
  exists s', h', F'. split; [exact Hc|]. split; [exact Ho'|]. split; [exact Hfresh|].
  assert (Hruns : exists h2, Heap.performAll 1%positive s' midWrites h' = Done h2).
  { clear Ho' Hfresh Hind. vm_compute in Hc. injection Hc as <- <-.
    eexists. vm_compute. reflexivity. }
  destruct Hruns as [h2 Hrun].
  destruct (Hind midWrites h2 Hrun) as (F1 & F2 & H1 & H2 & Hd).
  exists h2, F1, F2. split; [exact Hrun|]. split; [|split; [|exact Hd]].
  - replace {| Heap.v_patterns := [0%nat]; Heap.v_modes := [];
               Heap.v_customs := {["justExitTemplate" := JBool false]} |}
      with (Heap.writtenAll true midWrites midView) by (vm_compute; reflexivity).
    exact H1.
  - replace {| Heap.v_patterns := [code; singleQuote; 0%nat];
               Heap.v_modes := [(JStr "js", JStr "x"); (JStr "sql", JBool true)];
               Heap.v_customs := {["justExitTemplate" := JBool true]} |}
      with (Heap.writtenAll false midWrites midView) by (vm_compute; reflexivity).
    exact H2.
Defined.
